(** * elysia-treaty-docs: type normalisation and route-tree extraction

    A shallow embedding of [src/index.ts].  The ts-morph object model is
    an external collaborator: a [Type] is a handle into a type graph that
    answers the query methods the source calls ([isArray], [getText],
    [getProperties], ...).  The graph is a total function on handles, so
    self-referential types are ordinary inhabitants of the model.

    JavaScript strings are modelled by [string] over the code points
    below 256; every literal and every character class of the source
    lives in that range. *)

From Stdlib Require Import String Ascii List Bool Arith ZArith Lia Permutation.
Import ListNotations.
Open Scope string_scope.
Open Scope nat_scope.

(** ** Outcomes of a JavaScript call *)

(** The only exception the modelled code can raise by itself is the
    [RangeError] of [String.prototype.repeat] on a negative count. *)
Inductive exn : Type := RangeError.

Inductive outcome (A : Type) : Type :=
| Ret (a : A)
| Throw (e : exn)
| Diverge.

Arguments Ret {A} a.
Arguments Throw {A} e.
Arguments Diverge {A}.

Definition bind {A B : Type} (m : outcome A) (k : A -> outcome B) : outcome B :=
  match m with
  | Ret a => k a
  | Throw e => Throw e
  | Diverge => Diverge
  end.

Notation "x <- m ;; k" := (bind m (fun x => k))
  (at level 61, m at next level, right associativity).

(** [Array.prototype.map] with a callback that may fail: elements are
    visited left to right and the first failure aborts the call. *)
Fixpoint mapM {A B : Type} (f : A -> outcome B) (l : list A) : outcome (list B) :=
  match l with
  | [] => Ret []
  | a :: l' => b <- f a ;; bs <- mapM f l' ;; Ret (b :: bs)
  end.

(** ** String primitives *)

Module Js.

Definition str (c : ascii) : string := String c "".

(** What follows [prefix] in [s], when [s] starts with it. *)
Fixpoint stripPrefix (prefix s : string) : option string :=
  match prefix with
  | "" => Some s
  | String a prefix' =>
      match s with
      | String b s' => if Ascii.eqb a b then stripPrefix prefix' s' else None
      | "" => None
      end
  end.

Definition startsWith (s prefix : string) : bool :=
  match stripPrefix prefix s with
  | Some _ => true
  | None => false
  end.

Definition join (l : list string) (sep : string) : string := String.concat sep l.

Fixpoint repeat_nat (s : string) (n : nat) : string :=
  match n with
  | O => ""
  | S n' => s ++ repeat_nat s n'
  end.

(** [s.repeat(count)]: a negative count is a [RangeError]. *)
Definition repeat (s : string) (count : Z) : outcome string :=
  if (count <? 0)%Z then Throw RangeError else Ret (repeat_nat s (Z.to_nat count)).

(** WhiteSpace and LineTerminator code points below 256: TAB, LF, VT, FF,
    CR, SP and NBSP.  This is the class [\s] and the set [trim] strips. *)
Definition isWhiteSpace (c : ascii) : bool :=
  let n := nat_of_ascii c in
  ((9 <=? n) && (n <=? 13)) || (n =? 32) || (n =? 160).

Fixpoint trimStart (s : string) : string :=
  match s with
  | "" => ""
  | String c rest => if isWhiteSpace c then trimStart rest else s
  end.

Fixpoint trimEnd (s : string) : string :=
  match s with
  | "" => ""
  | String c rest =>
      match trimEnd rest with
      | "" => if isWhiteSpace c then "" else str c
      | t => String c t
      end
  end.

Definition trim (s : string) : string := trimEnd (trimStart s).

(** Longest prefix of [s] whose characters satisfy [p], and the rest. *)
Fixpoint span (p : ascii -> bool) (s : string) : string * string :=
  match s with
  | "" => ("", "")
  | String c rest =>
      if p c then let (a, b) := span p rest in (String c a, b) else ("", s)
  end.

Fixpoint forallb (p : ascii -> bool) (s : string) : bool :=
  match s with
  | "" => true
  | String c rest => p c && forallb p rest
  end.

(** [s.split(sep)] for a one-character separator. *)
Fixpoint split (sep : ascii) (s : string) : list string :=
  match s with
  | "" => [""]
  | String c rest =>
      if Ascii.eqb c sep then "" :: split sep rest
      else match split sep rest with
           | [] => [str c]
           | seg :: segs => String c seg :: segs
           end
  end.

(** [s.slice(1)]. *)
Definition slice1 (s : string) : string :=
  match s with
  | "" => ""
  | String _ rest => rest
  end.

(** [Array.prototype.includes] on an array of strings. *)
Definition includes (l : list string) (x : string) : bool :=
  List.existsb (String.eqb x) l.

(** [[...new Set(l)]]: the distinct elements in order of first insertion. *)
Fixpoint uniqueFrom (seen : list string) (l : list string) : list string :=
  match l with
  | [] => []
  | x :: l' =>
      if includes seen x then uniqueFrom seen l'
      else x :: uniqueFrom (seen ++ [x]) l'
  end.

Definition unique (l : list string) : list string := uniqueFrom [] l.

(** [Array.prototype.sort(cmp)]: a stable sort; [x] stays in front of [y]
    unless [cmp x y > 0].  Insertion from the right keeps it stable. *)
Fixpoint sortInsert (cmp : string -> string -> Z) (x : string) (l : list string)
  : list string :=
  match l with
  | [] => [x]
  | y :: l' => if (0 <? cmp x y)%Z then y :: sortInsert cmp x l' else x :: l
  end.

Fixpoint sort (cmp : string -> string -> Z) (l : list string) : list string :=
  match l with
  | [] => []
  | x :: l' => sortInsert cmp x (sort cmp l')
  end.

(** ASCII letters only: the source upper-cases HTTP method names. *)
Definition upperChar (c : ascii) : ascii :=
  let n := nat_of_ascii c in
  if (97 <=? n) && (n <=? 122) then ascii_of_nat (n - 32) else c.

Fixpoint toUpperCase (s : string) : string :=
  match s with
  | "" => ""
  | String c rest => String (upperChar c) (toUpperCase rest)
  end.

End Js.

(** ** Regular expressions

    A regular expression is modelled by what it matches at the head of a
    suffix of the subject: [Some (len, groups)] is a match of [len > 0]
    characters with the captured groups.  The drivers below implement
    the search loops of [test], [match], [matchAll] and global [replace]:
    positions are tried left to right and, after a match, the search
    resumes behind it. *)

Module Re.

Definition matcher : Type := string -> option (nat * list string).

(** [re.test(s)], [matchesAt] telling whether [re] matches at the head of
    a suffix. *)
Fixpoint test (matchesAt : string -> bool) (s : string) : bool :=
  matchesAt s
  || match s with
     | "" => false
     | String _ rest => test matchesAt rest
     end.

(** [s.match(re)] without the [g] flag: the groups of the leftmost match. *)
Fixpoint exec (m : matcher) (s : string) : option (list string) :=
  match m s with
  | Some (_, groups) => Some groups
  | None =>
      match s with
      | "" => None
      | String _ rest => exec m rest
      end
  end.

(** [skip] characters of an earlier match are still to be stepped over. *)
Fixpoint matchAllFrom (m : matcher) (skip : nat) (s : string) : list (list string) :=
  match s with
  | "" => []
  | String _ rest =>
      match skip with
      | S k => matchAllFrom m k rest
      | O =>
          match m s with
          | Some (len, groups) => groups :: matchAllFrom m (len - 1) rest
          | None => matchAllFrom m 0 rest
          end
      end
  end.

Definition matchAll (m : matcher) (s : string) : list (list string) :=
  matchAllFrom m 0 s.

Fixpoint replaceFrom (m : matcher) (repl : list string -> string) (skip : nat)
  (s : string) : string :=
  match s with
  | "" => ""
  | String c rest =>
      match skip with
      | S k => replaceFrom m repl k rest
      | O =>
          match m s with
          | Some (len, groups) => repl groups ++ replaceFrom m repl (len - 1) rest
          | None => String c (replaceFrom m repl 0 rest)
          end
      end
  end.

(** [s.replace(re, ...)] with the [g] flag. *)
Definition replaceAll (m : matcher) (repl : list string -> string) (s : string)
  : string :=
  replaceFrom m repl 0 s.

(** A literal pattern without groups. *)
Definition lit (p : string) : matcher :=
  fun s => if Js.startsWith s p then Some (String.length p, []) else None.

Definition isWordChar (c : ascii) : bool :=
  let n := nat_of_ascii c in
  ((48 <=? n) && (n <=? 57)) || ((65 <=? n) && (n <=? 90))
  || ((97 <=? n) && (n <=? 122)) || (n =? 95).

End Re.

(** ** Constants of the source *)

Definition KNOWN_GENERICS : list string :=
  [ "Array"; "ReadonlyArray"; "Promise"; "Map"; "Set"; "WeakMap"; "WeakSet";
    "Readonly"; "Partial"; "Required"; "Pick"; "Omit"; "Record"; "Exclude";
    "Extract"; "NonNullable"; "ReturnType"; "Iterable"; "Iterator";
    "AsyncIterable"; "AsyncIterator"; "Generator"; "AsyncGenerator";
    "IterableIterator" ].

Definition HTTP_METHODS : list string := [ "get"; "post"; "put"; "delete"; "patch" ].

Definition INTERNAL_PROPS : list string :=
  [ "decorator"; "store"; "derive"; "resolve"; "schema"; "standaloneSchema";
    "response" ].

Definition ARRAY_FINGERPRINT : list string :=
  [ "length"; "push"; "pop"; "concat"; "join"; "reverse"; "shift"; "slice";
    "sort"; "splice"; "indexOf"; "forEach"; "map"; "filter"; "reduce"; "find" ].

Definition MAX_RESOLVE_DEPTH : nat := 10.

(** [Set.prototype.has] on one of the constant sets above. *)
Definition has (set : list string) (x : string) : bool := Js.includes set x.

Definition isIdentStart (c : ascii) : bool :=
  let n := nat_of_ascii c in
  ((65 <=? n) && (n <=? 90)) || ((97 <=? n) && (n <=? 122))
  || (n =? 95) || (n =? 36).

Definition isIdentPart (c : ascii) : bool :=
  isIdentStart c || ((48 <=? nat_of_ascii c) && (nat_of_ascii c <=? 57)).

(** [VALID_IDENT.test(s)] for [/^[a-zA-Z_$][a-zA-Z0-9_$]*$/]. *)
Definition VALID_IDENT_test (s : string) : bool :=
  match s with
  | "" => false
  | String c rest => isIdentStart c && Js.forallb isIdentPart rest
  end.

Definition notChar (x : ascii) (c : ascii) : bool := negb (Ascii.eqb c x).

(** [\s*] in front of a character that is not white space. *)
Definition skipWhiteSpace (s : string) : string := snd (Js.span Js.isWhiteSpace s).

(** [/\[\s*Symbol\.\s*(unscopables|iterator)\s*\]/], first alternative of
    [EXPANDED_ARRAY_RE]. *)
Definition symbolKey_at (s : string) : bool :=
  match Js.stripPrefix "[" s with
  | Some r1 =>
      match Js.stripPrefix "Symbol." (skipWhiteSpace r1) with
      | Some r2 =>
          let closes (behind : option string) :=
            match behind with
            | Some r3 => Js.startsWith (skipWhiteSpace r3) "]"
            | None => false
            end in
          closes (Js.stripPrefix "unscopables" (skipWhiteSpace r2))
          || closes (Js.stripPrefix "iterator" (skipWhiteSpace r2))
      | None => false
      end
  | None => false
  end.

(** [/(?:pop|push|shift|splice|concat|reverse|forEach|indexOf)\??\s*:/],
    second alternative of [EXPANDED_ARRAY_RE]. *)
Definition arrayMethodKey_at (s : string) : bool :=
  List.existsb
    (fun w =>
       match Js.stripPrefix w s with
       | Some r1 =>
           let r2 := match Js.stripPrefix "?" r1 with Some r => r | None => r1 end in
           Js.startsWith (skipWhiteSpace r2) ":"
       | None => false
       end)
    [ "pop"; "push"; "shift"; "splice"; "concat"; "reverse"; "forEach"; "indexOf" ].

Definition EXPANDED_ARRAY_RE_test (s : string) : bool :=
  Re.test (fun suffix => symbolKey_at suffix || arrayMethodKey_at suffix) s.

(** [\b] between a character [prev] (if any) and the head of [s]. *)
Definition wordBoundary (prev : option ascii) (s : string) : bool :=
  let before := match prev with Some c => Re.isWordChar c | None => false end in
  let after := match s with String c _ => Re.isWordChar c | "" => false end in
  xorb before after.

(** [\b] right behind a word character. *)
Definition endOfWord (s : string) : bool :=
  match s with
  | String c _ => negb (Re.isWordChar c)
  | "" => true
  end.

(** [[^;{}]*?\|\s*w\b] at the head of [s]: some bar reachable over
    characters other than [;], [{] and [}] is followed by [w]. *)
Fixpoint repeatedAfterBar (w : string) (s : string) : bool :=
  match s with
  | "" => false
  | String c rest =>
      (Ascii.eqb c "|" &&
       match Js.stripPrefix w (skipWhiteSpace rest) with
       | Some behind => endOfWord behind
       | None => false
       end)
      || (negb (Ascii.eqb c ";" || Ascii.eqb c "{" || Ascii.eqb c "}")
          && repeatedAfterBar w rest)
  end.

(** [/\b(undefined|null)\b[^;{}]*?\|\s*\1\b/] at the head of [s], the
    character before [s] being [prev]. *)
Definition duplicateUnion_at (prev : option ascii) (s : string) : bool :=
  wordBoundary prev s &&
  List.existsb
    (fun w =>
       match Js.stripPrefix w s with
       | Some behind => endOfWord behind && repeatedAfterBar w behind
       | None => false
       end)
    [ "undefined"; "null" ].

(** The search loop of [DUPLICATE_UNION_RE.test], which has to know the
    character in front of each position. *)
Fixpoint DUPLICATE_UNION_RE_from (prev : option ascii) (s : string) : bool :=
  duplicateUnion_at prev s
  || match s with
     | "" => false
     | String c rest => DUPLICATE_UNION_RE_from (Some c) rest
     end.

Definition DUPLICATE_UNION_RE_test (s : string) : bool :=
  DUPLICATE_UNION_RE_from None s.

(** [/\/:([^/]+)/]. *)
Definition PARAM_RE : Re.matcher :=
  fun s =>
    match s with
    | String slash (String colon rest) =>
        if Ascii.eqb slash "/" && Ascii.eqb colon ":" then
          match fst (Js.span (notChar "/") rest) with
          | "" => None
          | name => Some (2 + String.length name, [name])
          end
        else None
    | _ => None
    end.

(** The double quote character. *)
Definition dquote : ascii := "034"%char.
Definition DQ : string := Js.str dquote.

(** [/_ResolvePath<DQ([^DQ]+)DQ>/], DQ standing for the double quote. *)
Definition RESOLVE_PATH_RE : Re.matcher :=
  fun s =>
    match Js.stripPrefix ("_ResolvePath<" ++ DQ) s with
    | Some behind =>
        let (literal, rest) := Js.span (notChar dquote) behind in
        match literal with
        | "" => None
        | _ =>
            if Js.startsWith rest (DQ ++ ">")
            then Some (16 + String.length literal, [literal])
            else None
        end
    | None => None
    end.

(** Text behind the last occurrence of [x] in [s], if there is one. *)
Fixpoint afterLast (x : ascii) (s : string) : option string :=
  match s with
  | "" => None
  | String c rest =>
      match afterLast x rest with
      | Some t => Some t
      | None => if Ascii.eqb c x then Some rest else None
      end
  end.

Definition isCloser (c : ascii) : bool := Ascii.eqb c "}" || Ascii.eqb c "]".

Definition newline : ascii := "010"%char.
Definition nl : string := Js.str newline.

(** [/([;,])\n\s*\n(\s*[}\]])/]: the greedy first [\s*] gives back
    characters up to the last line feed of the white-space run. *)
Definition BLANK_LINE_RE : Re.matcher :=
  fun s =>
    match s with
    | String c (String n rest) =>
        if (Ascii.eqb c ";" || Ascii.eqb c ",") && Ascii.eqb n newline then
          let (ws, tail) := Js.span Js.isWhiteSpace rest in
          match afterLast newline ws, tail with
          | Some pad, String d _ =>
              if isCloser d then
                Some (3 + String.length ws, [Js.str c; pad ++ Js.str d])
              else None
          | _, _ => None
          end
        else None
    | _ => None
    end.

(** [/,(\s*})/]. *)
Definition TRAILING_COMMA_RE : Re.matcher :=
  fun s =>
    match Js.stripPrefix "," s with
    | Some rest =>
        let (ws, tail) := Js.span Js.isWhiteSpace rest in
        if Js.startsWith tail "}" then Some (2 + String.length ws, [ws ++ "}"])
        else None
    | None => None
    end.

(** Substitution of [$1], [$2] in a replacement template. *)
Definition group (n : nat) (groups : list string) : string :=
  nth (n - 1) groups "".

(** ** Path parameters *)

Definition parseParamsFromPath (path : string) : string :=
  let params := map (group 1) (Re.matchAll PARAM_RE path) in
  match params with
  | [] => "{}"
  | _ => "{" ++ Js.join (map (fun name => name ++ ": string") params) ", " ++ "}"
  end.

(** ** Pretty-printer *)

Record PrettyState : Type := mkPretty {
  chunks : list string;
  indent : Z;
  inString : bool;
  escaped : bool
}.

Definition push (st : PrettyState) (items : list string) : PrettyState :=
  mkPretty (chunks st ++ items) (indent st) (inString st) (escaped st).

(** One iteration of the [for (const char of typeStr)] loop. *)
Definition prettyStep (st : PrettyState) (char : ascii) : outcome PrettyState :=
  if escaped st then
    Ret (mkPretty (chunks st ++ [Js.str char]) (indent st) (inString st) false)
  else if Ascii.eqb char "\" then
    Ret (mkPretty (chunks st ++ [Js.str char]) (indent st) (inString st) true)
  else if Ascii.eqb char dquote || Ascii.eqb char "'" then
    Ret (mkPretty (chunks st ++ [Js.str char]) (indent st) (negb (inString st)) false)
  else if inString st then
    Ret (push st [Js.str char])
  else if Ascii.eqb char "{" || Ascii.eqb char "[" then
    let indent' := (indent st + 1)%Z in
    pad <- Js.repeat "  " indent' ;;
    Ret (mkPretty (chunks st ++ [Js.str char; nl; pad]) indent' (inString st) (escaped st))
  else if Ascii.eqb char "}" || Ascii.eqb char "]" then
    let indent' := (indent st - 1)%Z in
    pad <- Js.repeat "  " indent' ;;
    Ret (mkPretty (chunks st ++ [nl; pad; Js.str char]) indent' (inString st) (escaped st))
  else if Ascii.eqb char ";" || Ascii.eqb char "," then
    pad <- Js.repeat "  " (indent st) ;;
    Ret (push st [Js.str char; nl; pad])
  else if negb (Ascii.eqb char " ") || negb (String.eqb (last (chunks st) "") " ") then
    Ret (push st [Js.str char])
  else
    Ret st.

Fixpoint prettyLoop (st : PrettyState) (typeStr : string) : outcome PrettyState :=
  match typeStr with
  | "" => Ret st
  | String char rest => st' <- prettyStep st char ;; prettyLoop st' rest
  end.

Definition prettyInit : PrettyState := mkPretty [] 0%Z false false.

Definition collapseBlankLines (s : string) : string :=
  Re.replaceAll BLANK_LINE_RE (fun g => group 1 g ++ nl ++ group 2 g) s.

Definition prettyPrintType (typeStr : string) : outcome string :=
  st <- prettyLoop prettyInit typeStr ;;
  Ret (Js.trim (collapseBlankLines (Js.join (chunks st) ""))).

(** ** Usage snippet and type blocks *)

Definition buildClientPath (path : string) : string :=
  fold_left
    (fun chain segment =>
       if Js.startsWith segment ":" then
         chain ++ "[params." ++ Js.slice1 segment ++ "]"
       else if VALID_IDENT_test segment then chain ++ "." ++ segment
       else chain ++ "[" ++ DQ ++ segment ++ DQ ++ "]")
    (filter (fun segment => negb (String.eqb segment "")) (Js.split "/" path))
    "client".

(** [hasX && text]: [None] is the value [false]. *)
Definition when (b : bool) (text : string) : option string :=
  if b then Some text else None.

(** [lines.filter(Boolean)]: [false] and the empty string are dropped. *)
Fixpoint filterBoolean (lines : list (option string)) : list string :=
  match lines with
  | [] => []
  | Some s :: rest => if String.eqb s "" then filterBoolean rest else s :: filterBoolean rest
  | None :: rest => filterBoolean rest
  end.

Definition exampleParams (paramsType : string) : string :=
  Re.replaceAll (Re.lit ": string") (fun _ => ": " ++ DQ ++ "example-value" ++ DQ)
    (Re.replaceAll TRAILING_COMMA_RE (group 1)
       (Re.replaceAll (Re.lit ";") (fun _ => ",") paramsType)).

Definition generateSdkCodeBlock (path method : string)
  (hasBody hasParams hasQuery : bool) (paramsType sdkImport sdkClientName : string)
  (sdkClientOptions : option string) : string :=
  let callArgs :=
    Js.join (filterBoolean [when hasBody "body"; when hasQuery "{ query }"]) ", " in
  let options := match sdkClientOptions with Some o => o | None => "" end in
  let lines :=
    [ Some "```typescript";
      Some (sdkImport ++ nl);
      Some ("const client = " ++ sdkClientName ++ "(" ++ options ++ ");" ++ nl);
      when hasParams ("const params = " ++ exampleParams paramsType ++ ";" ++ nl);
      when hasBody
        ("// Define your request body" ++ nl
         ++ "const body = {}; // Replace with actual body data" ++ nl);
      when hasQuery
        ("// Define your query parameters" ++ nl
         ++ "const query = {}; // Replace with actual query data" ++ nl);
      Some ("const response = await " ++ buildClientPath path ++ "." ++ method
            ++ "(" ++ callArgs ++ ");");
      Some ("```" ++ nl) ] in
  Js.join (filterBoolean lines) nl.

Definition formatTypeBlock (label typeStr : string) : outcome string :=
  pretty <- prettyPrintType typeStr ;;
  Ret ("**" ++ label ++ ":**" ++ nl ++ nl ++ "```typescript" ++ nl ++ pretty ++ nl
       ++ "```" ++ nl ++ nl).

(** ** The type checker's object model

    A [TsType] is a ts-morph [Type]; [TypeInfo] records the answers of the
    query methods the source calls on it.  A call such as
    [type.getSymbol()?.getName()] is kept as the optional name, and
    [getCallSignatures] as the number of signatures, which is all the
    source reads.  Every query is made at the one [typeAlias] of a run, so
    [getText] and [getTypeAtLocation] carry no location argument. *)

Definition TsType : Type := nat.

Record Symbol : Type := mkSymbol {
  getName : string;
  isOptional : bool;
  getTypeAtLocation : TsType
}.

Record TypeInfo : Type := mkTypeInfo {
  getText : string;
  isArray : bool;
  getArrayElementType : option TsType;
  isTuple : bool;
  getTupleElements : list TsType;
  isUnion : bool;
  getUnionTypes : list TsType;
  isIntersection : bool;
  getIntersectionTypes : list TsType;
  isObject : bool;
  getCallSignatures : nat;
  getSymbol : option string;
  getAliasSymbol : option string;
  getTypeArguments : list TsType;
  getAliasTypeArguments : list TsType;
  getNumberIndexType : option TsType;
  getProperties : list Symbol
}.

Definition TypeGraph : Type := TsType -> TypeInfo.

(** ** JSON.stringify on a string *)

Definition hexDigit (n : nat) : ascii :=
  if n <? 10 then ascii_of_nat (48 + n) else ascii_of_nat (87 + n).

Definition escapeChar (c : ascii) : string :=
  let n := nat_of_ascii c in
  if Ascii.eqb c dquote then "\" ++ DQ
  else if Ascii.eqb c "\" then "\\"
  else if n =? 8 then "\b"
  else if n =? 9 then "\t"
  else if n =? 10 then "\n"
  else if n =? 12 then "\f"
  else if n =? 13 then "\r"
  else if n <? 32 then "\u00" ++ Js.str (hexDigit (n / 16)) ++ Js.str (hexDigit (n mod 16))
  else Js.str c.

Fixpoint escapeString (s : string) : string :=
  match s with
  | "" => ""
  | String c rest => escapeChar c ++ escapeString rest
  end.

Definition JSON_stringify (s : string) : string := DQ ++ escapeString s ++ DQ.

(** ** TypeNormalizer *)

Section Normalizer.

Variable graph : TypeGraph.

(** [x ?? y]. *)
Definition orElse {A : Type} (x y : option A) : option A :=
  match x with
  | Some _ => x
  | None => y
  end.

Definition nameOrEmpty (name : option string) : string :=
  match name with
  | Some n => n
  | None => ""
  end.

(** The [for (const prop of properties)] loop that fills [entries]; it
    occurs twice in the source, with the same body. *)
Fixpoint propertyEntries (self : TsType -> nat -> outcome string)
  (properties : list Symbol) (depth : nat) : outcome (list string) :=
  match properties with
  | [] => Ret []
  | prop :: rest =>
      let propName := getName prop in
      if Js.startsWith propName "__@" then propertyEntries self rest depth
      else
        let propType := getTypeAtLocation prop in
        let optional := if isOptional prop then "?" else "" in
        resolved <- self propType (depth + 1) ;;
        let key :=
          if VALID_IDENT_test propName then propName else JSON_stringify propName in
        entries <- propertyEntries self rest depth ;;
        Ret ((key ++ optional ++ ": " ++ resolved) :: entries)
  end.

(** [if (entries.length > 0) return `{ ${entries.join("; ")} }`]: [None]
    when control falls through. *)
Definition objectLiteral (entries : list string) : option string :=
  match entries with
  | [] => None
  | _ => Some ("{ " ++ Js.join entries "; " ++ " }")
  end.

(** Collapse [false | true] back to [boolean]. *)
Definition collapseBoolean (unique : list string) : list string :=
  let hasFalse := Js.includes unique "false" in
  let hasTrue := Js.includes unique "true" in
  if hasFalse && hasTrue then
    filter (fun p => negb (String.eqb p "false") && negb (String.eqb p "true")) unique
    ++ ["boolean"]
  else unique.

Definition nullish : list string := [ "null"; "undefined" ].

Definition nullishCompare (a b : string) : Z :=
  let aN := if has nullish a then 1%Z else 0%Z in
  let bN := if has nullish b then 1%Z else 0%Z in
  (aN - bN)%Z.

Definition isAnonymousObject (m : TypeInfo) : bool :=
  isObject m
  && negb (isArray m)
  && (getCallSignatures m =? 0)
  && negb (has KNOWN_GENERICS (nameOrEmpty (getSymbol m)))
  && negb (has KNOWN_GENERICS (nameOrEmpty (getAliasSymbol m))).

Definition fingerprintMatches (properties : list Symbol) : nat :=
  let propNames := map getName properties in
  List.length (filter (fun fp => Js.includes propNames fp) ARRAY_FINGERPRINT).

(** [matched >= ARRAY_FINGERPRINT.size * 0.75], in integers. *)
Definition fingerprintReached (matched : nat) : bool :=
  3 * List.length ARRAY_FINGERPRINT <=? 4 * matched.

(** The branches of [resolveTypeText]; [self] stands for the function
    itself in its recursive calls, [T] for the queried [type]. *)

(** Array<T> / T[] *)
Definition resolveArray (self : TsType -> nat -> outcome string) (T : TypeInfo)
  (depth : nat) : outcome string :=
  match getArrayElementType T with
  | None => Ret "unknown[]"
  | Some elementType =>
      inner <- self elementType (depth + 1) ;;
      if isUnion (graph elementType) || isIntersection (graph elementType)
      then Ret ("Array<" ++ inner ++ ">")
      else Ret (inner ++ "[]")
  end.

(** Tuple types *)
Definition resolveTuple (self : TsType -> nat -> outcome string) (T : TypeInfo)
  (depth : nat) : outcome string :=
  elements <- mapM (fun t => self t (depth + 1)) (getTupleElements T) ;;
  Ret ("[" ++ Js.join elements ", " ++ "]").

(** Union types *)
Definition resolveUnion (self : TsType -> nat -> outcome string) (T : TypeInfo)
  (depth : nat) : outcome string :=
  parts <- mapM (fun t => self t (depth + 1)) (getUnionTypes T) ;;
  let unique := collapseBoolean (Js.unique parts) in
  Ret (Js.join (Js.sort nullishCompare unique) " | ").

Definition allAnonymousObjects (members : list TsType) : bool :=
  List.forallb (fun m => isAnonymousObject (graph m)) members
  && List.existsb (fun m => 0 <? List.length (getProperties (graph m))) members.

(** Intersection types *)
Definition resolveIntersection (self : TsType -> nat -> outcome string)
  (T : TypeInfo) (depth : nat) : outcome string :=
  let members := getIntersectionTypes T in
  flattened <-
    (if allAnonymousObjects members && (1 <? List.length members) then
       entries <- propertyEntries self (getProperties T) depth ;;
       Ret (objectLiteral entries)
     else Ret None) ;;
  match flattened with
  | Some literal => Ret literal
  | None =>
      parts <- mapM (fun t => self t (depth + 1)) members ;;
      let filtered := filter (fun p => negb (String.eqb p "{}")) parts in
      match Js.unique filtered with
      | [] => Ret "{}"
      | [only] => Ret only
      | unique => Ret (Js.join unique " & ")
      end
  end.

(** Well-known generic types; [None] when control falls through. *)
Definition resolveKnownGeneric (self : TsType -> nat -> outcome string)
  (T : TypeInfo) (depth : nat) : outcome (option string) :=
  match orElse (getSymbol T) (getAliasSymbol T) with
  | Some name =>
      let typeArgs :=
        if 0 <? List.length (getTypeArguments T) then getTypeArguments T
        else getAliasTypeArguments T in
      if has KNOWN_GENERICS name then
        if 0 <? List.length typeArgs then
          args <- mapM (fun t => self t (depth + 1)) typeArgs ;;
          Ret (Some (name ++ "<" ++ Js.join args ", " ++ ">"))
        else Ret (Some name)
      else Ret None
  | None => Ret None
  end.

(** The direct fingerprint check; [None] when control falls through. *)
Definition collapseExpandedArray (self : TsType -> nat -> outcome string)
  (T : TypeInfo) (depth : nat) : outcome (option string) :=
  match getNumberIndexType T with
  | Some numberIndexType =>
      if fingerprintReached (fingerprintMatches (getProperties T)) then
        inner <- self numberIndexType (depth + 1) ;;
        Ret (Some (inner ++ "[]"))
      else Ret None
  | None => Ret None
  end.

(** Object types *)
Definition resolveObject (self : TsType -> nat -> outcome string) (T : TypeInfo)
  (depth : nat) : outcome string :=
  collapsed <- collapseExpandedArray self T depth ;;
  match collapsed with
  | Some array => Ret array
  | None =>
      let text := getText T in
      if negb (EXPANDED_ARRAY_RE_test text) && negb (DUPLICATE_UNION_RE_test text)
      then Ret text
      else
        let properties := getProperties T in
        literal <-
          (if (0 <? List.length properties) && (getCallSignatures T =? 0) then
             entries <- propertyEntries self properties depth ;;
             Ret (objectLiteral entries)
           else Ret None) ;;
        match literal with
        | Some object => Ret object
        | None => Ret text
        end
  end.

(** The body of [resolveTypeText]: the dispatch, first match wins. *)
Definition resolveTypeText_body (self : TsType -> nat -> outcome string)
  (type : TsType) (depth : nat) : outcome string :=
  let T := graph type in
  if MAX_RESOLVE_DEPTH <? depth then Ret (getText T)
  else if isArray T then resolveArray self T depth
  else if isTuple T then resolveTuple self T depth
  else if isUnion T then resolveUnion self T depth
  else if isIntersection T then resolveIntersection self T depth
  else
    generic <- resolveKnownGeneric self T depth ;;
    match generic with
    | Some text => Ret text
    | None => if isObject T then resolveObject self T depth else Ret (getText T)
    end.

(** The recursion unrolled [fuel] times; running out of fuel stands for
    a call that has not returned. *)
Fixpoint resolveTypeText_fuel (fuel : nat) (type : TsType) (depth : nat)
  : outcome string :=
  match fuel with
  | O => Diverge
  | S fuel' => resolveTypeText_body (resolveTypeText_fuel fuel') type depth
  end.

(** [resolveTypeText(type, enclosingNode, depth)], unrolled once per
    level up to the guard at [MAX_RESOLVE_DEPTH] and once behind it. *)
Definition resolveTypeText (type : TsType) (depth : nat) : outcome string :=
  resolveTypeText_fuel (S (S MAX_RESOLVE_DEPTH - depth)) type depth.

End Normalizer.

(** ** RouteTreeWalker *)

Record RouteTypes : Type := mkRouteTypes {
  body : string;
  params : string;
  query : string;
  response : string
}.

Definition defaultRouteTypes : RouteTypes := mkRouteTypes "unknown" "{}" "unknown" "{}".

(** Names every object literal inherits from [Object.prototype]; they
    pass [key in routeTypes] as the four own keys do. *)
Definition OBJECT_PROTOTYPE_KEYS : list string :=
  [ "constructor"; "hasOwnProperty"; "isPrototypeOf"; "propertyIsEnumerable";
    "toLocaleString"; "toString"; "valueOf"; "__proto__"; "__defineGetter__";
    "__defineSetter__"; "__lookupGetter__"; "__lookupSetter__" ].

Definition inRouteTypes (key : string) : bool :=
  has [ "body"; "params"; "query"; "response" ] key || has OBJECT_PROTOTYPE_KEYS key.

(** [routeTypes[key] = value]; a key other than the four read later
    leaves them as they are. *)
Definition setRouteType (routeTypes : RouteTypes) (key value : string) : RouteTypes :=
  if String.eqb key "body" then
    mkRouteTypes value (params routeTypes) (query routeTypes) (response routeTypes)
  else if String.eqb key "params" then
    mkRouteTypes (body routeTypes) value (query routeTypes) (response routeTypes)
  else if String.eqb key "query" then
    mkRouteTypes (body routeTypes) (params routeTypes) value (response routeTypes)
  else if String.eqb key "response" then
    mkRouteTypes (body routeTypes) (params routeTypes) (query routeTypes) value
  else routeTypes.

(** The repair of an unresolved [_ResolvePath<...>] params type. *)
Definition repairParams (paramsType : string) : string :=
  if Js.startsWith paramsType "_ResolvePath<" then
    match Re.exec RESOLVE_PATH_RE paramsType with
    | Some match_ => parseParamsFromPath (group 1 match_)
    | None => paramsType
    end
  else paramsType.

Section Walker.

Variable graph : TypeGraph.
Variables sdkImport sdkClientName : string.
Variable sdkClientOptions : option string.

(** The [for (const methodProp of propType.getProperties())] loop. *)
Fixpoint collectRouteTypes (routeTypes : RouteTypes) (methodProps : list Symbol)
  : outcome RouteTypes :=
  match methodProps with
  | [] => Ret routeTypes
  | methodProp :: rest =>
      let key := getName methodProp in
      if inRouteTypes key then
        text <- resolveTypeText graph (getTypeAtLocation methodProp) 0 ;;
        collectRouteTypes (setRouteType routeTypes key text) rest
      else collectRouteTypes routeTypes rest
  end.

(** The route types of a method node as they are when the endpoint is
    emitted. *)
Definition methodRouteTypes (propType : TsType) : outcome RouteTypes :=
  routeTypes <- collectRouteTypes defaultRouteTypes (getProperties (graph propType)) ;;
  Ret (mkRouteTypes (body routeTypes) (repairParams (params routeTypes))
         (query routeTypes) (response routeTypes)).

(** The strings pushed for one endpoint. *)
Definition emitEndpoint (path propName : string) (routeTypes : RouteTypes)
  : outcome (list string) :=
  let hasBody := negb (String.eqb (body routeTypes) "unknown") in
  let hasParams := negb (String.eqb (params routeTypes) "{}") in
  let hasQuery := negb (String.eqb (query routeTypes) "unknown") in
  let sdk :=
    generateSdkCodeBlock path propName hasBody hasParams hasQuery
      (params routeTypes) sdkImport sdkClientName sdkClientOptions in
  bodyBlock <- (if hasBody then formatTypeBlock "Body" (body routeTypes) else Ret "") ;;
  paramsBlock <-
    (if hasParams then formatTypeBlock "Params" (params routeTypes) else Ret "") ;;
  queryBlock <- (if hasQuery then formatTypeBlock "Query" (query routeTypes) else Ret "") ;;
  responseBlock <- formatTypeBlock "Response" (response routeTypes) ;;
  Ret [ "### " ++ Js.toUpperCase propName ++ " " ++ path ++ nl ++ nl ++ "<details>" ++ nl
        ++ "<summary>SDK Usage</summary>" ++ nl ++ nl;
        sdk; bodyBlock; paramsBlock; queryBlock; responseBlock;
        "</details>" ++ nl ++ nl;
        "---" ++ nl ++ nl ].

(** One iteration of the loop over [type.getProperties()]: the strings
    it pushes onto [parts]. *)
Definition walkProperty (self : TsType -> string -> outcome string)
  (path : string) (prop : Symbol) : outcome (list string) :=
  let propName := getName prop in
  let propType := getTypeAtLocation prop in
  if has HTTP_METHODS propName then
    if String.eqb path "" then Ret []
    else
      routeTypes <- methodRouteTypes propType ;;
      emitEndpoint path propName routeTypes
  else if String.eqb propName "~Routes" then
    docs <- self propType "" ;;
    Ret [docs]
  else if negb (has INTERNAL_PROPS propName)
          && negb (Js.startsWith propName "~")
          && negb (Js.startsWith propName "_") then
    let separator :=
      if Js.startsWith propName ":" && String.eqb path "" then "" else "/" in
    docs <- self propType (path ++ separator ++ propName) ;;
    Ret [docs]
  else Ret [].

Definition generateDocsFromType_body (self : TsType -> string -> outcome string)
  (type : TsType) (path : string) : outcome string :=
  parts <- mapM (walkProperty self path) (getProperties (graph type)) ;;
  Ret (Js.join (List.concat parts) "").

(** The walker has no depth guard of its own: it returns on route trees
    of finite height and [fuel] bounds that height. *)
Fixpoint generateDocsFromType (fuel : nat) (type : TsType) (path : string)
  : outcome string :=
  match fuel with
  | O => Diverge
  | S fuel' => generateDocsFromType_body (generateDocsFromType fuel') type path
  end.

End Walker.

(** * Notions of the specification *)

(** ** Dispatch *)

(** [T] is not one of the well-known generics: it has no symbol, or the
    name of its symbol (of its alias symbol when it has no symbol of its
    own) is not in [KNOWN_GENERICS]. *)
Definition notKnownGeneric (T : TypeInfo) : Prop :=
  match orElse (getSymbol T) (getAliasSymbol T) with
  | Some name => has KNOWN_GENERICS name = false
  | None => True
  end.

(** No dispatch rule of [resolveTypeText] applies to [T]. *)
Definition noRuleApplies (T : TypeInfo) : Prop :=
  isArray T = false /\ isTuple T = false /\ isUnion T = false
  /\ isIntersection T = false /\ notKnownGeneric T /\ isObject T = false.

(** ** Union canonicalisation *)

(** The canonical form of a union in the words of the specification. *)
Module UnionSpec.

(** Deduplicate by exact string equality: the first occurrence stays. *)
Fixpoint dedup (parts : list string) : list string :=
  match parts with
  | [] => []
  | p :: rest => p :: filter (fun q => negb (String.eqb q p)) (dedup rest)
  end.

Definition isLiteral (p : string) : bool := String.eqb p "true" || String.eqb p "false".

(** If both literals are present, remove them and add one [boolean]. *)
Definition substituteBoolean (parts : list string) : list string :=
  if List.existsb (String.eqb "true") parts && List.existsb (String.eqb "false") parts
  then filter (fun p => negb (isLiteral p)) parts ++ ["boolean"]
  else parts.

Definition isAbsence (p : string) : bool :=
  String.eqb p "null" || String.eqb p "undefined".

(** Absence markers behind all other members, relative order kept. *)
Definition absenceLast (parts : list string) : list string :=
  filter (fun p => negb (isAbsence p)) parts ++ filter isAbsence parts.

Definition canonical (parts : list string) : string :=
  String.concat " | " (absenceLast (substituteBoolean (dedup parts))).

End UnionSpec.

(** ** Array collapse *)

(** The reference set of array-prototype member names, as the
    specification lists it. *)
Definition REFERENCE_NAMES : list string :=
  [ "length"; "push"; "pop"; "slice"; "map"; "filter"; "reduce"; "forEach";
    "indexOf"; "sort"; "splice"; "reverse"; "shift"; "join"; "concat"; "find" ].

(** ** Intersection flattening *)

Module IntersectionSpec.

(** An anonymous object-like type: an object that is not an array, has
    no call signature and is not named after a well-known container. *)
Definition AnonymousObject (m : TypeInfo) : Prop :=
  isObject m = true /\ isArray m = false /\ getCallSignatures m = 0
  /\ ~ In (nameOrEmpty (getSymbol m)) KNOWN_GENERICS
  /\ ~ In (nameOrEmpty (getAliasSymbol m)) KNOWN_GENERICS.

Definition symbolLike (prop : Symbol) : bool := Js.startsWith (getName prop) "__@".

Definition entryKey (prop : Symbol) : string :=
  if VALID_IDENT_test (getName prop) then getName prop
  else JSON_stringify (getName prop).

(** The entries of the object literal over [properties]: symbol-like
    members are left out, every other property gives [key: type] with
    its type normalized one level deeper, [?] marking an optional one. *)
Inductive ObjectEntries (graph : TypeGraph) (depth : nat)
  : list Symbol -> list string -> Prop :=
| entries_nil : ObjectEntries graph depth [] []
| entries_skip prop rest entries :
    symbolLike prop = true ->
    ObjectEntries graph depth rest entries ->
    ObjectEntries graph depth (prop :: rest) entries
| entries_cons prop rest entries resolved :
    symbolLike prop = false ->
    resolveTypeText graph (getTypeAtLocation prop) (depth + 1) = Ret resolved ->
    ObjectEntries graph depth rest entries ->
    ObjectEntries graph depth (prop :: rest)
      ((entryKey prop ++ (if isOptional prop then "?" else "") ++ ": " ++ resolved)
         :: entries).

Definition mergedLiteral (entries : list string) : string :=
  "{ " ++ String.concat "; " entries ++ " }".

(** Members normalized one by one: empty object literals dropped, the
    rest deduplicated and joined, a single survivor unwrapped. *)
Definition memberwise (parts : list string) : string :=
  match UnionSpec.dedup (filter (fun p => negb (String.eqb p "{}")) parts) with
  | [] => "{}"
  | [only] => only
  | survivors => String.concat " & " survivors
  end.

(** The condition of the specification for the merged literal. *)
Definition Mergeable (graph : TypeGraph) (T : TypeInfo) : Prop :=
  Forall (fun m => AnonymousObject (graph m)) (getIntersectionTypes T)
  /\ Exists (fun m => getProperties (graph m) <> []) (getIntersectionTypes T).

(** What the code asks for on top of it. *)
Definition Flattened (graph : TypeGraph) (T : TypeInfo) : Prop :=
  Mergeable graph T
  /\ 1 < List.length (getIntersectionTypes T)
  /\ Exists (fun prop => symbolLike prop = false) (getProperties T).

End IntersectionSpec.

(** ** Path parameters *)

Module PathSpec.

(** The segments of a path: the pieces between its slashes. *)
Definition segments (path : string) : list string := Js.split "/" path.

(** The name of a colon-prefixed segment. *)
Definition colonName (segment : string) : option string :=
  match segment with
  | String c name => if Ascii.eqb c ":" then Some name else None
  | "" => None
  end.

(** The names of all colon-prefixed segments, in path order. *)
Definition colonNames (path : string) : list string :=
  flat_map (fun segment => match colonName segment with
                           | Some name => [name]
                           | None => []
                           end)
    (segments path).

(** The non-empty names of the colon-prefixed segments that stand behind
    a slash, in path order. *)
Definition slashColonNames (path : string) : list string :=
  flat_map (fun segment => match colonName segment with
                           | Some (String c name) => [String c name]
                           | _ => []
                           end)
    (tl (segments path)).

(** The object literal that maps every name to [string]. *)
Definition paramsLiteral (names : list string) : string :=
  match names with
  | [] => "{}"
  | _ => "{" ++ String.concat ", " (map (fun name => name ++ ": string") names) ++ "}"
  end.

End PathSpec.

(** ** Presence of body, params and query *)

(** The entry of [routeTypes] under one of its four keys. *)
Definition routeType (routeTypes : RouteTypes) (key : string) : string :=
  if String.eqb key "body" then body routeTypes
  else if String.eqb key "params" then params routeTypes
  else if String.eqb key "query" then query routeTypes
  else response routeTypes.

(** The default that stands for an absent field. *)
Definition sentinel (key : string) : string := routeType defaultRouteTypes key.

Definition optionalKeys : list string := [ "body"; "params"; "query" ].

(** The arguments of the call in the usage snippet: one for each of body
    and query that is present. *)
Definition callArguments (withBody withQuery : bool) : string :=
  match withBody, withQuery with
  | true, true => "body, { query }"
  | true, false => "body"
  | false, true => "{ query }"
  | false, false => ""
  end.

(** The lines of the usage snippet: a declaration for each of params,
    body and query that is present, none for one that is absent. *)
Definition snippetLines (path method : string) (withBody withParams withQuery : bool)
  (paramsType sdkImport sdkClientName : string) (sdkClientOptions : option string)
  : list string :=
  List.concat
    [ [ "```typescript";
        sdkImport ++ nl;
        "const client = " ++ sdkClientName ++ "("
        ++ match sdkClientOptions with Some o => o | None => "" end ++ ");" ++ nl ];
      if withParams
      then ["const params = " ++ exampleParams paramsType ++ ";" ++ nl]
      else [];
      if withBody
      then ["// Define your request body" ++ nl
            ++ "const body = {}; // Replace with actual body data" ++ nl]
      else [];
      if withQuery
      then ["// Define your query parameters" ++ nl
            ++ "const query = {}; // Replace with actual query data" ++ nl]
      else [];
      [ "const response = await " ++ buildClientPath path ++ "." ++ method ++ "("
        ++ callArguments withBody withQuery ++ ");";
        "```" ++ nl ] ].

(** The four keys of [routeTypes]. *)
Definition routeKeys : list string := [ "body"; "params"; "query"; "response" ].

(** What stands in an emitted endpoint for the field under [key]: the
    empty string when the field equals its default, its labeled type
    block otherwise. *)
Definition slotOf (label key : string) (routeTypes : RouteTypes) (block : string)
  : Prop :=
  if String.eqb (routeType routeTypes key) (sentinel key) then block = ""
  else formatTypeBlock label (routeType routeTypes key) = Ret block.

(** Whether the field under [key] differs from its default. *)
Definition present (routeTypes : RouteTypes) (key : string) : bool :=
  negb (String.eqb (routeType routeTypes key) (sentinel key)).

(** The heading of an endpoint. *)
Definition endpointHeading (path method : string) : string :=
  "### " ++ Js.toUpperCase method ++ " " ++ path ++ nl ++ nl ++ "<details>" ++ nl
  ++ "<summary>SDK Usage</summary>" ++ nl ++ nl.

(** ** Plain text *)

Definition isStructural (c : ascii) : bool :=
  Ascii.eqb c "{" || Ascii.eqb c "[" || Ascii.eqb c "}" || Ascii.eqb c "]"
  || Ascii.eqb c ";" || Ascii.eqb c ",".

(** No character of [s] is a bracket, a brace, a semicolon or a comma. *)
Definition plain (s : string) : bool := Js.forallb (fun c => negb (isStructural c)) s.

(** What the loop of [prettyPrintType] appends on plain text, from the
    string state [inS], the escape state [esc] and [lastSp], which tells
    whether the last chunk is a single space. *)
Fixpoint squeeze (inS esc lastSp : bool) (s : string) : string :=
  match s with
  | "" => ""
  | String c rest =>
      if esc then String c (squeeze inS false (Ascii.eqb c " ") rest)
      else if Ascii.eqb c "\" then String c (squeeze inS true false rest)
      else if Ascii.eqb c dquote || Ascii.eqb c "'" then
        String c (squeeze (negb inS) false false rest)
      else if inS then String c (squeeze inS false (Ascii.eqb c " ") rest)
      else if negb (Ascii.eqb c " ") || negb lastSp then
        String c (squeeze false false (Ascii.eqb c " ") rest)
      else squeeze false false lastSp rest
  end.

(** ** Walking the route tree *)

(** The walker steps over a property of this name at this path: an HTTP
    method at the empty path, or an internal or reserved name. *)
Definition steppedOver (path name : string) : bool :=
  if has HTTP_METHODS name then String.eqb path ""
  else negb (String.eqb name "~Routes")
       && (has INTERNAL_PROPS name || Js.startsWith name "~" || Js.startsWith name "_").

(** The path under which the walker goes on below a property. *)
Definition nextPath (path name : string) : string :=
  if String.eqb name "~Routes" then ""
  else path ++ (if Js.startsWith name ":" && String.eqb path "" then "" else "/")
            ++ name.

(** The walker calls itself on the type of a property of this name. *)
Definition descends (name : string) : bool :=
  negb (has HTTP_METHODS name)
  && (String.eqb name "~Routes"
      || (negb (has INTERNAL_PROPS name)
          && negb (Js.startsWith name "~") && negb (Js.startsWith name "_"))).

(** A route tree of finite height: the walk from [type] makes at most
    [n] nested calls, the one on [type] included. *)
Inductive Height (graph : TypeGraph) : TsType -> nat -> Prop :=
| height_node type n :
    (forall prop,
        In prop (getProperties (graph type)) ->
        descends (getName prop) = true ->
        Height graph (getTypeAtLocation prop) n) ->
    Height graph type (S n).

(** The four keys that a method node is read under. *)
Definition isRouteKey (name : string) : bool :=
  has [ "body"; "params"; "query"; "response" ] name.

(** ** Dispatch of the normalizer *)

(** The type arguments of a named type: its own, or those of its alias
    when it has none. *)
Definition typeArgumentsOf (T : TypeInfo) : list TsType :=
  match getTypeArguments T with
  | [] => getAliasTypeArguments T
  | args => args
  end.

(** The text of an array whose element normalizes to [inner]. *)
Definition arrayText (elementIsCompound : bool) (inner : string) : string :=
  if elementIsCompound then "Array<" ++ inner ++ ">" else inner ++ "[]".

(** The text of a named type applied to normalized arguments. *)
Definition genericText (name : string) (args : list string) : string :=
  match args with
  | [] => name
  | _ => name ++ "<" ++ String.concat ", " args ++ ">"
  end.

(** The direct fingerprint check does not apply to [T]. *)
Definition notCollapsed (T : TypeInfo) : Prop :=
  getNumberIndexType T = None
  \/ 4 * fingerprintMatches (getProperties T) < 3 * List.length ARRAY_FINGERPRINT.

(** The raw text of [T] shows an expansion artifact. *)
Definition hasArtifacts (T : TypeInfo) : Prop :=
  EXPANDED_ARRAY_RE_test (getText T) = true \/ DUPLICATE_UNION_RE_test (getText T) = true.

(** [T] has a property that is not symbol-like, and no call signature. *)
Definition hasPlainProperties (T : TypeInfo) : Prop :=
  getCallSignatures T = 0
  /\ Exists (fun prop => IntersectionSpec.symbolLike prop = false) (getProperties T).

(** ** Paths built segment by segment *)

Definition slashFree (segment : string) : bool := Js.forallb (notChar "/") segment.

(** The path that puts every segment behind a slash. *)
Fixpoint pathOf (segments : list string) : string :=
  match segments with
  | [] => ""
  | segment :: rest => "/" ++ segment ++ pathOf rest
  end.

(** The non-empty name of a colon-prefixed segment. *)
Definition paramNameOf (segment : string) : list string :=
  match PathSpec.colonName segment with
  | Some (String c name) => [String c name]
  | _ => []
  end.

(** How the client expression reaches one segment. *)
Definition accessor (segment : string) : string :=
  if Js.startsWith segment ":" then "[params." ++ Js.slice1 segment ++ "]"
  else if VALID_IDENT_test segment then "." ++ segment
  else "[" ++ DQ ++ segment ++ DQ ++ "]".

Definition nonEmpty (segment : string) : bool := negb (String.eqb segment "").

(** ** What the pretty-printer keeps and when it throws *)

(** A string without its white space. *)
Fixpoint stripWhiteSpace (s : string) : string :=
  match s with
  | "" => ""
  | String c rest =>
      if Js.isWhiteSpace c then stripWhiteSpace rest
      else String c (stripWhiteSpace rest)
  end.

(** [s] without its first [n] characters. *)
Fixpoint dropChars (n : nat) (s : string) : string :=
  match n, s with
  | S n', String _ rest => dropChars n' rest
  | _, _ => s
  end.

(** Reading left to right, outside quotes and not behind a backslash,
    some closing brace or bracket has no opening one left to close;
    [opened] counts the ones that are open. *)
Fixpoint unmatchedCloser (opened : nat) (inS esc : bool) (s : string) : bool :=
  match s with
  | "" => false
  | String c rest =>
      if esc then unmatchedCloser opened inS false rest
      else if Ascii.eqb c "\" then unmatchedCloser opened inS true rest
      else if Ascii.eqb c dquote || Ascii.eqb c "'" then
        unmatchedCloser opened (negb inS) false rest
      else if inS then unmatchedCloser opened inS false rest
      else if Ascii.eqb c "{" || Ascii.eqb c "[" then
        unmatchedCloser (S opened) inS false rest
      else if Ascii.eqb c "}" || Ascii.eqb c "]" then
        match opened with
        | O => true
        | S fewer => unmatchedCloser fewer inS false rest
        end
      else unmatchedCloser opened inS false rest
  end.

Definition unbalanced (typeStr : string) : bool := unmatchedCloser 0 false false typeStr.

(** ** The example value of the usage snippet *)

(** A character that none of the three substitutions of the example
    value looks at. *)
Definition plainParamChar (c : ascii) : bool :=
  notChar ";" c && notChar "," c && notChar ":" c && notChar "}" c.

(** The object literal that maps every name to the example value. *)
Definition exampleLiteral (names : list string) : string :=
  match names with
  | [] => "{}"
  | _ =>
      "{" ++ String.concat ", "
               (map (fun name => name ++ ": " ++ DQ ++ "example-value" ++ DQ) names)
      ++ "}"
  end.

(** A pattern that can only match where the text has [x]. *)
Definition headOnly (m : Re.matcher) (x : ascii) : Prop :=
  forall c s, Ascii.eqb c x = false -> m (String c s) = None.

(** ** Concrete type graphs *)

Module Examples.

Definition primitive (text : string) : TypeInfo :=
  mkTypeInfo text false None false [] false [] false [] false 0 None None [] [] None [].

Definition object (text : string) (properties : list Symbol) : TypeInfo :=
  mkTypeInfo text false None false [] false [] false [] true 0 None None [] [] None
    properties.

Definition union (text : string) (members : list TsType) : TypeInfo :=
  mkTypeInfo text false None false [] true members false [] false 0 None None [] []
    None [].

Definition intersection (text : string) (members : list TsType)
  (properties : list Symbol) : TypeInfo :=
  mkTypeInfo text false None false [] false [] true members false 0 None None [] []
    None properties.

Definition indexed (text : string) (element : TsType) (properties : list Symbol)
  : TypeInfo :=
  mkTypeInfo text false None false [] false [] false [] true 0 None None [] []
    (Some element) properties.

Definition member (name : string) (type : TsType) : Symbol := mkSymbol name false type.

(** The graph whose handle [n] is the [n]-th entry of [types]. *)
Definition graphOf (types : list TypeInfo) : TypeGraph :=
  fun t => nth t types (primitive "never").

(** [type Node = { next: Node | null | null }]: every handle is the same
    self-referential object, whose raw text repeats a nullable member. *)
Definition cyclic : TypeGraph :=
  fun _ => object "{ next: Node | null | null }" [member "next" 0].

(** [undefined | string | null] with its members in that order. *)
Definition nullableUnion : TypeGraph :=
  graphOf [ union "undefined | string | null" [1; 2; 3];
            primitive "undefined"; primitive "string"; primitive "null" ].

(** An array of strings as the type checker expands it: a numeric index
    signature and twelve of the array-prototype members. *)
Definition expandedArrayNames : list string :=
  [ "length"; "push"; "pop"; "concat"; "join"; "reverse"; "shift"; "slice";
    "sort"; "splice"; "indexOf"; "forEach" ].

Definition expandedArray : TypeGraph :=
  graphOf [ indexed "{ [n: number]: string; length: number; pop: () => string }" 1
              (map (fun name => member name 1) expandedArrayNames);
            primitive "string" ].

Definition function_ (text : string) : TypeInfo :=
  mkTypeInfo text false None false [] false [] false [] true 1 None None [] [] None [].

(** [{ a: string } & { b: number }]. *)
Definition twoRecords : TypeGraph :=
  graphOf [ intersection "{ a: string; } & { b: number; }" [1; 2]
              [member "a" 3; member "b" 4];
            object "{ a: string; }" [member "a" 3];
            object "{ b: number; }" [member "b" 4];
            primitive "string"; primitive "number" ].

(** [{ [Symbol.iterator]: () => void } & { [Symbol.asyncIterator]: () => void }]:
    the type checker names such properties [__@iterator@34] and the like. *)
Definition symbolKeyed : TypeGraph :=
  graphOf [ intersection
              "{ [Symbol.iterator]: () => void; } & { [Symbol.asyncIterator]: () => void; }"
              [1; 2]
              [member "__@iterator@34" 3; member "__@asyncIterator@36" 3];
            object "{ [Symbol.iterator]: () => void; }" [member "__@iterator@34" 3];
            object "{ [Symbol.asyncIterator]: () => void; }"
              [member "__@asyncIterator@36" 3];
            function_ "() => void" ].

(** A sub-router mounted through the [~Routes] marker: handle 0 holds
    the marker, the routes behind it are [users.get]. *)
Definition mounted : TypeGraph :=
  graphOf [ object "{ '~Routes': { users: { get: { response: string; }; }; }; }"
              [member "~Routes" 1];
            object "{ users: { get: { response: string; }; }; }" [member "users" 2];
            object "{ get: { response: string; }; }" [member "get" 3];
            object "{ response: string; }" [member "response" 4];
            primitive "string" ].

(** A method node whose params are the unresolved helper type over the
    path literal of the route, [/users/:id]. *)
Definition unresolvedParams : TypeGraph :=
  graphOf [ object "{ params: ...; response: string; }"
              [member "params" 1; member "response" 2];
            primitive ("_ResolvePath<" ++ DQ ++ "/users/:id" ++ DQ ++ ">");
            primitive "string" ].

(** Two method nodes: handle 0 declares a body of type [unknown],
    handle 1 declares no body. *)
Definition unknownBody : TypeGraph :=
  graphOf [ object "{ body: unknown; response: string; }"
              [member "body" 2; member "response" 3];
            object "{ response: string; }" [member "response" 3];
            primitive "unknown"; primitive "string" ].

(** The import line that [generateDocs] falls back to. *)
Definition defaultImport : string :=
  "import { treaty } from " ++ DQ ++ "elysia" ++ DQ ++ ";".

(** A root with a method and framework properties beside its one route,
    and the same root without them. *)
Definition cluttered : TypeGraph :=
  graphOf [ object "App"
              [ member "get" 3; member "decorator" 4; member "users" 2;
                member "~Prefix" 4; member "_internal" 4 ];
            object "App" [member "users" 2];
            object "{ get: { response: string; }; }" [member "get" 3];
            object "{ response: string; headers: unknown; toString: string; }"
              [member "response" 4; member "headers" 4; member "toString" 4];
            primitive "string";
            object "{ response: string; }" [member "response" 4] ].

(** A root with two routes, and two roots with one of them each. *)
Definition twoRoutes : TypeGraph :=
  graphOf [ object "{ users: ...; posts: ...; }" [member "users" 3; member "posts" 4];
            object "{ users: ...; }" [member "users" 3];
            object "{ posts: ...; }" [member "posts" 4];
            object "{ get: { response: string; }; }" [member "get" 5];
            object "{ post: { response: string; }; }" [member "post" 5];
            object "{ response: string; }" [member "response" 6];
            primitive "string" ].

Definition array (text : string) (element : option TsType) : TypeInfo :=
  mkTypeInfo text true element false [] false [] false [] true 0 (Some "Array") None
    (match element with Some e => [e] | None => [] end) [] element [].

Definition tuple (text : string) (elements : list TsType) : TypeInfo :=
  mkTypeInfo text false None true elements false [] false [] true 0 None None
    elements [] None [].

Definition named (text name : string) (arguments : list TsType) : TypeInfo :=
  mkTypeInfo text false None false [] false [] false [] true 0 (Some name) None
    arguments [] None [].

(** [(string | null)[]], [[string, number]], [Promise<string[]>] and an
    expanded object [{ pop: string; tags: string[] }]. *)
Definition containers : TypeGraph :=
  graphOf [ array "(string | null)[]" (Some 1);
            union "string | null" [2; 3];
            primitive "string";
            primitive "null";
            tuple "[string, number]" [2; 5];
            primitive "number";
            named "Promise<string[]>" "Promise" [7];
            array "string[]" (Some 2);
            object "{ pop: string; tags: { [n: number]: string; length: number; } }"
              [member "pop" 2; mkSymbol "tags" true 7; member "__@iterator@34" 2];
            function_ "{ (): void; pop: string }" ].

(** [true | false | string] and the same union with [string] repeated,
    as intersection resolution leaves it. *)
Definition repeatedMember : TypeGraph :=
  graphOf [ union "boolean | string | string" [2; 3; 4; 4];
            union "boolean | string" [2; 3; 4];
            primitive "true"; primitive "false"; primitive "string" ].


(** A union that holds [boolean] beside both of its literals. *)
Definition booleanTwice : TypeGraph :=
  graphOf [ union "boolean | true | false" [1; 2; 3];
            primitive "boolean"; primitive "true"; primitive "false" ].

End Examples.

(** * Properties *)

(** Membership in a list given by its elements. *)
Ltac in_list := simpl; repeat (try (left; reflexivity); right).

(** ** The recursion of [resolveTypeText] *)

Lemma mapM_ext {A B : Type} (f g : A -> outcome B) (l : list A) :
  (forall a, In a l -> f a = g a) -> mapM f l = mapM g l.
Proof.
  induction l as [|a l IH]; intros H; simpl.
  - reflexivity.
  - rewrite (H a (or_introl eq_refl)), IH; [reflexivity|].
    intros b Hb. apply H. now right.
Qed.

Lemma mapM_total {A B : Type} (f : A -> outcome B) (l : list A) :
  (forall a, exists b, f a = Ret b) ->
  exists bs, mapM f l = Ret bs /\ Forall2 (fun a b => f a = Ret b) l bs.
Proof.
  intros H. induction l as [|a l [bs [IH1 IH2]]]; simpl.
  - exists []. split; [reflexivity | constructor].
  - destruct (H a) as [b Hb]. exists (b :: bs). rewrite Hb, IH1. simpl.
    split; [reflexivity | now constructor].
Qed.

Section NormalizerFacts.

Variable graph : TypeGraph.

Lemma propertyEntries_ext self1 self2 properties depth :
  (forall t, self1 t (depth + 1) = self2 t (depth + 1)) ->
  propertyEntries self1 properties depth = propertyEntries self2 properties depth.
Proof.
  intros H. induction properties as [|prop rest IH]; simpl.
  - reflexivity.
  - destruct (Js.startsWith (getName prop) "__@"); [exact IH|].
    now rewrite H, IH.
Qed.

Lemma propertyEntries_total self properties depth :
  (forall t, exists s, self t (depth + 1) = Ret s) ->
  exists entries, propertyEntries self properties depth = Ret entries.
Proof.
  intros H. induction properties as [|prop rest [entries IH]]; simpl.
  - now exists [].
  - destruct (Js.startsWith (getName prop) "__@"); [now exists entries|].
    destruct (H (getTypeAtLocation prop)) as [s Hs]. rewrite Hs, IH. simpl.
    eexists. reflexivity.
Qed.

(** The body calls [self] one level deeper and nowhere else. *)
Lemma resolveTypeText_body_ext self1 self2 type depth :
  (forall t, self1 t (depth + 1) = self2 t (depth + 1)) ->
  resolveTypeText_body graph self1 type depth
  = resolveTypeText_body graph self2 type depth.
Proof.
  intros H.
  unfold resolveTypeText_body, resolveArray, resolveTuple, resolveUnion,
    resolveIntersection, resolveKnownGeneric, resolveObject, collapseExpandedArray.
  rewrite !(mapM_ext (fun t => self1 t (depth + 1)) (fun t => self2 t (depth + 1)))
    by (intros; apply H).
  rewrite !(propertyEntries_ext self1 self2) by exact H.
  destruct (getArrayElementType (graph type)) as [e|];
    destruct (getNumberIndexType (graph type)) as [n|];
    rewrite ?H; reflexivity.
Qed.

(** Behind the guard nothing is called. *)
Lemma resolveTypeText_body_guard self type depth :
  MAX_RESOLVE_DEPTH < depth ->
  resolveTypeText_body graph self type depth = Ret (getText (graph type)).
Proof.
  intros H. unfold resolveTypeText_body.
  apply Nat.ltb_lt in H. now rewrite H.
Qed.

Section Total.

Variable self : TsType -> nat -> outcome string.
Variable depth : nat.
Hypothesis self_total : forall t, exists s, self t (depth + 1) = Ret s.

Lemma recur_total (l : list TsType) :
  exists bs, mapM (fun t => self t (depth + 1)) l = Ret bs.
Proof.
  destruct (mapM_total (fun t => self t (depth + 1)) l self_total) as [bs [Hb _]].
  now exists bs.
Qed.

Lemma resolveArray_total T : exists s, resolveArray graph self T depth = Ret s.
Proof.
  unfold resolveArray.
  destruct (getArrayElementType T) as [e|]; [|eexists; reflexivity].
  destruct (self_total e) as [s ->]. simpl.
  destruct (isUnion (graph e) || isIntersection (graph e)); eexists; reflexivity.
Qed.

Lemma resolveTuple_total T : exists s, resolveTuple self T depth = Ret s.
Proof.
  unfold resolveTuple.
  destruct (recur_total (getTupleElements T)) as [bs ->]. eexists; reflexivity.
Qed.

Lemma resolveUnion_total T : exists s, resolveUnion self T depth = Ret s.
Proof.
  unfold resolveUnion.
  destruct (recur_total (getUnionTypes T)) as [bs ->]. eexists; reflexivity.
Qed.

Lemma resolveIntersection_total T :
  exists s, resolveIntersection graph self T depth = Ret s.
Proof.
  unfold resolveIntersection.
  destruct (recur_total (getIntersectionTypes T)) as [bs Hbs].
  destruct (propertyEntries_total self (getProperties T) depth self_total) as [es Hes].
  assert (Hfall : exists s,
    (parts <- mapM (fun t => self t (depth + 1)) (getIntersectionTypes T) ;;
     match Js.unique (filter (fun p => negb (String.eqb p "{}")) parts) with
     | [] => Ret "{}"
     | [only] => Ret only
     | unique => Ret (Js.join unique " & ")
     end) = Ret s).
  { rewrite Hbs. simpl. destruct (Js.unique _) as [|? [|? ?]]; eexists; reflexivity. }
  destruct (allAnonymousObjects _ _ && _); simpl; [|exact Hfall].
  rewrite Hes. simpl. destruct (objectLiteral es); [eexists; reflexivity | exact Hfall].
Qed.

Lemma resolveKnownGeneric_total T :
  exists o, resolveKnownGeneric self T depth = Ret o.
Proof.
  unfold resolveKnownGeneric.
  destruct (orElse _ _) as [name|]; [|eexists; reflexivity].
  destruct (has KNOWN_GENERICS name); [|eexists; reflexivity].
  destruct (0 <? _); [|eexists; reflexivity].
  match goal with |- context [mapM _ ?l] => destruct (recur_total l) as [bs ->] end.
  eexists; reflexivity.
Qed.

Lemma resolveObject_total T : exists s, resolveObject self T depth = Ret s.
Proof.
  unfold resolveObject, collapseExpandedArray.
  assert (Htext : exists s,
    (if negb (EXPANDED_ARRAY_RE_test (getText T))
        && negb (DUPLICATE_UNION_RE_test (getText T))
     then Ret (getText T)
     else
       literal <-
         (if (0 <? List.length (getProperties T)) && (getCallSignatures T =? 0) then
            entries <- propertyEntries self (getProperties T) depth ;;
            Ret (objectLiteral entries)
          else Ret None) ;;
       match literal with
       | Some object => Ret object
       | None => Ret (getText T)
       end) = Ret s).
  { destruct (negb _ && negb _); [eexists; reflexivity|].
    destruct (propertyEntries_total self (getProperties T) depth self_total)
      as [es Hes].
    destruct ((0 <? _) && _); simpl; [|eexists; reflexivity].
    rewrite Hes. simpl. destruct (objectLiteral es); eexists; reflexivity. }
  destruct (getNumberIndexType T) as [n|]; simpl; [|exact Htext].
  destruct (fingerprintReached _); simpl; [|exact Htext].
  destruct (self_total n) as [s ->]. simpl. eexists; reflexivity.
Qed.

Lemma resolveTypeText_body_total type :
  exists s, resolveTypeText_body graph self type depth = Ret s.
Proof.
  unfold resolveTypeText_body.
  destruct (MAX_RESOLVE_DEPTH <? depth); [eexists; reflexivity|].
  destruct (isArray _); [apply resolveArray_total|].
  destruct (isTuple _); [apply resolveTuple_total|].
  destruct (isUnion _); [apply resolveUnion_total|].
  destruct (isIntersection _); [apply resolveIntersection_total|].
  destruct (resolveKnownGeneric_total (graph type)) as [[text|] ->]; simpl.
  - eexists; reflexivity.
  - destruct (isObject _); [apply resolveObject_total | eexists; reflexivity].
Qed.

End Total.

(** With enough fuel for the levels down to the guard, the call returns
    and further fuel does not change what it returns. *)
Lemma resolveTypeText_fuel_enough fuel type depth :
  S (S MAX_RESOLVE_DEPTH - depth) <= fuel ->
  resolveTypeText_fuel graph fuel type depth = resolveTypeText graph type depth.
Proof.
  unfold resolveTypeText, MAX_RESOLVE_DEPTH.
  remember (11 - depth) as k eqn:Hk.
  revert fuel type depth Hk.
  induction k as [|k IH]; intros fuel type depth Hk Hfuel.
  - destruct fuel as [|fuel]; [lia|]. simpl.
    rewrite !resolveTypeText_body_guard by (unfold MAX_RESOLVE_DEPTH; lia).
    reflexivity.
  - destruct fuel as [|fuel]; [lia|]. simpl.
    apply resolveTypeText_body_ext. intros t.
    now rewrite (IH fuel t (depth + 1)) by lia.
Qed.

(** The defining equation of [resolveTypeText]. *)
Lemma resolveTypeText_eq type depth :
  resolveTypeText graph type depth
  = resolveTypeText_body graph (resolveTypeText graph) type depth.
Proof.
  destruct (Nat.lt_ge_cases MAX_RESOLVE_DEPTH depth) as [Hd|Hd].
  - rewrite resolveTypeText_body_guard by exact Hd.
    unfold resolveTypeText. simpl. now apply resolveTypeText_body_guard.
  - unfold resolveTypeText at 1. cbn [resolveTypeText_fuel].
    apply resolveTypeText_body_ext. intros t.
    apply resolveTypeText_fuel_enough. unfold MAX_RESOLVE_DEPTH in *. lia.
Qed.

Lemma resolveTypeText_total type depth :
  exists s, resolveTypeText graph type depth = Ret s.
Proof.
  remember (S MAX_RESOLVE_DEPTH - depth) as k eqn:Hk.
  revert type depth Hk.
  induction k as [|k IH]; intros type depth Hk; rewrite resolveTypeText_eq.
  - rewrite resolveTypeText_body_guard by (unfold MAX_RESOLVE_DEPTH in *; lia).
    eexists; reflexivity.
  - apply resolveTypeText_body_total. intros t. apply IH. lia.
Qed.

End NormalizerFacts.

(** ** Depth guard and totality of the normalizer *)

(** C4.  [resolveTypeText] terminates on every type handle of every type
    graph, cyclic ones included: the call at [depth] returns once the
    recursion is unrolled down to the guard, and further unrolling does
    not change the result; the body makes its recursive calls at
    [depth + 1] only; and beyond [MAX_RESOLVE_DEPTH] it returns the raw
    text of the type checker whatever the recursive calls would do. *)
Theorem resolveTypeText_terminates (graph : TypeGraph) (type : TsType) (depth : nat) :
  (exists text,
      forall fuel, S (S MAX_RESOLVE_DEPTH - depth) <= fuel ->
                   resolveTypeText_fuel graph fuel type depth = Ret text)
  /\ (forall self1 self2,
         (forall t, self1 t (depth + 1) = self2 t (depth + 1)) ->
         resolveTypeText_body graph self1 type depth
         = resolveTypeText_body graph self2 type depth)
  /\ (MAX_RESOLVE_DEPTH < depth ->
      forall self,
        resolveTypeText_body graph self type depth = Ret (getText (graph type))).
Proof.
  split; [|split].
  - destruct (resolveTypeText_total graph type depth) as [text Htext].
    exists text. intros fuel Hfuel.
    now rewrite resolveTypeText_fuel_enough.
  - intros self1 self2. apply resolveTypeText_body_ext.
  - intros Hdepth self. now apply resolveTypeText_body_guard.
Qed.

Lemma resolveTypeText_terminates_witness :
  (exists text, resolveTypeText_fuel Examples.cyclic 12 0 0 = Ret text)
  /\ resolveTypeText_body Examples.cyclic (fun _ _ => Diverge) 0 11
     = Ret "{ next: Node | null | null }".
Proof.
  split.
  - destruct (resolveTypeText_terminates Examples.cyclic 0 0) as [[text H] _].
    exists text. apply H. unfold MAX_RESOLVE_DEPTH. lia.
  - destruct (resolveTypeText_terminates Examples.cyclic 0 11) as [_ [_ H]].
    apply H. unfold MAX_RESOLVE_DEPTH. lia.
Defined.

(** C9.  [resolveTypeText] is total: on every type handle and at every
    depth it returns a string, it neither throws nor fails to return,
    and where no dispatch rule applies the string is the raw text of the
    type checker. *)
Theorem resolveTypeText_never_fails (graph : TypeGraph) (type : TsType) (depth : nat) :
  exists text,
    resolveTypeText graph type depth = Ret text
    /\ (noRuleApplies (graph type) -> text = getText (graph type)).
Proof.
  destruct (resolveTypeText_total graph type depth) as [text Htext].
  exists text. split; [exact Htext|].
  intros (Ha & Ht & Hu & Hi & Hg & Ho).
  rewrite resolveTypeText_eq in Htext. unfold resolveTypeText_body in Htext.
  destruct (MAX_RESOLVE_DEPTH <? depth); [congruence|].
  rewrite Ha, Ht, Hu, Hi, Ho in Htext.
  unfold resolveKnownGeneric in Htext. unfold notKnownGeneric in Hg.
  destruct (orElse _ _) as [name|]; [rewrite Hg in Htext|]; simpl in Htext; congruence.
Qed.

Lemma resolveTypeText_never_fails_witness :
  resolveTypeText (Examples.graphOf [Examples.primitive "string"]) 0 0 = Ret "string".
Proof.
  destruct (resolveTypeText_never_fails
              (Examples.graphOf [Examples.primitive "string"]) 0 0)
    as [text [Htext Hraw]].
  rewrite Htext. f_equal. apply Hraw.
  unfold noRuleApplies. simpl. repeat split; reflexivity.
Defined.

(** ** Union canonicalisation *)

Lemma filter_filter_and {A : Type} (f g : A -> bool) (l : list A) :
  filter f (filter g l) = filter (fun a => g a && f a) l.
Proof.
  induction l as [|a l IH]; simpl; [reflexivity|].
  destruct (g a); simpl; [destruct (f a)|]; now rewrite IH.
Qed.

Lemma includes_app seen x y :
  Js.includes (seen ++ [x]) y = Js.includes seen y || String.eqb y x.
Proof.
  unfold Js.includes. rewrite existsb_app. simpl. now rewrite orb_false_r.
Qed.

Lemma uniqueFrom_dedup seen parts :
  Js.uniqueFrom seen parts
  = filter (fun p => negb (Js.includes seen p)) (UnionSpec.dedup parts).
Proof.
  revert seen. induction parts as [|p rest IH]; intros seen; simpl; [reflexivity|].
  rewrite filter_filter_and.
  destruct (Js.includes seen p) eqn:Hp; simpl.
  - rewrite IH. apply filter_ext_in. intros q _.
    destruct (String.eqb_spec q p) as [->|_]; simpl; [now rewrite Hp | reflexivity].
  - f_equal. rewrite IH. apply filter_ext. intros q.
    rewrite includes_app, negb_orb. apply andb_comm.
Qed.

Lemma unique_dedup parts : Js.unique parts = UnionSpec.dedup parts.
Proof.
  unfold Js.unique. rewrite uniqueFrom_dedup. simpl.
  induction (UnionSpec.dedup parts) as [|p l IH]; simpl; [reflexivity | now rewrite IH].
Qed.

Lemma collapseBoolean_spec parts :
  collapseBoolean parts = UnionSpec.substituteBoolean parts.
Proof.
  unfold collapseBoolean, UnionSpec.substituteBoolean, Js.includes.
  rewrite andb_comm.
  destruct (_ && _); [|reflexivity].
  f_equal. apply filter_ext. intros p. unfold UnionSpec.isLiteral.
  rewrite negb_orb. apply andb_comm.
Qed.

Lemma has_nullish p : has nullish p = UnionSpec.isAbsence p.
Proof.
  unfold has, nullish, Js.includes, UnionSpec.isAbsence. simpl.
  rewrite orb_false_r, (String.eqb_sym p "null"), (String.eqb_sym p "undefined").
  reflexivity.
Qed.

Lemma sortInsert_concrete x others :
  UnionSpec.isAbsence x = false ->
  Js.sortInsert nullishCompare x others = x :: others.
Proof.
  intros Hx. destruct others as [|y l]; simpl; [reflexivity|].
  unfold nullishCompare. rewrite !has_nullish, Hx.
  now destruct (UnionSpec.isAbsence y).
Qed.

Lemma sortInsert_absence x concrete absent :
  UnionSpec.isAbsence x = true ->
  List.forallb (fun p => negb (UnionSpec.isAbsence p)) concrete = true ->
  List.forallb UnionSpec.isAbsence absent = true ->
  Js.sortInsert nullishCompare x (concrete ++ absent) = (concrete ++ x :: absent)%list.
Proof.
  intros Hx Hc Ha. induction concrete as [|y l IH]; simpl in *.
  - destruct absent as [|y l]; simpl in *; [reflexivity|].
    apply andb_prop in Ha. destruct Ha as [Hy _].
    unfold nullishCompare. now rewrite !has_nullish, Hx, Hy.
  - apply andb_prop in Hc. destruct Hc as [Hy Hl].
    apply negb_true_iff in Hy.
    unfold nullishCompare at 1. rewrite !has_nullish, Hx, Hy. simpl.
    now rewrite IH.
Qed.

Lemma forallb_filter {A : Type} (f : A -> bool) (l : list A) :
  List.forallb f (filter f l) = true.
Proof.
  induction l as [|a l IH]; simpl; [reflexivity|].
  destruct (f a) eqn:Ha; simpl; [now rewrite Ha|exact IH].
Qed.

Lemma sort_absenceLast parts :
  Js.sort nullishCompare parts = UnionSpec.absenceLast parts.
Proof.
  unfold UnionSpec.absenceLast.
  induction parts as [|x l IH]; simpl; [reflexivity|].
  rewrite IH. destruct (UnionSpec.isAbsence x) eqn:Hx; simpl.
  - apply sortInsert_absence; [exact Hx | apply forallb_filter | apply forallb_filter].
  - now apply sortInsert_concrete.
Qed.

Lemma Forall2_mapM {A B : Type} (f : A -> outcome B) (l : list A) (bs : list B) :
  Forall2 (fun a b => f a = Ret b) l bs -> mapM f l = Ret bs.
Proof.
  induction 1 as [|a b l bs Hab _ IH]; simpl; [reflexivity|].
  now rewrite Hab, IH.
Qed.

Lemma recur_Forall2 (graph : TypeGraph) (depth : nat) (members : list TsType) :
  exists parts,
    mapM (fun t => resolveTypeText graph t (depth + 1)) members = Ret parts
    /\ Forall2 (fun member part => resolveTypeText graph member (depth + 1) = Ret part)
         members parts.
Proof.
  apply (mapM_total (fun t => resolveTypeText graph t (depth + 1))).
  intros t. apply resolveTypeText_total.
Qed.

Lemma nullable_orders (parts : list string) :
  Permutation parts ["string"; "null"; "undefined"] ->
  In parts
    [ ["string"; "null"; "undefined"]; ["string"; "undefined"; "null"];
      ["null"; "string"; "undefined"]; ["null"; "undefined"; "string"];
      ["undefined"; "string"; "null"]; ["undefined"; "null"; "string"] ].
Proof.
  intros H.
  pose proof (Permutation_length H) as Hlen.
  destruct parts as [|x [|y [|z [|? ?]]]]; try discriminate Hlen.
  apply Permutation_sym in H.
  assert (Hs : In "string" [x; y; z]) by (apply (Permutation_in _ H); simpl; auto).
  assert (Hn : In "null" [x; y; z]) by (apply (Permutation_in _ H); simpl; auto).
  assert (Hu : In "undefined" [x; y; z]) by (apply (Permutation_in _ H); simpl; auto).
  simpl in Hs, Hn, Hu.
  destruct Hs as [->|[->|[->|[]]]]; destruct Hn as [Hn|[Hn|[Hn|[]]]];
    try discriminate Hn; subst;
    destruct Hu as [Hu|[Hu|[Hu|[]]]]; try discriminate Hu; subst;
    simpl; repeat (try (left; reflexivity); right).
Qed.

Section UnionFacts.

Variable graph : TypeGraph.

(** At a union below the guard, [resolveTypeText] is its union branch. *)
Lemma resolveTypeText_union type depth :
  depth <= MAX_RESOLVE_DEPTH ->
  isArray (graph type) = false ->
  isTuple (graph type) = false ->
  isUnion (graph type) = true ->
  resolveTypeText graph type depth
  = resolveUnion (resolveTypeText graph) (graph type) depth.
Proof.
  intros Hd Ha Ht Hu. rewrite resolveTypeText_eq. unfold resolveTypeText_body.
  apply Nat.ltb_ge in Hd. now rewrite Hd, Ha, Ht, Hu.
Qed.

End UnionFacts.

(** C5.  A union below the depth guard normalizes to its members'
    normalized strings, deduplicated by string equality, with [true] and
    [false] replaced by one [boolean] when both are present, [null] and
    [undefined] moved behind the other members in a stable way, joined
    by [" | "].  When the members normalize to [string], [null] and
    [undefined] in some order, [string] comes first. *)
Theorem union_canonical (graph : TypeGraph) (type : TsType) (depth : nat) :
  depth <= MAX_RESOLVE_DEPTH ->
  isArray (graph type) = false ->
  isTuple (graph type) = false ->
  isUnion (graph type) = true ->
  exists parts,
    Forall2 (fun member part => resolveTypeText graph member (depth + 1) = Ret part)
      (getUnionTypes (graph type)) parts
    /\ resolveTypeText graph type depth = Ret (UnionSpec.canonical parts)
    /\ (Permutation parts ["string"; "null"; "undefined"] ->
        UnionSpec.canonical parts = "string | null | undefined"
        \/ UnionSpec.canonical parts = "string | undefined | null").
Proof.
  intros Hd Ha Ht Hu.
  destruct (recur_Forall2 graph depth (getUnionTypes (graph type)))
    as [parts [Hparts Hall]].
  exists parts. split; [exact Hall|]. split.
  - rewrite resolveTypeText_union by assumption.
    unfold resolveUnion. rewrite Hparts. simpl.
    rewrite sort_absenceLast, collapseBoolean_spec, unique_dedup. reflexivity.
  - intros Hperm. apply nullable_orders in Hperm. simpl in Hperm.
    destruct Hperm as [<-|[<-|[<-|[<-|[<-|[<-|[]]]]]]]; vm_compute; auto.
Qed.

Lemma union_canonical_witness :
  resolveTypeText Examples.nullableUnion 0 0 = Ret "string | undefined | null".
Proof.
  destruct (union_canonical Examples.nullableUnion 0 0)
    as [parts [Hall [Hres Horder]]];
    [unfold MAX_RESOLVE_DEPTH; lia | reflexivity | reflexivity | reflexivity |].
  apply Forall2_mapM in Hall. vm_compute in Hall. injection Hall as <-.
  assert (Hperm : Permutation ["undefined"; "string"; "null"]
                    ["string"; "null"; "undefined"]).
  { apply (perm_trans (perm_swap "string" "undefined" ["null"])).
    apply perm_skip. apply perm_swap. }
  destruct (Horder Hperm) as [H|H]; [vm_compute in H; discriminate H|].
  rewrite Hres, H. reflexivity.
Defined.

(** ** Array collapse *)

Lemma reference_names_fingerprint (name : string) :
  In name REFERENCE_NAMES -> In name ARRAY_FINGERPRINT.
Proof.
  intros H.
  assert (Hall : List.forallb (fun n => Js.includes ARRAY_FINGERPRINT n) REFERENCE_NAMES
                 = true) by reflexivity.
  rewrite forallb_forall in Hall. specialize (Hall name H).
  unfold Js.includes in Hall. apply existsb_exists in Hall.
  destruct Hall as [fp [Hin Heq]]. apply String.eqb_eq in Heq. now subst.
Qed.

Lemma includes_In (l : list string) (x : string) : In x l -> Js.includes l x = true.
Proof.
  intros H. unfold Js.includes. apply existsb_exists.
  exists x. split; [exact H | apply String.eqb_refl].
Qed.

Lemma fingerprintMatches_lower (properties : list Symbol) (present : list string) :
  NoDup present ->
  (forall name, In name present ->
                In name REFERENCE_NAMES
                /\ exists prop, In prop properties /\ getName prop = name) ->
  List.length present <= fingerprintMatches properties.
Proof.
  intros Hnodup Hpresent. unfold fingerprintMatches.
  apply NoDup_incl_length; [exact Hnodup|].
  intros name Hname. destruct (Hpresent name Hname) as [Href [prop [Hprop Hn]]].
  apply filter_In. split; [now apply reference_names_fingerprint|].
  apply includes_In. rewrite <- Hn. now apply in_map.
Qed.

Section ObjectFacts.

Variable graph : TypeGraph.

(** At an object that no earlier rule takes, [resolveTypeText] is its
    object branch. *)
Lemma resolveTypeText_object type depth :
  depth <= MAX_RESOLVE_DEPTH ->
  isArray (graph type) = false ->
  isTuple (graph type) = false ->
  isUnion (graph type) = false ->
  isIntersection (graph type) = false ->
  notKnownGeneric (graph type) ->
  isObject (graph type) = true ->
  resolveTypeText graph type depth
  = resolveObject (resolveTypeText graph) (graph type) depth.
Proof.
  intros Hd Ha Ht Hu Hi Hg Ho. rewrite resolveTypeText_eq.
  unfold resolveTypeText_body.
  apply Nat.ltb_ge in Hd. rewrite Hd, Ha, Ht, Hu, Hi, Ho.
  unfold resolveKnownGeneric. unfold notKnownGeneric in Hg.
  destruct (orElse _ _) as [name|]; [rewrite Hg|]; reflexivity.
Qed.

End ObjectFacts.

(** C7.  An object type that is not an array, tuple, union, intersection
    or well-known generic, that has a numeric index signature and among
    whose property names are at least 75% of the 16 reference names,
    normalizes to [E[]], [E] being the normalized type of the numeric
    index. *)
Theorem expanded_array_collapses (graph : TypeGraph) (type element : TsType)
  (depth : nat) (present : list string) :
  depth <= MAX_RESOLVE_DEPTH ->
  isArray (graph type) = false ->
  isTuple (graph type) = false ->
  isUnion (graph type) = false ->
  isIntersection (graph type) = false ->
  notKnownGeneric (graph type) ->
  isObject (graph type) = true ->
  getNumberIndexType (graph type) = Some element ->
  NoDup present ->
  (forall name, In name present ->
                In name REFERENCE_NAMES
                /\ exists prop, In prop (getProperties (graph type))
                                /\ getName prop = name) ->
  75 * List.length REFERENCE_NAMES <= 100 * List.length present ->
  exists E,
    resolveTypeText graph element (depth + 1) = Ret E
    /\ resolveTypeText graph type depth = Ret (E ++ "[]").
Proof.
  intros Hd Ha Ht Hu Hi Hg Ho Hindex Hnodup Hpresent Hshare.
  destruct (resolveTypeText_total graph element (depth + 1)) as [E HE].
  exists E. split; [exact HE|].
  rewrite resolveTypeText_object by assumption.
  unfold resolveObject, collapseExpandedArray. rewrite Hindex.
  pose proof (fingerprintMatches_lower _ _ Hnodup Hpresent) as Hlow.
  assert (Hreach : fingerprintReached (fingerprintMatches (getProperties (graph type)))
                   = true).
  { unfold fingerprintReached. apply Nat.leb_le.
    change (List.length ARRAY_FINGERPRINT) with 16.
    change (List.length REFERENCE_NAMES) with 16 in Hshare. lia. }
  rewrite Hreach, HE. reflexivity.
Qed.

Lemma expanded_array_collapses_witness :
  exists E,
    resolveTypeText Examples.expandedArray 1 (0 + 1) = Ret E
    /\ resolveTypeText Examples.expandedArray 0 0 = Ret (E ++ "[]").
Proof.
  apply (expanded_array_collapses Examples.expandedArray 0 1 0
           Examples.expandedArrayNames);
    try reflexivity.
  - unfold MAX_RESOLVE_DEPTH. lia.
  - rewrite <- (eq_refl : nodup string_dec Examples.expandedArrayNames
                         = Examples.expandedArrayNames).
    apply NoDup_nodup.
  - intros name Hin. simpl in Hin.
    repeat (destruct Hin as [<-|Hin];
            [ split;
              [ in_list
              | match goal with
                | |- exists prop, _ /\ getName prop = ?n =>
                    exists (Examples.member n 1); split; [in_list | reflexivity]
                end ]
            | ]).
    contradiction.
Defined.

(** ** Intersection flattening *)

Lemma has_false_iff (set : list string) (x : string) :
  has set x = false <-> ~ In x set.
Proof.
  unfold has, Js.includes. split.
  - intros H Hin. apply (includes_In set x) in Hin. unfold Js.includes in Hin.
    congruence.
  - intros H. destruct (List.existsb (String.eqb x) set) eqn:E; [|reflexivity].
    apply existsb_exists in E. destruct E as [y [Hy Heq]].
    apply String.eqb_eq in Heq. subst. contradiction.
Qed.

Lemma isAnonymousObject_iff (m : TypeInfo) :
  isAnonymousObject m = true <-> IntersectionSpec.AnonymousObject m.
Proof.
  unfold isAnonymousObject, IntersectionSpec.AnonymousObject.
  rewrite !andb_true_iff, !negb_true_iff, Nat.eqb_eq, !has_false_iff. tauto.
Qed.

Lemma allAnonymousObjects_iff (graph : TypeGraph) (T : TypeInfo) :
  allAnonymousObjects graph (getIntersectionTypes T) = true
  <-> IntersectionSpec.Mergeable graph T.
Proof.
  unfold allAnonymousObjects, IntersectionSpec.Mergeable.
  rewrite andb_true_iff, forallb_forall, Forall_forall, existsb_exists, Exists_exists.
  split; intros [Hall [m [Hm Hp]]]; (split; [|exists m; split; [exact Hm|]]).
  - intros x Hx. apply isAnonymousObject_iff. now apply Hall.
  - apply Nat.ltb_lt in Hp. intros E. rewrite E in Hp. simpl in Hp. lia.
  - intros x Hx. apply isAnonymousObject_iff. now apply Hall.
  - apply Nat.ltb_lt. destruct (getProperties (graph m)); [contradiction | simpl; lia].
Qed.

Section IntersectionFacts.

Variable graph : TypeGraph.
Variable depth : nat.

Lemma propertyEntries_spec (properties : list Symbol) :
  exists entries,
    propertyEntries (resolveTypeText graph) properties depth = Ret entries
    /\ IntersectionSpec.ObjectEntries graph depth properties entries
    /\ (entries <> []
        <-> Exists (fun prop => IntersectionSpec.symbolLike prop = false) properties).
Proof.
  induction properties as [|prop rest [entries [Hrun [Hspec Hne]]]]; simpl.
  - exists []. split; [reflexivity|]. split; [constructor|].
    split; [congruence | intros H; inversion H].
  - destruct (Js.startsWith (getName prop) "__@") eqn:Hsym.
    + exists entries. split; [exact Hrun|]. split; [now constructor|].
      rewrite Hne. split; intros H.
      * now apply Exists_cons_tl.
      * inversion H as [? ? Hhd|? ? Htl]; subst; [|exact Htl].
        unfold IntersectionSpec.symbolLike in Hhd. congruence.
    + destruct (resolveTypeText_total graph (getTypeAtLocation prop) (depth + 1))
        as [resolved Hres].
      rewrite Hres, Hrun. simpl. eexists. split; [reflexivity|].
      split; [now apply IntersectionSpec.entries_cons|].
      split; [intros _; now apply Exists_cons_hd | congruence].
Qed.

Lemma objectLiteral_spec (entries : list string) :
  objectLiteral entries
  = match entries with
    | [] => None
    | _ => Some (IntersectionSpec.mergedLiteral entries)
    end.
Proof. reflexivity. Qed.

(** At an intersection below the guard, [resolveTypeText] is its
    intersection branch. *)
Lemma resolveTypeText_intersection type :
  depth <= MAX_RESOLVE_DEPTH ->
  isArray (graph type) = false ->
  isTuple (graph type) = false ->
  isUnion (graph type) = false ->
  isIntersection (graph type) = true ->
  resolveTypeText graph type depth
  = resolveIntersection graph (resolveTypeText graph) (graph type) depth.
Proof.
  intros Hd Ha Ht Hu Hi. rewrite resolveTypeText_eq. unfold resolveTypeText_body.
  apply Nat.ltb_ge in Hd. now rewrite Hd, Ha, Ht, Hu, Hi.
Qed.

End IntersectionFacts.

(** C6, as amended.  At an intersection below the depth guard: if every
    member is an anonymous object-like type, some member has properties,
    there is more than one member and the intersection has an own
    property that is not symbol-like, the result is one object literal
    over the intersection's own properties; otherwise the members are
    normalized one by one, those that give [{}] are dropped, the rest is
    deduplicated and joined by [" & "], a single survivor is returned as
    it is, and nothing left gives [{}]. *)
Theorem intersection_flattening (graph : TypeGraph) (type : TsType) (depth : nat) :
  depth <= MAX_RESOLVE_DEPTH ->
  isArray (graph type) = false ->
  isTuple (graph type) = false ->
  isUnion (graph type) = false ->
  isIntersection (graph type) = true ->
  exists entries parts,
    IntersectionSpec.ObjectEntries graph depth (getProperties (graph type)) entries
    /\ Forall2 (fun member part => resolveTypeText graph member (depth + 1) = Ret part)
         (getIntersectionTypes (graph type)) parts
    /\ (IntersectionSpec.Flattened graph (graph type) ->
        resolveTypeText graph type depth
        = Ret (IntersectionSpec.mergedLiteral entries))
    /\ (~ IntersectionSpec.Flattened graph (graph type) ->
        resolveTypeText graph type depth = Ret (IntersectionSpec.memberwise parts)).
Proof.
  intros Hd Ha Ht Hu Hi.
  destruct (propertyEntries_spec graph depth (getProperties (graph type)))
    as [entries [Hrun [Hentries Hne]]].
  destruct (recur_Forall2 graph depth (getIntersectionTypes (graph type)))
    as [parts [Hparts Hall]].
  exists entries, parts. split; [exact Hentries|]. split; [exact Hall|].
  rewrite resolveTypeText_intersection by assumption.
  unfold resolveIntersection, IntersectionSpec.Flattened.
  rewrite Hparts, <- Hne, <- allAnonymousObjects_iff, <- Nat.ltb_lt.
  set (anonymous := allAnonymousObjects graph (getIntersectionTypes (graph type))).
  set (several := 1 <? List.length (getIntersectionTypes (graph type))).
  assert (Hfall :
    (match Js.unique (filter (fun p => negb (String.eqb p "{}")) parts) with
     | [] => Ret "{}"
     | [only] => Ret only
     | unique => Ret (Js.join unique " & ")
     end) = Ret (IntersectionSpec.memberwise parts)).
  { unfold IntersectionSpec.memberwise. rewrite unique_dedup.
    destruct (UnionSpec.dedup _) as [|? [|? ?]]; reflexivity. }
  destruct anonymous, several; simpl; try rewrite Hrun; simpl;
    try rewrite objectLiteral_spec.
  - destruct entries as [|entry entries].
    + split; [intros (_ & _ & H); congruence | intros _; exact Hfall].
    + split; [reflexivity|]. intros H. exfalso. apply H.
      repeat split; congruence.
  - split; [intros (_ & H & _); discriminate H | intros _; exact Hfall].
  - split; [intros (H & _); discriminate H | intros _; exact Hfall].
  - split; [intros (H & _); discriminate H | intros _; exact Hfall].
Qed.

Lemma intersection_flattening_witness :
  resolveTypeText Examples.twoRecords 0 0 = Ret "{ a: string; b: number }".
Proof.
  destruct (intersection_flattening Examples.twoRecords 0 0)
    as [entries [parts [Hentries [_ [Hflat _]]]]];
    [unfold MAX_RESOLVE_DEPTH; lia | reflexivity | reflexivity | reflexivity
     | reflexivity |].
  rewrite Hflat.
  - inversion Hentries as [|? ? ? Hs|? ? es1 r1 _ H1 Hrest]; subst;
      [discriminate Hs|].
    inversion Hrest as [|? ? ? Hs|? ? es2 r2 _ H2 Hnil]; subst;
      [discriminate Hs|].
    inversion Hnil; subst.
    vm_compute in H1, H2. injection H1 as <-. injection H2 as <-. reflexivity.
  - split; [apply allAnonymousObjects_iff; reflexivity|].
    split; [simpl; lia | apply Exists_cons_hd; reflexivity].
Defined.

(** The condition of the specification alone does not give the merged
    literal: two members with symbol-named properties only are
    normalized one by one. *)
Lemma intersection_symbol_keys_not_merged :
  ~ (forall (graph : TypeGraph) (type : TsType) (depth : nat),
        depth <= MAX_RESOLVE_DEPTH ->
        isArray (graph type) = false ->
        isTuple (graph type) = false ->
        isUnion (graph type) = false ->
        isIntersection (graph type) = true ->
        IntersectionSpec.Mergeable graph (graph type) ->
        exists entries,
          IntersectionSpec.ObjectEntries graph depth (getProperties (graph type))
            entries
          /\ resolveTypeText graph type depth
             = Ret (IntersectionSpec.mergedLiteral entries)).
Proof.
  intros H.
  destruct (H Examples.symbolKeyed 0 0) as [entries [Hentries Hres]];
    try reflexivity.
  - unfold MAX_RESOLVE_DEPTH. lia.
  - apply allAnonymousObjects_iff. reflexivity.
  - inversion Hentries as [|? ? ? _ Hrest|? ? ? ? Hs]; subst; [|discriminate Hs].
    inversion Hrest as [|? ? ? _ Hnil|? ? ? ? Hs]; subst; [|discriminate Hs].
    inversion Hnil; subst.
    vm_compute in Hres. discriminate Hres.
Qed.

(** ** Path parameters *)

Lemma split_span (s : string) :
  Js.split "/" s
  = fst (Js.span (notChar "/") s)
      :: match snd (Js.span (notChar "/") s) with
         | "" => []
         | String _ rest => Js.split "/" rest
         end.
Proof.
  induction s as [|c rest IH]; simpl; [reflexivity|].
  unfold notChar at 1 3. destruct (Ascii.eqb c "/"); simpl; [reflexivity|].
  rewrite IH. destruct (Js.span (notChar "/") rest) as [seg tail]. reflexivity.
Qed.

Lemma PARAM_RE_slash (c : ascii) (rest : string) :
  Ascii.eqb c "/" = false -> PARAM_RE (String c rest) = None.
Proof.
  intros H. unfold PARAM_RE. destruct rest; [reflexivity|]. now rewrite H.
Qed.

(** No match begins inside a segment. *)
Lemma matchAllFrom_skip (s : string) (k : nat) :
  k <= String.length (fst (Js.span (notChar "/") s)) ->
  Re.matchAllFrom PARAM_RE k s = Re.matchAllFrom PARAM_RE 0 s.
Proof.
  revert k. induction s as [|c rest IH]; intros k Hk; [reflexivity|].
  destruct k as [|k]; [reflexivity|].
  simpl in Hk. unfold notChar at 1 in Hk.
  destruct (Ascii.eqb c "/") eqn:Hc; simpl in Hk; [lia|].
  destruct (Js.span (notChar "/") rest) as [seg tail] eqn:Hspan. simpl in Hk.
  cbn [Re.matchAllFrom]. rewrite (PARAM_RE_slash c rest Hc).
  apply IH. simpl. lia.
Qed.

(** Behind a slash, the expression matches a colon-prefixed segment with
    a non-empty name, all of it. *)
Lemma PARAM_RE_segment (rest : string) :
  let segment := fst (Js.span (notChar "/") rest) in
  match PathSpec.colonName segment with
  | Some (String n name) =>
      PARAM_RE (String "/" rest) = Some (String.length segment + 1, [String n name])
  | _ => PARAM_RE (String "/" rest) = None
  end.
Proof.
  destruct rest as [|c2 r2]; [reflexivity|].
  cbn [PARAM_RE Js.span].
  change (notChar "/" c2) with (negb (Ascii.eqb c2 "/")).
  destruct (Ascii.eqb c2 "/") eqn:Hslash; cbn [negb].
  - cbn [fst PathSpec.colonName].
    destruct (Ascii.eqb c2 ":") eqn:Hcolon; [|reflexivity].
    apply Ascii.eqb_eq in Hslash, Hcolon. subst c2. discriminate Hcolon.
  - destruct (Js.span (notChar "/") r2) as [name tail] eqn:Hspan.
    cbn [fst PathSpec.colonName]. rewrite Ascii.eqb_refl. cbn [andb].
    destruct (Ascii.eqb c2 ":"); [|reflexivity].
    destruct name as [|n name]; [reflexivity|].
    cbn [String.length]. do 2 f_equal. lia.
Qed.

Lemma matchAll_segments (path : string) :
  map (group 1) (Re.matchAll PARAM_RE path) = PathSpec.slashColonNames path.
Proof.
  unfold Re.matchAll, PathSpec.slashColonNames, PathSpec.segments.
  induction path as [|c rest IH]; [reflexivity|].
  cbn [Re.matchAllFrom].
  destruct (Ascii.eqb c "/") eqn:Hc.
  - (* a slash: the segment behind it decides *)
    assert (Htl : tl (Js.split "/" (String c rest)) = Js.split "/" rest).
    { cbn [Js.split]. now rewrite Hc. }
    rewrite Htl, split_span. rewrite split_span in IH. cbn [tl] in IH.
    cbn [flat_map]. rewrite <- IH. clear IH Htl.
    apply Ascii.eqb_eq in Hc. subst c.
    pose proof (PARAM_RE_segment rest) as Hre. cbv zeta in Hre.
    destruct (PathSpec.colonName (fst (Js.span (notChar "/") rest)))
      as [[|n name]|]; rewrite Hre; [reflexivity| |reflexivity].
    cbn [map app]. f_equal. f_equal.
    apply matchAllFrom_skip. lia.
  - (* inside a segment *)
    rewrite (PARAM_RE_slash c rest Hc), IH.
    cbn [Js.split]. rewrite Hc. now destruct (Js.split "/" rest).
Qed.

(** C8, as amended.  The extractor returns the object literal that maps
    to [string], in path order, the name of every colon-prefixed segment
    that stands behind a slash and has a non-empty name, and [{}] when
    there is none; [/users/:id/posts/:postId] gives
    [{id: string, postId: string}] and [/health] gives [{}]. *)
Theorem parseParamsFromPath_segments :
  (forall path,
      parseParamsFromPath path
      = PathSpec.paramsLiteral (PathSpec.slashColonNames path))
  /\ parseParamsFromPath "/users/:id/posts/:postId" = "{id: string, postId: string}"
  /\ parseParamsFromPath "/health" = "{}".
Proof.
  split; [|split; reflexivity].
  intros path. unfold parseParamsFromPath. rewrite matchAll_segments.
  unfold PathSpec.paramsLiteral. reflexivity.
Qed.

(** A colon-prefixed segment that opens the path is not extracted. *)
Lemma parseParamsFromPath_leading_segment :
  ~ (forall path,
        parseParamsFromPath path = PathSpec.paramsLiteral (PathSpec.colonNames path)).
Proof.
  intros H. specialize (H ":id"). vm_compute in H. discriminate H.
Qed.

Example leading_segment_values :
  PathSpec.colonNames ":id" = ["id"] /\ parseParamsFromPath ":id" = "{}".
Proof. split; reflexivity. Qed.

(** ** The route walker *)

Lemma stripPrefix_app (prefix s : string) :
  Js.stripPrefix prefix (prefix ++ s) = Some s.
Proof.
  induction prefix as [|a prefix IH]; simpl; [reflexivity|].
  now rewrite Ascii.eqb_refl.
Qed.

Lemma span_until (p : ascii -> bool) (s : string) (c : ascii) (rest : string) :
  Js.forallb p s = true -> p c = false ->
  Js.span p (s ++ String c rest) = (s, String c rest).
Proof.
  intros Hs Hc. induction s as [|a s IH]; simpl in *.
  - now rewrite Hc.
  - apply andb_prop in Hs. destruct Hs as [Ha Hs]. now rewrite Ha, IH.
Qed.

Lemma append_empty (a : string) : a ++ "" = a.
Proof. induction a as [|x a IH]; simpl; [reflexivity | now rewrite IH]. Qed.

Lemma append_assoc (a b c : string) : (a ++ b) ++ c = a ++ b ++ c.
Proof. induction a as [|x a IH]; simpl; [reflexivity | now rewrite IH]. Qed.

(** The repair reads the path literal written in the helper type. *)
Lemma repairParams_literal (literal tail : string) :
  literal <> "" ->
  Js.forallb (notChar dquote) literal = true ->
  repairParams ("_ResolvePath<" ++ DQ ++ literal ++ DQ ++ ">" ++ tail)
  = parseParamsFromPath literal.
Proof.
  intros Hne Hquote. unfold repairParams.
  change (Js.startsWith ("_ResolvePath<" ++ DQ ++ literal ++ DQ ++ ">" ++ tail)
            "_ResolvePath<") with true. cbn iota.
  assert (Hmatch :
    RESOLVE_PATH_RE ("_ResolvePath<" ++ DQ ++ literal ++ DQ ++ ">" ++ tail)
    = Some (16 + String.length literal, [literal])).
  { unfold RESOLVE_PATH_RE.
    rewrite <- (append_assoc "_ResolvePath<" DQ), stripPrefix_app.
    change (DQ ++ ">" ++ tail) with (String dquote (">" ++ tail)).
    rewrite span_until by (exact Hquote || reflexivity).
    destruct literal; [congruence|].
    unfold Js.startsWith.
    change (String dquote (">" ++ tail)) with ((DQ ++ ">") ++ tail).
    now rewrite stripPrefix_app. }
  destruct ("_ResolvePath<" ++ DQ ++ literal ++ DQ ++ ">" ++ tail) eqn:E;
    [discriminate E|].
  cbn [Re.exec]. rewrite Hmatch. reflexivity.
Qed.

Section WalkerFacts.

Variable graph : TypeGraph.
Variables sdkImport sdkClientName : string.
Variable sdkClientOptions : option string.

Local Abbreviation walk := (walkProperty graph sdkImport sdkClientName sdkClientOptions).
Local Abbreviation emit := (emitEndpoint sdkImport sdkClientName sdkClientOptions).

Lemma walk_method self path prop :
  has HTTP_METHODS (getName prop) = true -> path <> "" ->
  walk self path prop
  = (routeTypes <- methodRouteTypes graph (getTypeAtLocation prop) ;;
     emit path (getName prop) routeTypes).
Proof.
  intros Hm Hp. unfold walkProperty. rewrite Hm.
  apply String.eqb_neq in Hp. now rewrite Hp.
Qed.

Lemma walk_routes self path prop :
  getName prop = "~Routes" ->
  walk self path prop = (docs <- self (getTypeAtLocation prop) "" ;; Ret [docs]).
Proof.
  intros Hn. unfold walkProperty. rewrite Hn. reflexivity.
Qed.

End WalkerFacts.

(** C1, as amended.  For a property named [~Routes] the walker recurses
    into the property's type with the empty path, whatever path was
    accumulated before; a node that holds nothing else is documented as
    its nested routes are from the root. *)
Theorem nested_routes_from_root (graph : TypeGraph) (sdkImport sdkClientName : string)
  (sdkClientOptions : option string) (fuel : nat) (path : string) :
  (forall prop,
      getName prop = "~Routes" ->
      walkProperty graph sdkImport sdkClientName sdkClientOptions
        (generateDocsFromType graph sdkImport sdkClientName sdkClientOptions fuel)
        path prop
      = (docs <- generateDocsFromType graph sdkImport sdkClientName sdkClientOptions
                   fuel (getTypeAtLocation prop) "" ;;
         Ret [docs]))
  /\ (forall type prop,
         getProperties (graph type) = [prop] ->
         getName prop = "~Routes" ->
         generateDocsFromType graph sdkImport sdkClientName sdkClientOptions
           (S fuel) type path
         = generateDocsFromType graph sdkImport sdkClientName sdkClientOptions
             fuel (getTypeAtLocation prop) "").
Proof.
  split.
  - intros prop Hn. now apply walk_routes.
  - intros type prop Hprops Hn. cbn [generateDocsFromType].
    unfold generateDocsFromType_body. rewrite Hprops. cbn [mapM].
    rewrite walk_routes by exact Hn.
    destruct (generateDocsFromType _ _ _ _ fuel (getTypeAtLocation prop) "")
      as [docs| |]; reflexivity.
Qed.

Lemma nested_routes_from_root_witness :
  generateDocsFromType Examples.mounted Examples.defaultImport "treaty" None 5 0 "/api"
  = generateDocsFromType Examples.mounted Examples.defaultImport "treaty" None 4 1 "".
Proof.
  apply (proj2 (nested_routes_from_root Examples.mounted Examples.defaultImport
                  "treaty" None 4 "/api") 0 (Examples.member "~Routes" 1));
    reflexivity.
Defined.

(** The routes behind [~Routes] are not documented under the path
    accumulated so far: reached at [/api], [users.get] is documented as
    [GET /users], not as [GET /api/users]. *)
Lemma nested_routes_drop_path :
  ~ (forall (graph : TypeGraph) (sdkImport sdkClientName : string)
            (sdkClientOptions : option string) (fuel : nat) (path : string)
            (prop : Symbol),
        getName prop = "~Routes" ->
        walkProperty graph sdkImport sdkClientName sdkClientOptions
          (generateDocsFromType graph sdkImport sdkClientName sdkClientOptions fuel)
          path prop
        = (docs <- generateDocsFromType graph sdkImport sdkClientName
                     sdkClientOptions fuel (getTypeAtLocation prop) path ;;
           Ret [docs])).
Proof.
  intros H.
  specialize (H Examples.mounted Examples.defaultImport "treaty" None 4 "/api"
                (Examples.member "~Routes" 1) eq_refl).
  vm_compute in H. discriminate H.
Qed.

(** C3, as amended.  For a method node whose normalized params read
    [_ResolvePath<DQ literal DQ>], DQ standing for the double quote and
    the literal being non-empty and free of double quotes, the walker
    emits the endpoint with the params that the extractor gives for that
    literal, the path written in the type, not for the path accumulated
    by the walk. *)
Theorem params_repaired_from_literal (graph : TypeGraph)
  (sdkImport sdkClientName : string) (sdkClientOptions : option string)
  (self : TsType -> string -> outcome string) (path : string) (prop : Symbol)
  (routeTypes : RouteTypes) (literal tail : string) :
  has HTTP_METHODS (getName prop) = true ->
  path <> "" ->
  collectRouteTypes graph defaultRouteTypes
    (getProperties (graph (getTypeAtLocation prop))) = Ret routeTypes ->
  params routeTypes = "_ResolvePath<" ++ DQ ++ literal ++ DQ ++ ">" ++ tail ->
  literal <> "" ->
  Js.forallb (notChar dquote) literal = true ->
  walkProperty graph sdkImport sdkClientName sdkClientOptions self path prop
  = emitEndpoint sdkImport sdkClientName sdkClientOptions path (getName prop)
      (mkRouteTypes (body routeTypes) (parseParamsFromPath literal)
         (query routeTypes) (response routeTypes)).
Proof.
  intros Hm Hp Hcollect Hparams Hne Hquote.
  rewrite walk_method by assumption.
  unfold methodRouteTypes. rewrite Hcollect. cbn [bind].
  now rewrite Hparams, repairParams_literal.
Qed.

Lemma params_repaired_from_literal_witness :
  walkProperty Examples.unresolvedParams Examples.defaultImport "treaty" None
    (fun _ _ => Diverge) "/orgs/:orgId/users/:id" (Examples.member "get" 0)
  = emitEndpoint Examples.defaultImport "treaty" None "/orgs/:orgId/users/:id" "get"
      (mkRouteTypes "unknown" "{id: string}" "unknown" "string").
Proof.
  apply (params_repaired_from_literal Examples.unresolvedParams Examples.defaultImport
           "treaty" None (fun _ _ => Diverge) "/orgs/:orgId/users/:id"
           (Examples.member "get" 0)
           (mkRouteTypes "unknown" ("_ResolvePath<" ++ DQ ++ "/users/:id" ++ DQ ++ ">")
              "unknown" "string")
           "/users/:id" "");
    try reflexivity; discriminate.
Defined.

(** The repaired params are not those of the accumulated path: under
    [/orgs/:orgId/users/:id] a route declared as [/users/:id] gets
    [{id: string}], not [{orgId: string, id: string}]. *)
Lemma params_not_from_walked_path :
  ~ (forall (graph : TypeGraph) (sdkImport sdkClientName : string)
            (sdkClientOptions : option string)
            (self : TsType -> string -> outcome string) (path : string)
            (prop : Symbol) (routeTypes : RouteTypes),
        has HTTP_METHODS (getName prop) = true ->
        path <> "" ->
        collectRouteTypes graph defaultRouteTypes
          (getProperties (graph (getTypeAtLocation prop))) = Ret routeTypes ->
        Js.startsWith (params routeTypes) "_ResolvePath<" = true ->
        walkProperty graph sdkImport sdkClientName sdkClientOptions self path prop
        = emitEndpoint sdkImport sdkClientName sdkClientOptions path (getName prop)
            (mkRouteTypes (body routeTypes) (parseParamsFromPath path)
               (query routeTypes) (response routeTypes))).
Proof.
  intros H.
  specialize (H Examples.unresolvedParams Examples.defaultImport "treaty" None
                (fun _ _ => Diverge) "/orgs/:orgId/users/:id"
                (Examples.member "get" 0)
                (mkRouteTypes "unknown"
                   ("_ResolvePath<" ++ DQ ++ "/users/:id" ++ DQ ++ ">")
                   "unknown" "string")
                eq_refl).
  assert (Hpath : "/orgs/:orgId/users/:id" <> "") by discriminate.
  specialize (H Hpath eq_refl eq_refl).
  vm_compute in H. discriminate H.
Qed.

(** ** Presence of body, params and query *)

Lemma setRouteType_same (routeTypes : RouteTypes) (key : string) :
  In key optionalKeys ->
  setRouteType routeTypes key (routeType routeTypes key) = routeTypes.
Proof.
  intros Hkey. destruct routeTypes as [b p q r].
  simpl in Hkey. destruct Hkey as [<-|[<-|[<-|[]]]]; reflexivity.
Qed.

Lemma routeType_set_other (routeTypes : RouteTypes) (key name value : string) :
  In key optionalKeys -> name <> key ->
  routeType (setRouteType routeTypes name value) key = routeType routeTypes key.
Proof.
  intros Hkey Hne. unfold setRouteType.
  simpl in Hkey. destruct Hkey as [<-|[<-|[<-|[]]]];
    destruct (String.eqb_spec name "body"); try congruence;
    destruct (String.eqb_spec name "params"); try congruence;
    destruct (String.eqb_spec name "query"); try congruence;
    destruct (String.eqb name "response"); reflexivity.
Qed.

Section Presence.

Variable graph : TypeGraph.

(** A field that normalizes to its sentinel leaves no trace in the
    collected route types. *)
Lemma collectRouteTypes_without (key : string) (methodProps : list Symbol) :
  In key optionalKeys ->
  (forall prop, In prop methodProps -> getName prop = key ->
                resolveTypeText graph (getTypeAtLocation prop) 0 = Ret (sentinel key)) ->
  forall routeTypes,
    routeType routeTypes key = sentinel key ->
    collectRouteTypes graph routeTypes methodProps
    = collectRouteTypes graph routeTypes
        (filter (fun prop => negb (String.eqb (getName prop) key)) methodProps).
Proof.
  intros Hkey. induction methodProps as [|prop rest IH]; intros Hprops rt Hrt.
  - reflexivity.
  - assert (Hrest : forall p, In p rest -> getName p = key ->
                    resolveTypeText graph (getTypeAtLocation p) 0 = Ret (sentinel key)).
    { intros p Hp. apply Hprops. now right. }
    cbn [filter collectRouteTypes].
    destruct (String.eqb_spec (getName prop) key) as [Hname|Hname]; cbn [negb].
    + assert (Hin : inRouteTypes (getName prop) = true).
      { rewrite Hname. unfold optionalKeys in Hkey. simpl in Hkey.
        destruct Hkey as [<-|[<-|[<-|[]]]]; reflexivity. }
      rewrite Hin, (Hprops prop (or_introl eq_refl) Hname). cbn [bind].
      rewrite Hname, <- Hrt, setRouteType_same by exact Hkey.
      now apply IH.
    + cbn [collectRouteTypes].
      destruct (inRouteTypes (getName prop)); [|now apply IH].
      destruct (resolveTypeText graph (getTypeAtLocation prop) 0) as [text| |];
        cbn [bind]; try reflexivity.
      apply IH; [exact Hrest|]. now rewrite routeType_set_other.
Qed.

End Presence.

Lemma formatTypeBlock_inv (label typeStr block : string) :
  formatTypeBlock label typeStr = Ret block ->
  Js.startsWith block ("**" ++ label ++ ":**") = true.
Proof.
  unfold formatTypeBlock. destruct (prettyPrintType typeStr) as [pretty| |];
    cbn [bind]; try discriminate.
  intros H.
  assert (E : block
              = ("**" ++ label ++ ":**")
                ++ nl ++ nl ++ "```typescript" ++ nl ++ pretty ++ nl ++ "```" ++ nl ++ nl).
  { injection H as <-. now rewrite !append_assoc. }
  rewrite E. unfold Js.startsWith. now rewrite stripPrefix_app.
Qed.

Lemma append_nl_nonempty (s : string) : String.eqb (s ++ nl) "" = false.
Proof. destruct s; reflexivity. Qed.

Lemma generateSdkCodeBlock_lines (path method : string)
  (hasBody hasParams hasQuery : bool) (paramsType sdkImport sdkClientName : string)
  (sdkClientOptions : option string) :
  generateSdkCodeBlock path method hasBody hasParams hasQuery paramsType sdkImport
    sdkClientName sdkClientOptions
  = String.concat nl
      (snippetLines path method hasBody hasParams hasQuery paramsType sdkImport
         sdkClientName sdkClientOptions).
Proof.
  unfold generateSdkCodeBlock, snippetLines, Js.join.
  destruct hasBody, hasParams, hasQuery;
    cbn [when filterBoolean callArguments app List.concat];
    rewrite ?append_nl_nonempty; reflexivity.
Qed.

Lemma routeType_set_same (routeTypes : RouteTypes) (key value : string) :
  In key routeKeys -> routeType (setRouteType routeTypes key value) key = value.
Proof.
  intros Hkey. simpl in Hkey. destruct Hkey as [<-|[<-|[<-|[<-|[]]]]]; reflexivity.
Qed.

Lemma routeType_set_apart (routeTypes : RouteTypes) (key name value : string) :
  In key routeKeys -> name <> key ->
  routeType (setRouteType routeTypes name value) key = routeType routeTypes key.
Proof.
  intros Hkey Hne. unfold setRouteType.
  simpl in Hkey. destruct Hkey as [<-|[<-|[<-|[<-|[]]]]];
    destruct (String.eqb_spec name "body"); try congruence;
    destruct (String.eqb_spec name "params"); try congruence;
    destruct (String.eqb_spec name "query"); try congruence;
    destruct (String.eqb_spec name "response"); try congruence; reflexivity.
Qed.

Lemma routeKeys_inRouteTypes (key : string) :
  In key routeKeys -> inRouteTypes key = true.
Proof.
  intros Hkey. simpl in Hkey. destruct Hkey as [<-|[<-|[<-|[<-|[]]]]]; reflexivity.
Qed.

Section RouteTypesFacts.

Variable graph : TypeGraph.

Lemma collectRouteTypes_total (methodProps : list Symbol) (routeTypes : RouteTypes) :
  exists collected, collectRouteTypes graph routeTypes methodProps = Ret collected.
Proof.
  revert routeTypes.
  induction methodProps as [|prop rest IH]; intros rt; [now exists rt|].
  cbn [collectRouteTypes]. destruct (inRouteTypes (getName prop)); [|apply IH].
  destruct (resolveTypeText_total graph (getTypeAtLocation prop) 0) as [text ->].
  cbn [bind]. apply IH.
Qed.

(** A key that names no property keeps its entry. *)
Lemma collectRouteTypes_keeps (key : string) (methodProps : list Symbol) :
  In key routeKeys ->
  (forall prop, In prop methodProps -> getName prop <> key) ->
  forall routeTypes collected,
    collectRouteTypes graph routeTypes methodProps = Ret collected ->
    routeType collected key = routeType routeTypes key.
Proof.
  intros Hkey. induction methodProps as [|prop rest IH]; intros Hnone rt rt' H.
  - cbn in H. now injection H as <-.
  - assert (Hrest : forall p, In p rest -> getName p <> key).
    { intros p Hp. apply Hnone. now right. }
    cbn [collectRouteTypes] in H.
    destruct (inRouteTypes (getName prop)); [|now apply IH].
    destruct (resolveTypeText graph (getTypeAtLocation prop) 0) as [text| |];
      cbn [bind] in H; try discriminate.
    rewrite (IH Hrest _ _ H).
    apply routeType_set_apart; [exact Hkey|]. apply Hnone. now left.
Qed.

(** With property names pairwise distinct, a property under one of the
    four keys puts its normalized type under that key. *)
Lemma collectRouteTypes_field (methodProps : list Symbol) (field : Symbol)
  (text : string) :
  NoDup (map getName methodProps) ->
  In field methodProps ->
  In (getName field) routeKeys ->
  resolveTypeText graph (getTypeAtLocation field) 0 = Ret text ->
  forall routeTypes collected,
    collectRouteTypes graph routeTypes methodProps = Ret collected ->
    routeType collected (getName field) = text.
Proof.
  intros Hdup Hin Hkey Htext.
  induction methodProps as [|prop rest IH]; intros rt rt' H; [contradiction|].
  cbn [map] in Hdup. inversion_clear Hdup as [|? ? Hfresh Hdup'].
  cbn [collectRouteTypes] in H.
  destruct Hin as [->|Hin].
  - rewrite (routeKeys_inRouteTypes _ Hkey), Htext in H. cbn [bind] in H.
    rewrite (collectRouteTypes_keeps (getName field) rest Hkey) with (2 := H).
    + now apply routeType_set_same.
    + intros p Hp Heq. apply Hfresh. rewrite <- Heq. now apply in_map.
  - destruct (inRouteTypes (getName prop)); [|now apply (IH Hdup' Hin rt)].
    destruct (resolveTypeText graph (getTypeAtLocation prop) 0) as [t| |];
      cbn [bind] in H; try discriminate.
    now apply (IH Hdup' Hin (setRouteType rt (getName prop) t)).
Qed.

Lemma routeType_repaired (routeTypes : RouteTypes) (key : string) :
  routeType (mkRouteTypes (body routeTypes) (repairParams (params routeTypes))
               (query routeTypes) (response routeTypes)) key
  = if String.eqb key "params" then repairParams (routeType routeTypes key)
    else routeType routeTypes key.
Proof.
  unfold routeType. cbn [body params query response].
  destruct (String.eqb_spec key "body") as [->|_]; [reflexivity|].
  destruct (String.eqb key "params"); [reflexivity|].
  destruct (String.eqb key "query"); reflexivity.
Qed.

End RouteTypesFacts.

Section EndpointParts.

Variables sdkImport sdkClientName : string.
Variable sdkClientOptions : option string.

(** The strings of an endpoint, slot by slot. *)
Lemma emitEndpoint_parts (path method : string) (routeTypes : RouteTypes)
  (parts : list string) :
  emitEndpoint sdkImport sdkClientName sdkClientOptions path method routeTypes
  = Ret parts
  <-> exists bodyBlock paramsBlock queryBlock responseBlock,
        slotOf "Body" "body" routeTypes bodyBlock
        /\ slotOf "Params" "params" routeTypes paramsBlock
        /\ slotOf "Query" "query" routeTypes queryBlock
        /\ formatTypeBlock "Response" (response routeTypes) = Ret responseBlock
        /\ parts
           = [ endpointHeading path method;
               String.concat nl
                 (snippetLines path method (present routeTypes "body")
                    (present routeTypes "params") (present routeTypes "query")
                    (params routeTypes) sdkImport sdkClientName sdkClientOptions);
               bodyBlock; paramsBlock; queryBlock; responseBlock;
               "</details>" ++ nl ++ nl;
               "---" ++ nl ++ nl ].
Proof.
  change (slotOf "Body" "body" routeTypes)
    with (fun block => if String.eqb (body routeTypes) "unknown" then block = ""
                       else formatTypeBlock "Body" (body routeTypes) = Ret block).
  change (slotOf "Params" "params" routeTypes)
    with (fun block => if String.eqb (params routeTypes) "{}" then block = ""
                       else formatTypeBlock "Params" (params routeTypes) = Ret block).
  change (slotOf "Query" "query" routeTypes)
    with (fun block => if String.eqb (query routeTypes) "unknown" then block = ""
                       else formatTypeBlock "Query" (query routeTypes) = Ret block).
  change (present routeTypes "body")
    with (negb (String.eqb (body routeTypes) "unknown")).
  change (present routeTypes "params")
    with (negb (String.eqb (params routeTypes) "{}")).
  change (present routeTypes "query")
    with (negb (String.eqb (query routeTypes) "unknown")).
  unfold emitEndpoint. rewrite generateSdkCodeBlock_lines.
  fold (endpointHeading path method). cbv beta.
  destruct (String.eqb (body routeTypes) "unknown"),
    (String.eqb (params routeTypes) "{}"),
    (String.eqb (query routeTypes) "unknown"); cbn [negb bind];
    (split;
     [ repeat match goal with
              | |- context [bind (formatTypeBlock ?l ?t) _] =>
                  let E := fresh "E" in
                  destruct (formatTypeBlock l t) as [?| |] eqn:E; cbn [bind];
                  try discriminate
              end;
       intros H; injection H as <-;
       do 4 eexists; repeat split; try reflexivity; eassumption
     | intros [b [p [q [r [Hb [Hp [Hq [Hr ->]]]]]]]];
       subst;
       repeat match goal with
              | H : formatTypeBlock _ _ = Ret _ |- _ => rewrite H; clear H; cbn [bind]
              end;
       reflexivity ]).
Qed.

End EndpointParts.

(** C10.  Presence of body, params and query is decided by comparison
    with the defaults.  A method node whose body or query normalizes to
    [unknown], or whose params normalize to [{}], is documented exactly
    as the node without that property.  The walk of a method node at a
    non-empty path reads route types that hold, under each of the four
    keys, the default when no property has that name and the normalized
    type of the property of that name otherwise (repaired, for params).
    The walk returns exactly when every field that differs from its
    default and the response format, and it then pushes eight strings:
    the heading, the usage snippet with a declaration and a call
    argument only for the fields that differ from their default, for
    each of body, params and query the empty string when it equals its
    default and its labeled block otherwise, the Response block whatever
    the response is, and the two closing strings.  A labeled block
    starts with its label, so it is never the empty string. *)
Theorem sentinel_fields_absent (graph : TypeGraph) (sdkImport sdkClientName : string)
  (sdkClientOptions : option string) (path : string) :
  (forall self node node' key,
      has HTTP_METHODS (getName node) = true ->
      getName node' = getName node ->
      In key optionalKeys ->
      getProperties (graph (getTypeAtLocation node'))
      = filter (fun field => negb (String.eqb (getName field) key))
          (getProperties (graph (getTypeAtLocation node))) ->
      (forall field,
          In field (getProperties (graph (getTypeAtLocation node))) ->
          getName field = key ->
          resolveTypeText graph (getTypeAtLocation field) 0 = Ret (sentinel key)) ->
      walkProperty graph sdkImport sdkClientName sdkClientOptions self path node
      = walkProperty graph sdkImport sdkClientName sdkClientOptions self path node')
  /\ (forall self node,
         has HTTP_METHODS (getName node) = true ->
         path <> "" ->
         exists routeTypes,
           methodRouteTypes graph (getTypeAtLocation node) = Ret routeTypes
           /\ (forall key,
                  In key routeKeys ->
                  (forall field,
                      In field (getProperties (graph (getTypeAtLocation node))) ->
                      getName field <> key) ->
                  routeType routeTypes key = sentinel key)
           /\ (NoDup (map getName (getProperties (graph (getTypeAtLocation node)))) ->
               forall field text,
                 In field (getProperties (graph (getTypeAtLocation node))) ->
                 In (getName field) routeKeys ->
                 resolveTypeText graph (getTypeAtLocation field) 0 = Ret text ->
                 routeType routeTypes (getName field)
                 = if String.eqb (getName field) "params" then repairParams text
                   else text)
           /\ (forall parts,
                  walkProperty graph sdkImport sdkClientName sdkClientOptions self path
                    node = Ret parts
                  <-> exists bodyBlock paramsBlock queryBlock responseBlock,
                        slotOf "Body" "body" routeTypes bodyBlock
                        /\ slotOf "Params" "params" routeTypes paramsBlock
                        /\ slotOf "Query" "query" routeTypes queryBlock
                        /\ formatTypeBlock "Response" (response routeTypes)
                           = Ret responseBlock
                        /\ parts
                           = [ endpointHeading path (getName node);
                               String.concat nl
                                 (snippetLines path (getName node)
                                    (present routeTypes "body")
                                    (present routeTypes "params")
                                    (present routeTypes "query")
                                    (params routeTypes) sdkImport sdkClientName
                                    sdkClientOptions);
                               bodyBlock; paramsBlock; queryBlock; responseBlock;
                               "</details>" ++ nl ++ nl;
                               "---" ++ nl ++ nl ]))
  /\ (forall label typeStr block,
         formatTypeBlock label typeStr = Ret block ->
         Js.startsWith block ("**" ++ label ++ ":**") = true).
Proof.
  split; [|split].
  - intros self node node' key Hm Hname Hkey Hprops Hsentinel.
    unfold walkProperty. rewrite Hname, Hm.
    destruct (String.eqb path ""); [reflexivity|].
    unfold methodRouteTypes. rewrite Hprops.
    now rewrite <- (collectRouteTypes_without graph key).
  - intros self node Hm Hpath.
    destruct (collectRouteTypes_total graph
                (getProperties (graph (getTypeAtLocation node))) defaultRouteTypes)
      as [collected Hcollect].
    exists (mkRouteTypes (body collected) (repairParams (params collected))
              (query collected) (response collected)).
    split; [|split; [|split]].
    + unfold methodRouteTypes. now rewrite Hcollect.
    + intros key Hkey Hnone. rewrite routeType_repaired.
      rewrite (collectRouteTypes_keeps graph key _ Hkey Hnone _ _ Hcollect).
      simpl in Hkey. destruct Hkey as [<-|[<-|[<-|[<-|[]]]]]; reflexivity.
    + intros Hdup field text Hin Hkey Htext. rewrite routeType_repaired.
      now rewrite (collectRouteTypes_field graph _ field text Hdup Hin Hkey Htext
                     _ _ Hcollect).
    + intros parts. rewrite walk_method by assumption.
      unfold methodRouteTypes. rewrite Hcollect. cbn [bind].
      apply emitEndpoint_parts.
  - exact formatTypeBlock_inv.
Qed.

Lemma sentinel_fields_absent_witness :
  walkProperty Examples.unknownBody Examples.defaultImport "treaty" None
    (fun _ _ => Diverge) "/users" (mkSymbol "post" false 0)
  = walkProperty Examples.unknownBody Examples.defaultImport "treaty" None
      (fun _ _ => Diverge) "/users" (mkSymbol "post" false 1).
Proof.
  apply (proj1 (sentinel_fields_absent Examples.unknownBody Examples.defaultImport
                  "treaty" None "/users")
           (fun _ _ => Diverge) (mkSymbol "post" false 0) (mkSymbol "post" false 1)
           "body").
  - reflexivity.
  - reflexivity.
  - in_list.
  - reflexivity.
  - intros field Hin Hname. simpl in Hin.
    destruct Hin as [<-|[<-|[]]]; [reflexivity | discriminate Hname].
Defined.

(** ** The pretty-printer on text without brackets and separators *)

Lemma join_snoc (chunks : list string) (chunk : string) :
  Js.join (chunks ++ [chunk]) "" = Js.join chunks "" ++ chunk.
Proof.
  unfold Js.join. induction chunks as [|a l IH]; simpl.
  - reflexivity.
  - destruct l as [|b l]; simpl in *.
    + reflexivity.
    + now rewrite IH, append_assoc.
Qed.

Lemma str_eqb_space (c : ascii) : String.eqb (Js.str c) " " = Ascii.eqb c " ".
Proof.
  unfold Js.str. simpl. destruct (Ascii.eqb c " "); reflexivity.
Qed.

Lemma plain_cons (c : ascii) (rest : string) :
  plain (String c rest) = true ->
  (Ascii.eqb c "{" || Ascii.eqb c "[") = false
  /\ (Ascii.eqb c "}" || Ascii.eqb c "]") = false
  /\ (Ascii.eqb c ";" || Ascii.eqb c ",") = false
  /\ plain rest = true.
Proof.
  unfold plain. simpl. unfold isStructural.
  destruct (Ascii.eqb c "{"), (Ascii.eqb c "["), (Ascii.eqb c "}"),
    (Ascii.eqb c "]"), (Ascii.eqb c ";"), (Ascii.eqb c ","); simpl;
    intros H; try discriminate H; auto.
Qed.

(** On plain text the loop does not throw and appends [squeeze]. *)
Lemma prettyLoop_plain (s : string) :
  plain s = true ->
  forall st,
  exists st',
    prettyLoop st s = Ret st'
    /\ Js.join (chunks st') ""
       = Js.join (chunks st) ""
         ++ squeeze (inString st) (escaped st)
              (String.eqb (last (chunks st) "") " ") s.
Proof.
  induction s as [|c rest IH]; intros Hplain st.
  - exists st. split; [reflexivity|]. simpl. now rewrite append_empty.
  - apply plain_cons in Hplain. destruct Hplain as (Hopen & Hclose & Hsep & Hrest).
    cbn [prettyLoop squeeze]. unfold prettyStep.
    rewrite Hopen, Hclose, Hsep.
    destruct (escaped st) eqn:Hesc;
      [|destruct (Ascii.eqb_spec c "\") as [->|_];
        [|destruct (Ascii.eqb_spec c dquote) as [->|_];
          [|destruct (Ascii.eqb_spec c "'") as [->|_];
            [|destruct (inString st) eqn:Hin;
              [|destruct (negb (Ascii.eqb c " ")
                          || negb (String.eqb (last (chunks st) "") " "))
                  eqn:Hpush]]]]];
      cbn [bind orb].
    all: try (match goal with
              | |- context [prettyLoop ?st1 _] =>
                  destruct (IH Hrest st1) as [st' [Hrun Hjoin]];
                  exists st'; split; [exact Hrun|];
                  rewrite Hjoin; unfold push; cbn [chunks inString escaped];
                  rewrite join_snoc, last_last, append_assoc, ?str_eqb_space,
                    ?Hin, ?Hesc;
                  reflexivity
              end).
    (* a space behind a space, outside strings: nothing is pushed *)
    destruct (IH Hrest st) as [st' [Hrun Hjoin]].
    exists st'. split; [exact Hrun|]. rewrite Hjoin, Hin, Hesc.
    destruct (Ascii.eqb c " "); [|discriminate Hpush].
    destruct (String.eqb (last (chunks st) "") " "); [reflexivity|discriminate Hpush].
Qed.

Lemma squeeze_forallb (p : ascii -> bool) (s : string) :
  Js.forallb p s = true ->
  forall inS esc lastSp, Js.forallb p (squeeze inS esc lastSp s) = true.
Proof.
  induction s as [|c rest IH]; intros Hs inS esc lastSp; [reflexivity|].
  simpl in Hs. apply andb_prop in Hs. destruct Hs as [Hc Hrest].
  cbn [squeeze].
  repeat match goal with
         | |- context [if ?b then _ else _] => destruct b
         end; simpl; rewrite ?Hc; simpl; now apply IH.
Qed.

Lemma squeeze_length (s : string) :
  forall inS esc lastSp, String.length (squeeze inS esc lastSp s) <= String.length s.
Proof.
  induction s as [|c rest IH]; intros inS esc lastSp; [reflexivity|].
  cbn [squeeze].
  repeat match goal with
         | |- context [if ?b then _ else _] => destruct b
         end; simpl;
    match goal with
    | |- context [squeeze ?i ?e ?l rest] => specialize (IH i e l); lia
    end.
Qed.

(** A second pass over squeezed text changes nothing. *)
Lemma squeeze_idempotent (s : string) :
  forall inS esc lastSp,
    squeeze inS esc lastSp (squeeze inS esc lastSp s) = squeeze inS esc lastSp s.
Proof.
  induction s as [|c rest IH]; intros inS esc lastSp; [reflexivity|].
  cbn [squeeze].
  destruct esc; [cbn [squeeze]; now rewrite IH|].
  destruct (Ascii.eqb c "\") eqn:Hbs; [cbn [squeeze]; now rewrite Hbs, IH|].
  destruct (Ascii.eqb c dquote || Ascii.eqb c "'") eqn:Hq;
    [cbn [squeeze]; now rewrite Hbs, Hq, IH|].
  destruct inS; [cbn [squeeze]; now rewrite Hbs, Hq, IH|].
  destruct (negb (Ascii.eqb c " ") || negb lastSp) eqn:Hpush.
  - cbn [squeeze]. now rewrite Hbs, Hq, Hpush, IH.
  - apply IH.
Qed.

(** Text that a pass leaves alone is left alone whatever the last chunk
    was taken to be. *)
Lemma squeeze_fixed_relax (s : string) (inS esc lastSp : bool) :
  squeeze inS esc lastSp s = s -> squeeze inS esc false s = s.
Proof.
  destruct s as [|c rest]; [reflexivity|].
  cbn [squeeze]. intros H.
  destruct esc; [exact H|].
  destruct (Ascii.eqb c "\"); [exact H|].
  destruct (Ascii.eqb c dquote || Ascii.eqb c "'"); [exact H|].
  destruct inS; [exact H|].
  rewrite orb_true_r.
  destruct (negb (Ascii.eqb c " ") || negb lastSp); [exact H|].
  exfalso. pose proof (squeeze_length rest false false lastSp) as Hlen.
  rewrite H in Hlen. simpl in Hlen. lia.
Qed.

(** Every prefix of text that a pass leaves alone is left alone. *)
Lemma squeeze_fixed_prefix (a b : string) :
  forall inS esc lastSp,
    squeeze inS esc lastSp (a ++ b) = a ++ b -> squeeze inS esc lastSp a = a.
Proof.
  induction a as [|c a IH]; intros inS esc lastSp H; [reflexivity|].
  cbn [append squeeze] in *.
  destruct esc; [injection H as H; now rewrite (IH _ _ _ H)|].
  destruct (Ascii.eqb c "\"); [injection H as H; now rewrite (IH _ _ _ H)|].
  destruct (Ascii.eqb c dquote || Ascii.eqb c "'");
    [injection H as H; now rewrite (IH _ _ _ H)|].
  destruct inS; [injection H as H; now rewrite (IH _ _ _ H)|].
  destruct (negb (Ascii.eqb c " ") || negb lastSp);
    [injection H as H; now rewrite (IH _ _ _ H)|].
  exfalso. pose proof (squeeze_length (a ++ b) false false lastSp) as Hlen.
  rewrite H in Hlen. simpl in Hlen. lia.
Qed.

Lemma whiteSpace_not_special (c : ascii) :
  Js.isWhiteSpace c = true ->
  Ascii.eqb c "\" = false /\ (Ascii.eqb c dquote || Ascii.eqb c "'") = false.
Proof.
  intros H.
  destruct (Ascii.eqb_spec c "\") as [->|_]; [discriminate H|].
  destruct (Ascii.eqb_spec c dquote) as [->|_]; [discriminate H|].
  destruct (Ascii.eqb_spec c "'") as [->|_]; [discriminate H|].
  split; reflexivity.
Qed.

Lemma squeeze_fixed_trimStart (s : string) :
  squeeze false false false s = s ->
  squeeze false false false (Js.trimStart s) = Js.trimStart s.
Proof.
  induction s as [|c rest IH]; intros H; [reflexivity|].
  cbn [Js.trimStart]. destruct (Js.isWhiteSpace c) eqn:Hws; [|exact H].
  apply IH. destruct (whiteSpace_not_special c Hws) as [Hbs Hq].
  cbn [squeeze] in H. rewrite Hbs, Hq, orb_true_r in H.
  injection H as H. now apply squeeze_fixed_relax in H.
Qed.

Lemma trimEnd_prefix (s : string) : exists rest, s = Js.trimEnd s ++ rest.
Proof.
  induction s as [|c s [rest IH]]; [now exists ""|].
  cbn [Js.trimEnd]. destruct (Js.trimEnd s) as [|d t] eqn:E.
  - destruct (Js.isWhiteSpace c).
    + now exists (String c s).
    + exists s. reflexivity.
  - exists rest. simpl. now rewrite IH at 1.
Qed.

Lemma squeeze_fixed_trim (s : string) :
  squeeze false false false s = s ->
  squeeze false false false (Js.trim s) = Js.trim s.
Proof.
  intros H. apply squeeze_fixed_trimStart in H. unfold Js.trim.
  destruct (trimEnd_prefix (Js.trimStart s)) as [rest Hrest].
  apply (squeeze_fixed_prefix _ rest). now rewrite <- Hrest.
Qed.

Lemma trimStart_forallb (p : ascii -> bool) (s : string) :
  Js.forallb p s = true -> Js.forallb p (Js.trimStart s) = true.
Proof.
  induction s as [|c rest IH]; intros H; [reflexivity|].
  cbn [Js.trimStart]. destruct (Js.isWhiteSpace c); [|exact H].
  simpl in H. apply andb_prop in H. now apply IH.
Qed.

Lemma trimEnd_forallb (p : ascii -> bool) (s : string) :
  Js.forallb p s = true -> Js.forallb p (Js.trimEnd s) = true.
Proof.
  induction s as [|c rest IH]; intros H; [reflexivity|].
  simpl in H. apply andb_prop in H. destruct H as [Hc Hrest].
  cbn [Js.trimEnd]. specialize (IH Hrest).
  destruct (Js.trimEnd rest) as [|d t].
  - destruct (Js.isWhiteSpace c); simpl; [reflexivity | now rewrite Hc].
  - change (Js.forallb p (String c (String d t)))
      with (p c && Js.forallb p (String d t)).
    now rewrite Hc, IH.
Qed.

Lemma trimEnd_idempotent (s : string) : Js.trimEnd (Js.trimEnd s) = Js.trimEnd s.
Proof.
  induction s as [|c rest IH]; [reflexivity|].
  cbn [Js.trimEnd]. destruct (Js.trimEnd rest) as [|d t] eqn:E.
  - destruct (Js.isWhiteSpace c) eqn:Hws; [reflexivity|].
    unfold Js.str. cbn [Js.trimEnd]. now rewrite Hws.
  - cbn [Js.trimEnd] in *. now rewrite IH.
Qed.

Lemma trimStart_trimmed (s : string) :
  Js.trimStart (Js.trimEnd (Js.trimStart s)) = Js.trimEnd (Js.trimStart s).
Proof.
  induction s as [|c rest IH]; [reflexivity|].
  cbn [Js.trimStart]. destruct (Js.isWhiteSpace c) eqn:Hws; [exact IH|].
  cbn [Js.trimEnd]. destruct (Js.trimEnd rest) as [|d t].
  - rewrite Hws. unfold Js.str. cbn [Js.trimStart]. now rewrite Hws.
  - cbn [Js.trimStart]. now rewrite Hws.
Qed.

Lemma trim_idempotent (s : string) : Js.trim (Js.trim s) = Js.trim s.
Proof.
  unfold Js.trim. now rewrite trimStart_trimmed, trimEnd_idempotent.
Qed.

(** Without a semicolon or comma there is no blank line to collapse. *)
Lemma collapseBlankLines_plain (s : string) :
  plain s = true -> collapseBlankLines s = s.
Proof.
  unfold collapseBlankLines, Re.replaceAll.
  induction s as [|c rest IH]; intros H; [reflexivity|].
  apply plain_cons in H. destruct H as (_ & _ & Hsep & Hrest).
  cbn [Re.replaceFrom].
  assert (Hnone : BLANK_LINE_RE (String c rest) = None).
  { unfold BLANK_LINE_RE. destruct rest; [reflexivity|]. now rewrite Hsep. }
  now rewrite Hnone, IH.
Qed.

Lemma prettyPrintType_plain (s : string) :
  plain s = true ->
  prettyPrintType s = Ret (Js.trim (squeeze false false false s)).
Proof.
  intros H. unfold prettyPrintType.
  destruct (prettyLoop_plain s H prettyInit) as [st [Hrun Hjoin]].
  rewrite Hrun. cbn [bind]. rewrite Hjoin. cbn.
  rewrite collapseBlankLines_plain; [reflexivity|].
  now apply squeeze_forallb.
Qed.

Lemma trim_squeeze_plain (s : string) :
  plain s = true -> plain (Js.trim (squeeze false false false s)) = true.
Proof.
  intros H. unfold plain, Js.trim.
  apply trimEnd_forallb, trimStart_forallb. now apply squeeze_forallb.
Qed.

(** C2, as amended.  On every string that contains no brace, bracket,
    semicolon or comma the pretty-printer is idempotent: printing its
    own output gives that output again. *)
Theorem prettyPrintType_idempotent_plain (s : string) :
  plain s = true ->
  (printed <- prettyPrintType s ;; prettyPrintType printed) = prettyPrintType s.
Proof.
  intros H. rewrite (prettyPrintType_plain s H). cbn [bind].
  rewrite (prettyPrintType_plain _ (trim_squeeze_plain s H)).
  rewrite squeeze_fixed_trim by apply squeeze_idempotent.
  now rewrite trim_idempotent.
Qed.

Lemma prettyPrintType_idempotent_plain_witness :
  (printed <- prettyPrintType "  string |  null " ;; prettyPrintType printed)
  = prettyPrintType "  string |  null ".
Proof.
  apply (prettyPrintType_idempotent_plain "  string |  null "). reflexivity.
Defined.

(** The pretty-printer is not idempotent: its output for [{}] holds a
    line break and an indentation that a second pass treats as text. *)
Lemma prettyPrintType_not_idempotent :
  ~ (forall s,
        (printed <- prettyPrintType s ;; prettyPrintType printed) = prettyPrintType s).
Proof.
  intros H. specialize (H "{}"). vm_compute in H. discriminate H.
Qed.

(** ** Concrete runs *)

Example prettyPrintType_empty_object :
  prettyPrintType "{}" = Ret ("{" ++ nl ++ "  " ++ nl ++ "}").
Proof. reflexivity. Qed.

Example prettyPrintType_second_pass :
  prettyPrintType ("{" ++ nl ++ "  " ++ nl ++ "}")
  = Ret ("{" ++ nl ++ "  " ++ nl ++ " " ++ nl ++ nl ++ "}").
Proof. reflexivity. Qed.

(** A closing brace without its opening one makes [repeat] throw. *)
Example prettyPrintType_unbalanced : prettyPrintType "}" = Throw RangeError.
Proof. reflexivity. Qed.

Example prettyPrintType_record :
  prettyPrintType "{ id: number; name: string }"
  = Ret ("{" ++ nl ++ "   id: number;" ++ nl ++ "   name: string " ++ nl ++ "}").
Proof. reflexivity. Qed.

Example parseParamsFromPath_root_parameter : parseParamsFromPath ":id/posts" = "{}".
Proof. reflexivity. Qed.

Example repairParams_not_literal :
  repairParams "_ResolvePath<string>" = "_ResolvePath<string>".
Proof. reflexivity. Qed.

Example resolveTypeText_boolean_union :
  resolveTypeText
    (Examples.graphOf
       [ Examples.union "boolean | null | string" [1; 2; 3; 2; 4];
         Examples.primitive "null"; Examples.primitive "false";
         Examples.primitive "string"; Examples.primitive "true" ]) 0 0
  = Ret "string | boolean | null".
Proof. reflexivity. Qed.

Example resolveTypeText_symbol_keyed :
  resolveTypeText Examples.symbolKeyed 0 0
  = Ret "{ [Symbol.iterator]: () => void; } & { [Symbol.asyncIterator]: () => void; }".
Proof. reflexivity. Qed.

Example resolveTypeText_cyclic_at_guard :
  resolveTypeText Examples.cyclic 0 10
  = Ret "{ next: { next: Node | null | null } }".
Proof. reflexivity. Qed.

(** Reached at [/api], the routes behind [~Routes] start again at the
    root. *)
Example mounted_heading :
  exists docs,
    generateDocsFromType Examples.mounted Examples.defaultImport "treaty" None 5 0 "/api"
    = Ret docs
    /\ Js.startsWith docs "### GET /users" = true.
Proof. eexists. split; reflexivity. Qed.

Example buildClientPath_segments :
  buildClientPath "/users/:id/my-posts" = "client.users[params.id][" ++ DQ ++ "my-posts" ++ DQ ++ "]".
Proof. reflexivity. Qed.

(** * Further properties *)

(** ** Properties the walker steps over *)

Lemma mapM_app {A B : Type} (f : A -> outcome B) (l1 l2 : list A) :
  mapM f (l1 ++ l2)
  = (bs1 <- mapM f l1 ;; bs2 <- mapM f l2 ;; Ret (bs1 ++ bs2)%list).
Proof.
  induction l1 as [|a l1 IH]; simpl.
  - destruct (mapM f l2); reflexivity.
  - destruct (f a) as [b| |]; simpl; try reflexivity.
    rewrite IH. destruct (mapM f l1) as [bs1| |]; simpl; try reflexivity.
    destruct (mapM f l2); reflexivity.
Qed.

Lemma mapM_Ret_inv {A B : Type} (f : A -> outcome B) (l : list A) (bs : list B) :
  mapM f l = Ret bs -> forall a, In a l -> exists b, f a = Ret b.
Proof.
  revert bs. induction l as [|x l IH]; intros bs H a Ha; [contradiction|].
  simpl in H. destruct (f x) as [b| |] eqn:Hx; simpl in H; try discriminate H.
  destruct (mapM f l) as [bs'| |] eqn:Hl; simpl in H; try discriminate H.
  destruct Ha as [<-|Ha]; [now exists b | now apply (IH bs')].
Qed.

Lemma join_app (l1 l2 : list string) :
  Js.join (l1 ++ l2) "" = Js.join l1 "" ++ Js.join l2 "".
Proof.
  unfold Js.join. induction l1 as [|a l1 IH]; [reflexivity|].
  destruct l1 as [|b l1].
  - simpl. destruct l2; simpl; [now rewrite append_empty | reflexivity].
  - change (String.concat "" ((a :: b :: l1) ++ l2))
      with (a ++ "" ++ String.concat "" ((b :: l1) ++ l2)).
    change (String.concat "" (a :: b :: l1))
      with (a ++ "" ++ String.concat "" (b :: l1)).
    rewrite IH. simpl. now rewrite append_assoc.
Qed.

(** Joined parts of a walk over [keep]-filtered properties when the
    others push nothing. *)
Lemma mapM_filter_nothing {A : Type} (f : A -> outcome (list string))
  (keep : A -> bool) (l : list A) :
  (forall a, keep a = false -> f a = Ret []) ->
  (parts <- mapM f l ;; Ret (Js.join (List.concat parts) ""))
  = (parts <- mapM f (filter keep l) ;; Ret (Js.join (List.concat parts) "")).
Proof.
  intros Hskip. induction l as [|a l IH]; [reflexivity|].
  cbn [filter]. destruct (keep a) eqn:Ha.
  - cbn [mapM]. destruct (f a) as [b| |]; cbn [bind]; try reflexivity.
    destruct (mapM f l) as [bs| |]; destruct (mapM f (filter keep l)) as [bs'| |];
      cbn [bind] in *; try discriminate IH; try reflexivity; try exact IH.
    injection IH as IH. cbn [List.concat]. now rewrite !join_app, IH.
  - cbn [mapM]. rewrite (Hskip a Ha). cbn [bind].
    rewrite <- IH. destruct (mapM f l); reflexivity.
Qed.

Lemma formatTypeBlock_not_diverge (label typeStr : string) :
  formatTypeBlock label typeStr <> Diverge.
Proof.
  unfold formatTypeBlock, prettyPrintType.
  assert (Hloop : forall s st, prettyLoop st s <> Diverge).
  { induction s as [|c s IH]; intros st; [discriminate|].
    cbn [prettyLoop]. unfold prettyStep, Js.repeat.
    repeat match goal with
           | |- context [if ?b then _ else _] => destruct b
           end; cbn [bind]; first [discriminate | apply IH]. }
  specialize (Hloop typeStr prettyInit).
  destruct (prettyLoop prettyInit typeStr); cbn [bind]; congruence.
Qed.

Lemma emitEndpoint_not_diverge (sdkImport sdkClientName : string)
  (sdkClientOptions : option string) (path method : string) (routeTypes : RouteTypes) :
  emitEndpoint sdkImport sdkClientName sdkClientOptions path method routeTypes
  <> Diverge.
Proof.
  unfold emitEndpoint.
  repeat match goal with
         | |- context [bind (if ?b then _ else _) _] => destruct b
         | |- context [bind (formatTypeBlock ?l ?t) _] =>
             let E := fresh "E" in
             destruct (formatTypeBlock l t) eqn:E; cbn [bind];
             [ | discriminate | exfalso; exact (formatTypeBlock_not_diverge _ _ E)]
         | |- context [bind (Ret ?x) _] => cbn [bind]
         end; discriminate.
Qed.

Section WalkerSteps.

Variable graph : TypeGraph.
Variables sdkImport sdkClientName : string.
Variable sdkClientOptions : option string.

Local Abbreviation walk := (walkProperty graph sdkImport sdkClientName sdkClientOptions).
Local Abbreviation docsOf := (generateDocsFromType graph sdkImport sdkClientName sdkClientOptions).

Lemma walk_steppedOver self path prop :
  steppedOver path (getName prop) = true -> walk self path prop = Ret [].
Proof.
  unfold steppedOver, walkProperty.
  destruct (has HTTP_METHODS (getName prop)); [now intros ->|].
  destruct (String.eqb (getName prop) "~Routes"); [discriminate|].
  cbn [negb andb]. intros H. rewrite <- !negb_orb, H. reflexivity.
Qed.

(** A property that is walked into gives the walk of its type. *)
Lemma walk_descends self path prop :
  descends (getName prop) = true ->
  walk self path prop
  = (docs <- self (getTypeAtLocation prop) (nextPath path (getName prop)) ;;
     Ret [docs]).
Proof.
  unfold descends, walkProperty, nextPath.
  destruct (has HTTP_METHODS (getName prop)); [discriminate|]. cbn [negb andb].
  destruct (String.eqb (getName prop) "~Routes"); [reflexivity|].
  cbn [orb]. now intros ->.
Qed.

Lemma walk_method_not_diverge self path prop :
  has HTTP_METHODS (getName prop) = true -> walk self path prop <> Diverge.
Proof.
  intros Hm. unfold walkProperty. rewrite Hm.
  destruct (String.eqb path ""); [discriminate|].
  unfold methodRouteTypes.
  assert (Hcollect : forall props rt,
             exists rt', collectRouteTypes graph rt props = Ret rt').
  { induction props as [|p props IH]; intros rt; [now exists rt|].
    cbn [collectRouteTypes]. destruct (inRouteTypes (getName p)); [|apply IH].
    destruct (resolveTypeText_total graph (getTypeAtLocation p) 0) as [text ->].
    cbn [bind]. apply IH. }
  destruct (Hcollect (getProperties (graph (getTypeAtLocation prop))) defaultRouteTypes)
    as [rt ->].
  cbn [bind]. apply emitEndpoint_not_diverge.
Qed.

End WalkerSteps.

(** X1.  Properties that the walker steps over leave no trace: a node
    documents as the node without its HTTP-method properties when the
    path is empty, and without its internal properties and those whose
    name starts with [~] (other than [~Routes]) or [_], whatever types
    they have. *)
Theorem stepped_over_properties_leave_no_trace (graph : TypeGraph)
  (sdkImport sdkClientName : string) (sdkClientOptions : option string)
  (fuel : nat) (type type' : TsType) (path : string) :
  getProperties (graph type')
  = filter (fun prop => negb (steppedOver path (getName prop)))
      (getProperties (graph type)) ->
  generateDocsFromType graph sdkImport sdkClientName sdkClientOptions fuel type path
  = generateDocsFromType graph sdkImport sdkClientName sdkClientOptions fuel type' path.
Proof.
  intros Hprops. destruct fuel as [|fuel]; [reflexivity|].
  cbn [generateDocsFromType]. unfold generateDocsFromType_body. rewrite Hprops.
  apply mapM_filter_nothing. intros prop Hprop.
  apply walk_steppedOver. now apply negb_false_iff in Hprop.
Qed.

Lemma stepped_over_properties_leave_no_trace_witness :
  generateDocsFromType Examples.cluttered Examples.defaultImport "treaty" None 3 0 ""
  = generateDocsFromType Examples.cluttered Examples.defaultImport "treaty" None 3 1 "".
Proof.
  apply (stepped_over_properties_leave_no_trace Examples.cluttered
           Examples.defaultImport "treaty" None 3 0 1 "").
  reflexivity.
Defined.

(** X2.  The document of a node is the concatenation, in declaration
    order, of the documents of its properties: a node whose properties
    are those of one node followed by those of another documents as the
    first followed by the second, and fails as the first one that fails. *)
Theorem documents_concatenate (graph : TypeGraph) (sdkImport sdkClientName : string)
  (sdkClientOptions : option string) (fuel : nat) (type first second : TsType)
  (path : string) :
  getProperties (graph type)
  = (getProperties (graph first) ++ getProperties (graph second))%list ->
  generateDocsFromType graph sdkImport sdkClientName sdkClientOptions (S fuel) type path
  = (docs1 <- generateDocsFromType graph sdkImport sdkClientName sdkClientOptions
                (S fuel) first path ;;
     docs2 <- generateDocsFromType graph sdkImport sdkClientName sdkClientOptions
                (S fuel) second path ;;
     Ret (docs1 ++ docs2)).
Proof.
  intros Hprops. cbn [generateDocsFromType]. unfold generateDocsFromType_body.
  rewrite Hprops, mapM_app.
  destruct (mapM _ (getProperties (graph first))) as [parts1| |]; cbn [bind];
    try reflexivity.
  destruct (mapM _ (getProperties (graph second))) as [parts2| |]; cbn [bind];
    try reflexivity.
  now rewrite concat_app, join_app.
Qed.

Lemma documents_concatenate_witness :
  generateDocsFromType Examples.twoRoutes Examples.defaultImport "treaty" None 3 0 ""
  = (docs1 <- generateDocsFromType Examples.twoRoutes Examples.defaultImport "treaty"
                None 3 1 "" ;;
     docs2 <- generateDocsFromType Examples.twoRoutes Examples.defaultImport "treaty"
                None 3 2 "" ;;
     Ret (docs1 ++ docs2)).
Proof.
  apply (documents_concatenate Examples.twoRoutes Examples.defaultImport "treaty" None
           2 0 1 2 "").
  reflexivity.
Defined.

Lemma mapM_not_diverge {A B : Type} (f : A -> outcome B) (l : list A) :
  (forall a, In a l -> f a <> Diverge) -> mapM f l <> Diverge.
Proof.
  induction l as [|a l IH]; intros H; [discriminate|].
  cbn [mapM]. pose proof (H a (or_introl eq_refl)) as Ha.
  destruct (f a); cbn [bind]; try congruence.
  assert (Hl : mapM f l <> Diverge) by (apply IH; intros x Hx; apply H; now right).
  destruct (mapM f l); cbn [bind]; congruence.
Qed.

Lemma descends_or_not (name : string) :
  descends name = true
  \/ has HTTP_METHODS name = true
  \/ (forall path, steppedOver path name = true).
Proof.
  unfold descends, steppedOver.
  destruct (has HTTP_METHODS name); [right; left; reflexivity|].
  destruct (String.eqb name "~Routes"); [left; reflexivity|].
  destruct (has INTERNAL_PROPS name), (Js.startsWith name "~"),
    (Js.startsWith name "_"); cbn; auto.
Qed.

(** X3.  On a route tree of finite height the walker returns or throws:
    with an unrolling for every level it does not run out, and further
    unrolling does not change its result. *)
Theorem walker_terminates_on_finite_trees (graph : TypeGraph)
  (sdkImport sdkClientName : string) (sdkClientOptions : option string)
  (type : TsType) (height : nat) :
  Height graph type height ->
  forall fuel path,
    height <= fuel ->
    generateDocsFromType graph sdkImport sdkClientName sdkClientOptions fuel type path
    <> Diverge
    /\ generateDocsFromType graph sdkImport sdkClientName sdkClientOptions fuel type path
       = generateDocsFromType graph sdkImport sdkClientName sdkClientOptions height
           type path.
Proof.
  induction 1 as [type n _ IH]. intros fuel path Hfuel.
  destruct fuel as [|fuel]; [lia|].
  cbn [generateDocsFromType]. unfold generateDocsFromType_body.
  assert (Hwalk : forall prop,
    In prop (getProperties (graph type)) ->
    walkProperty graph sdkImport sdkClientName sdkClientOptions
      (generateDocsFromType graph sdkImport sdkClientName sdkClientOptions fuel)
      path prop <> Diverge
    /\ walkProperty graph sdkImport sdkClientName sdkClientOptions
         (generateDocsFromType graph sdkImport sdkClientName sdkClientOptions fuel)
         path prop
       = walkProperty graph sdkImport sdkClientName sdkClientOptions
           (generateDocsFromType graph sdkImport sdkClientName sdkClientOptions n)
           path prop).
  { intros prop Hin.
    destruct (descends_or_not (getName prop)) as [Hd|[Hm|Hs]].
    - rewrite !walk_descends by exact Hd.
      destruct (IH prop Hin Hd fuel (nextPath path (getName prop))) as [Hnd Heq];
        [lia|].
      destruct (IH prop Hin Hd n (nextPath path (getName prop))) as [_ Heq'];
        [lia|].
      rewrite Heq. split; [|reflexivity].
      destruct (generateDocsFromType _ _ _ _ n _ _) eqn:E; cbn [bind];
        try discriminate.
      rewrite <- Heq in E. contradiction.
    - split; [now apply walk_method_not_diverge|].
      unfold walkProperty. now rewrite Hm.
    - split; now rewrite !walk_steppedOver by apply Hs. }
  split.
  - intros Hdiv.
    assert (Hm : mapM (walkProperty graph sdkImport sdkClientName sdkClientOptions
                         (generateDocsFromType graph sdkImport sdkClientName
                            sdkClientOptions fuel) path)
                   (getProperties (graph type)) <> Diverge).
    { apply mapM_not_diverge. intros prop Hin. now apply Hwalk. }
    destruct (mapM _ (getProperties (graph type))); cbn [bind] in Hdiv; congruence.
  - rewrite (mapM_ext _ (walkProperty graph sdkImport sdkClientName sdkClientOptions
                           (generateDocsFromType graph sdkImport sdkClientName
                              sdkClientOptions n) path)); [reflexivity|].
    intros prop Hin. now apply Hwalk.
Qed.

Lemma walker_terminates_on_finite_trees_witness :
  generateDocsFromType Examples.mounted Examples.defaultImport "treaty" None 5 0 "/api"
  <> Diverge
  /\ generateDocsFromType Examples.mounted Examples.defaultImport "treaty" None 5 0 "/api"
     = generateDocsFromType Examples.mounted Examples.defaultImport "treaty" None 3 0
         "/api".
Proof.
  apply (walker_terminates_on_finite_trees Examples.mounted Examples.defaultImport
           "treaty" None 0 3); [|lia].
  apply height_node. intros p1 H1 _. simpl in H1. destruct H1 as [<-|[]].
  apply height_node. intros p2 H2 _. simpl in H2. destruct H2 as [<-|[]].
  apply height_node. intros p3 H3 Hd. simpl in H3. destruct H3 as [<-|[]].
  discriminate Hd.
Defined.

(** X4.  The walker has no guard against cycles: on a type that has a
    walked-into property of its own type it never returns a document,
    however far the recursion is unrolled. *)
Theorem walker_never_returns_on_cycle (graph : TypeGraph)
  (sdkImport sdkClientName : string) (sdkClientOptions : option string)
  (type : TsType) (prop : Symbol) :
  In prop (getProperties (graph type)) ->
  descends (getName prop) = true ->
  getTypeAtLocation prop = type ->
  forall fuel path docs,
    generateDocsFromType graph sdkImport sdkClientName sdkClientOptions fuel type path
    <> Ret docs.
Proof.
  intros Hin Hd Hself. induction fuel as [|fuel IH]; intros path docs; [discriminate|].
  cbn [generateDocsFromType]. unfold generateDocsFromType_body. intros H.
  destruct (mapM _ (getProperties (graph type))) as [parts| |] eqn:Hparts;
    cbn [bind] in H; try discriminate H.
  destruct (mapM_Ret_inv _ _ _ Hparts prop Hin) as [part Hpart].
  rewrite walk_descends in Hpart by exact Hd. rewrite Hself in Hpart.
  destruct (generateDocsFromType _ _ _ _ fuel type _) as [inner| |] eqn:E;
    cbn [bind] in Hpart; try discriminate Hpart.
  exact (IH _ _ E).
Qed.

Lemma walker_never_returns_on_cycle_witness :
  generateDocsFromType Examples.cyclic Examples.defaultImport "treaty" None 50 0 ""
  <> Ret "".
Proof.
  apply (walker_never_returns_on_cycle Examples.cyclic Examples.defaultImport "treaty"
           None 0 (Examples.member "next" 0)).
  - left. reflexivity.
  - reflexivity.
  - reflexivity.
Defined.

(** ** Route types of a method node *)

Lemma setRouteType_other (routeTypes : RouteTypes) (key value : string) :
  isRouteKey key = false -> setRouteType routeTypes key value = routeTypes.
Proof.
  unfold isRouteKey, has, Js.includes, setRouteType. cbn [List.existsb].
  rewrite !(String.eqb_sym key).
  destruct (String.eqb "body" key), (String.eqb "params" key),
    (String.eqb "query" key), (String.eqb "response" key); try discriminate.
  reflexivity.
Qed.

(** X5.  A method node is read under [body], [params], [query] and
    [response] only: properties of any other name, those that pass the
    [in] test through [Object.prototype] included, do not change the
    route types of the endpoint. *)
Theorem other_properties_do_not_change_route_types (graph : TypeGraph)
  (propType propType' : TsType) :
  getProperties (graph propType')
  = filter (fun field => isRouteKey (getName field)) (getProperties (graph propType)) ->
  methodRouteTypes graph propType = methodRouteTypes graph propType'.
Proof.
  intros Hprops. unfold methodRouteTypes. rewrite Hprops. clear Hprops. f_equal.
  generalize defaultRouteTypes.
  induction (getProperties (graph propType)) as [|field rest IH]; intros rt;
    [reflexivity|].
  cbn [filter collectRouteTypes].
  destruct (isRouteKey (getName field)) eqn:Hkey.
  - cbn [collectRouteTypes].
    destruct (inRouteTypes (getName field)); [|apply IH].
    destruct (resolveTypeText graph (getTypeAtLocation field) 0); cbn [bind];
      try reflexivity.
    apply IH.
  - destruct (inRouteTypes (getName field)); [|apply IH].
    destruct (resolveTypeText_total graph (getTypeAtLocation field) 0) as [text ->].
    cbn [bind]. rewrite setRouteType_other by exact Hkey. apply IH.
Qed.

Lemma other_properties_do_not_change_route_types_witness :
  methodRouteTypes Examples.cluttered 3 = methodRouteTypes Examples.cluttered 5.
Proof.
  apply (other_properties_do_not_change_route_types Examples.cluttered 3 5).
  reflexivity.
Defined.

(** ** Dispatch of the normalizer *)

Section DispatchFacts.

Variable graph : TypeGraph.

Lemma resolveTypeText_array type depth :
  depth <= MAX_RESOLVE_DEPTH ->
  isArray (graph type) = true ->
  resolveTypeText graph type depth
  = resolveArray graph (resolveTypeText graph) (graph type) depth.
Proof.
  intros Hd Ha. rewrite resolveTypeText_eq. unfold resolveTypeText_body.
  apply Nat.ltb_ge in Hd. now rewrite Hd, Ha.
Qed.

Lemma resolveTypeText_tuple type depth :
  depth <= MAX_RESOLVE_DEPTH ->
  isArray (graph type) = false ->
  isTuple (graph type) = true ->
  resolveTypeText graph type depth
  = resolveTuple (resolveTypeText graph) (graph type) depth.
Proof.
  intros Hd Ha Ht. rewrite resolveTypeText_eq. unfold resolveTypeText_body.
  apply Nat.ltb_ge in Hd. now rewrite Hd, Ha, Ht.
Qed.

Lemma resolveTypeText_generic type depth :
  depth <= MAX_RESOLVE_DEPTH ->
  isArray (graph type) = false ->
  isTuple (graph type) = false ->
  isUnion (graph type) = false ->
  isIntersection (graph type) = false ->
  resolveTypeText graph type depth
  = (generic <- resolveKnownGeneric (resolveTypeText graph) (graph type) depth ;;
     match generic with
     | Some text => Ret text
     | None =>
         if isObject (graph type)
         then resolveObject (resolveTypeText graph) (graph type) depth
         else Ret (getText (graph type))
     end).
Proof.
  intros Hd Ha Ht Hu Hi. rewrite resolveTypeText_eq. unfold resolveTypeText_body.
  apply Nat.ltb_ge in Hd. now rewrite Hd, Ha, Ht, Hu, Hi.
Qed.

Lemma notCollapsed_spec self T depth :
  notCollapsed T -> collapseExpandedArray self T depth = Ret None.
Proof.
  unfold notCollapsed, collapseExpandedArray. intros [->|H]; [reflexivity|].
  destruct (getNumberIndexType T); [|reflexivity].
  unfold fingerprintReached.
  destruct (Nat.leb_spec (3 * List.length ARRAY_FINGERPRINT)
              (4 * fingerprintMatches (getProperties T))); [lia | reflexivity].
Qed.

End DispatchFacts.

(** X6.  An array below the depth guard renders from its element type:
    [unknown[]] when the type checker gives no element type, [Array<E>]
    when the element type is a union or an intersection, [E[]]
    otherwise, [E] being the element type normalized one level deeper. *)
Theorem array_rendering (graph : TypeGraph) (type : TsType) (depth : nat) :
  depth <= MAX_RESOLVE_DEPTH ->
  isArray (graph type) = true ->
  match getArrayElementType (graph type) with
  | None => resolveTypeText graph type depth = Ret "unknown[]"
  | Some element =>
      exists E,
        resolveTypeText graph element (depth + 1) = Ret E
        /\ resolveTypeText graph type depth
           = Ret (arrayText (isUnion (graph element) || isIntersection (graph element))
                    E)
  end.
Proof.
  intros Hd Ha. rewrite resolveTypeText_array by assumption. unfold resolveArray.
  destruct (getArrayElementType (graph type)) as [element|]; [|reflexivity].
  destruct (resolveTypeText_total graph element (depth + 1)) as [E HE].
  exists E. split; [exact HE|]. rewrite HE. cbn [bind]. unfold arrayText.
  now destruct (isUnion (graph element) || isIntersection (graph element)).
Qed.

Lemma array_rendering_witness :
  exists E,
    resolveTypeText Examples.containers 1 (0 + 1) = Ret E
    /\ resolveTypeText Examples.containers 0 0
       = Ret (arrayText
                (isUnion (Examples.containers 1) || isIntersection (Examples.containers 1))
                E).
Proof.
  apply (array_rendering Examples.containers 0 0);
    [unfold MAX_RESOLVE_DEPTH; lia | reflexivity].
Defined.

(** X7.  A tuple below the depth guard renders as its elements,
    normalized one level deeper and in their order, joined by a comma
    and a space between brackets; the empty tuple renders as [[]]. *)
Theorem tuple_rendering (graph : TypeGraph) (type : TsType) (depth : nat) :
  depth <= MAX_RESOLVE_DEPTH ->
  isArray (graph type) = false ->
  isTuple (graph type) = true ->
  exists elements,
    Forall2 (fun element text => resolveTypeText graph element (depth + 1) = Ret text)
      (getTupleElements (graph type)) elements
    /\ resolveTypeText graph type depth
       = Ret ("[" ++ String.concat ", " elements ++ "]")
    /\ (getTupleElements (graph type) = [] ->
        resolveTypeText graph type depth = Ret "[]").
Proof.
  intros Hd Ha Ht.
  destruct (recur_Forall2 graph depth (getTupleElements (graph type)))
    as [elements [Hrun Hall]].
  exists elements. split; [exact Hall|].
  rewrite resolveTypeText_tuple by assumption. unfold resolveTuple.
  rewrite Hrun. cbn [bind]. split; [reflexivity|].
  intros Hnil. rewrite Hnil in Hall. inversion Hall. reflexivity.
Qed.

Lemma tuple_rendering_witness :
  resolveTypeText Examples.containers 4 0 = Ret "[string, number]".
Proof.
  destruct (tuple_rendering Examples.containers 4 0)
    as [elements [Hall [Hres _]]];
    [unfold MAX_RESOLVE_DEPTH; lia | reflexivity | reflexivity |].
  apply Forall2_mapM in Hall. vm_compute in Hall. injection Hall as <-.
  exact Hres.
Defined.

(** X8.  A type named after a well-known generic keeps its name: below
    the depth guard, a type that is no array, tuple, union or
    intersection and whose symbol (its alias symbol when it has no
    symbol of its own) is in [KNOWN_GENERICS] renders as that name
    applied to its normalized type arguments, those of the alias when it
    has none of its own, and as the bare name without arguments. *)
Theorem known_generic_rendering (graph : TypeGraph) (type : TsType) (depth : nat)
  (name : string) :
  depth <= MAX_RESOLVE_DEPTH ->
  isArray (graph type) = false ->
  isTuple (graph type) = false ->
  isUnion (graph type) = false ->
  isIntersection (graph type) = false ->
  orElse (getSymbol (graph type)) (getAliasSymbol (graph type)) = Some name ->
  In name KNOWN_GENERICS ->
  exists args,
    Forall2 (fun argument text => resolveTypeText graph argument (depth + 1) = Ret text)
      (typeArgumentsOf (graph type)) args
    /\ resolveTypeText graph type depth = Ret (genericText name args).
Proof.
  intros Hd Ha Ht Hu Hi Hname Hknown.
  destruct (recur_Forall2 graph depth (typeArgumentsOf (graph type)))
    as [args [Hrun Hall]].
  exists args. split; [exact Hall|].
  rewrite resolveTypeText_generic by assumption.
  unfold resolveKnownGeneric. rewrite Hname.
  unfold has. rewrite (includes_In _ _ Hknown).
  unfold typeArgumentsOf in *.
  destruct (getTypeArguments (graph type)) as [|a l] eqn:Hown.
  - destruct (getAliasTypeArguments (graph type)) as [|b l'] eqn:Halias.
    + inversion Hall. reflexivity.
    + cbn [List.length Nat.ltb Nat.leb]. rewrite Hrun. cbn [bind].
      inversion Hall; subst. reflexivity.
  - cbn [List.length Nat.ltb Nat.leb]. rewrite Hrun. cbn [bind].
    inversion Hall; subst. reflexivity.
Qed.

Lemma known_generic_rendering_witness :
  resolveTypeText Examples.containers 6 0 = Ret "Promise<string[]>".
Proof.
  assert (Hknown : In "Promise" KNOWN_GENERICS) by in_list.
  assert (Hdepth : 0 <= MAX_RESOLVE_DEPTH) by (unfold MAX_RESOLVE_DEPTH; lia).
  destruct (known_generic_rendering Examples.containers 6 0 "Promise" Hdepth
              eq_refl eq_refl eq_refl eq_refl eq_refl Hknown)
    as [args [Hall Hres]].
  apply Forall2_mapM in Hall. vm_compute in Hall. injection Hall as <-.
  exact Hres.
Defined.

Lemma entries_none_symbol (graph : TypeGraph) (depth : nat) (properties : list Symbol)
  (entries : list string) :
  propertyEntries (resolveTypeText graph) properties depth = Ret entries ->
  ~ Exists (fun prop => IntersectionSpec.symbolLike prop = false) properties ->
  entries = [].
Proof.
  intros Hrun Hnone.
  destruct (propertyEntries_spec graph depth properties) as [es [Hes [_ Hne]]].
  rewrite Hrun in Hes. injection Hes as <-.
  destruct entries as [|e es]; [reflexivity|].
  exfalso. apply Hnone, Hne. discriminate.
Qed.

(** X9.  An object type that the dispatch reaches and the fingerprint
    check leaves alone renders as the raw text of the type checker,
    without a look at its properties, when that text shows no expansion
    artifact, and also when the type has a call signature or no property
    that is not symbol-like. *)
Theorem object_raw_text (graph : TypeGraph) (type : TsType) (depth : nat) :
  depth <= MAX_RESOLVE_DEPTH ->
  isArray (graph type) = false ->
  isTuple (graph type) = false ->
  isUnion (graph type) = false ->
  isIntersection (graph type) = false ->
  notKnownGeneric (graph type) ->
  isObject (graph type) = true ->
  notCollapsed (graph type) ->
  ~ (hasArtifacts (graph type) /\ hasPlainProperties (graph type)) ->
  resolveTypeText graph type depth = Ret (getText (graph type)).
Proof.
  intros Hd Ha Ht Hu Hi Hg Ho Hnc Hraw.
  rewrite resolveTypeText_object by assumption.
  unfold resolveObject. rewrite (notCollapsed_spec _ _ _ Hnc). cbn [bind].
  unfold hasArtifacts, hasPlainProperties in Hraw.
  destruct (EXPANDED_ARRAY_RE_test (getText (graph type))) eqn:He;
    destruct (DUPLICATE_UNION_RE_test (getText (graph type))) eqn:Hdup;
    cbn [negb andb]; try reflexivity.
  all: destruct (propertyEntries_spec graph depth (getProperties (graph type)))
         as [entries [Hrun [_ Hne]]].
  all: destruct ((0 <? List.length (getProperties (graph type)))
                 && (getCallSignatures (graph type) =? 0)) eqn:Hc;
         cbn [bind]; try reflexivity.
  all: rewrite Hrun; cbn [bind].
  all: apply andb_prop in Hc; destruct Hc as [_ Hc]; apply Nat.eqb_eq in Hc.
  all: destruct entries as [|e es]; [reflexivity|].
  all: exfalso; apply Hraw; split; [auto|]; split; [exact Hc|].
  all: apply Hne; discriminate.
Qed.

Lemma object_raw_text_witness :
  resolveTypeText Examples.containers 9 0 = Ret "{ (): void; pop: string }".
Proof.
  apply (object_raw_text Examples.containers 9 0); try reflexivity.
  - unfold MAX_RESOLVE_DEPTH. lia.
  - left. reflexivity.
  - intros [_ [Hcalls _]]. discriminate Hcalls.
Defined.

(** X10.  An object type that the dispatch reaches and the fingerprint
    check leaves alone, whose raw text shows an expansion artifact,
    and that has no call signature and a property that is not
    symbol-like, renders as an object literal over its properties:
    symbol-like ones left out, the others with their types normalized
    one level deeper, optional ones marked, names that are no
    identifiers quoted. *)
Theorem object_literal_rendering (graph : TypeGraph) (type : TsType) (depth : nat) :
  depth <= MAX_RESOLVE_DEPTH ->
  isArray (graph type) = false ->
  isTuple (graph type) = false ->
  isUnion (graph type) = false ->
  isIntersection (graph type) = false ->
  notKnownGeneric (graph type) ->
  isObject (graph type) = true ->
  notCollapsed (graph type) ->
  hasArtifacts (graph type) ->
  hasPlainProperties (graph type) ->
  exists entries,
    IntersectionSpec.ObjectEntries graph depth (getProperties (graph type)) entries
    /\ resolveTypeText graph type depth
       = Ret (IntersectionSpec.mergedLiteral entries).
Proof.
  intros Hd Ha Ht Hu Hi Hg Ho Hnc Hart [Hcalls Hplain].
  destruct (propertyEntries_spec graph depth (getProperties (graph type)))
    as [entries [Hrun [Hentries Hne]]].
  exists entries. split; [exact Hentries|].
  rewrite resolveTypeText_object by assumption.
  unfold resolveObject. rewrite (notCollapsed_spec _ _ _ Hnc). cbn [bind].
  assert (Hdirty : negb (EXPANDED_ARRAY_RE_test (getText (graph type)))
                   && negb (DUPLICATE_UNION_RE_test (getText (graph type))) = false).
  { destruct Hart as [->| ->]; [reflexivity | apply andb_false_r]. }
  rewrite Hdirty, Hcalls.
  assert (Hsome : (0 <? List.length (getProperties (graph type))) = true).
  { apply Nat.ltb_lt. destruct (getProperties (graph type)); [inversion Hplain|].
    simpl. lia. }
  rewrite Hsome. cbn [andb Nat.eqb bind]. rewrite Hrun. cbn [bind].
  apply Hne in Hplain. destruct entries as [|e es]; [congruence | reflexivity].
Qed.

Lemma object_literal_rendering_witness :
  resolveTypeText Examples.containers 8 0 = Ret "{ pop: string; tags?: string[] }".
Proof.
  assert (Hdepth : 0 <= MAX_RESOLVE_DEPTH) by (unfold MAX_RESOLVE_DEPTH; lia).
  assert (Hnc : notCollapsed (Examples.containers 8)) by (left; reflexivity).
  assert (Hart : hasArtifacts (Examples.containers 8)) by (left; reflexivity).
  assert (Hplain : hasPlainProperties (Examples.containers 8))
    by (split; [reflexivity | apply Exists_cons_hd; reflexivity]).
  destruct (object_literal_rendering Examples.containers 8 0 Hdepth eq_refl eq_refl
              eq_refl eq_refl I eq_refl Hnc Hart Hplain)
    as [entries [Hentries Hres]].
  rewrite Hres. f_equal.
  inversion Hentries as [|? ? ? Hs|? ? es1 r1 _ H1 Hrest]; subst;
    [discriminate Hs|].
  inversion Hrest as [|? ? ? Hs|? ? es2 r2 _ H2 Hlast]; subst;
    [discriminate Hs|].
  inversion Hlast as [|? ? ? _ Hnil|? ? ? ? Hs]; subst; [|discriminate Hs].
  inversion Hnil; subst.
  vm_compute in H1, H2. injection H1 as <-. injection H2 as <-. reflexivity.
Defined.

(** ** Members of a union *)

Lemma In_dedup (parts : list string) (p : string) :
  In p (UnionSpec.dedup parts) <-> In p parts.
Proof.
  induction parts as [|q rest IH]; [reflexivity|].
  cbn [UnionSpec.dedup In]. rewrite filter_In, IH.
  destruct (String.eqb_spec p q) as [->|Hne]; cbn [negb]; intuition congruence.
Qed.

Lemma NoDup_dedup (parts : list string) : NoDup (UnionSpec.dedup parts).
Proof.
  induction parts as [|q rest IH]; [constructor|].
  cbn [UnionSpec.dedup]. constructor; [|now apply NoDup_filter].
  rewrite filter_In. intros [_ H]. now rewrite String.eqb_refl in H.
Qed.

Lemma NoDup_absenceLast (parts : list string) :
  NoDup parts -> NoDup (UnionSpec.absenceLast parts).
Proof.
  intros H. unfold UnionSpec.absenceLast.
  apply NoDup_app; [now apply NoDup_filter | now apply NoDup_filter |].
  intros p Hp Hq. apply filter_In in Hp, Hq.
  destruct Hp as [_ Hp], Hq as [_ Hq]. now rewrite Hq in Hp.
Qed.

Lemma In_absenceLast (parts : list string) (p : string) :
  In p (UnionSpec.absenceLast parts) <-> In p parts.
Proof.
  unfold UnionSpec.absenceLast. rewrite in_app_iff, !filter_In.
  destruct (UnionSpec.isAbsence p); cbn [negb]; intuition congruence.
Qed.

Lemma existsb_eqb_In (p : string) (parts : list string) :
  List.existsb (String.eqb p) parts = true <-> In p parts.
Proof.
  rewrite existsb_exists. split.
  - intros [q [Hq Heq]]. apply String.eqb_eq in Heq. now subst.
  - intros H. exists p. split; [exact H | apply String.eqb_refl].
Qed.

Lemma count_occ_absenceLast (parts : list string) (p : string) :
  count_occ string_dec (UnionSpec.absenceLast parts) p = count_occ string_dec parts p.
Proof.
  unfold UnionSpec.absenceLast. rewrite count_occ_app.
  induction parts as [|q rest IH]; [reflexivity|].
  cbn [filter]. destruct (UnionSpec.isAbsence q); cbn [negb count_occ];
    destruct (string_dec q p); lia.
Qed.

(** X11.  The members that a union is rendered with are normalized
    members of the union or the [boolean] substituted for [true] and
    [false], and they are pairwise distinct, with one exception: when
    [boolean], [true] and [false] all occur among the normalized
    members, [boolean] is rendered twice, the substituted one being a
    second one, and every other member once. *)
Theorem union_members_distinct (graph : TypeGraph) (type : TsType) (depth : nat)
  (parts : list string) :
  depth <= MAX_RESOLVE_DEPTH ->
  isArray (graph type) = false ->
  isTuple (graph type) = false ->
  isUnion (graph type) = true ->
  Forall2 (fun member part => resolveTypeText graph member (depth + 1) = Ret part)
    (getUnionTypes (graph type)) parts ->
  exists members,
    resolveTypeText graph type depth = Ret (String.concat " | " members)
    /\ (forall m, In m members ->
                  In m parts \/ (m = "boolean" /\ In "true" parts /\ In "false" parts))
    /\ (~ (In "boolean" parts /\ In "true" parts /\ In "false" parts) ->
        NoDup members)
    /\ (In "boolean" parts -> In "true" parts -> In "false" parts ->
        count_occ string_dec members "boolean" = 2
        /\ forall m, m <> "boolean" -> count_occ string_dec members m <= 1).
Proof.
  intros Hd Ha Ht Hu Hall.
  exists (UnionSpec.absenceLast (UnionSpec.substituteBoolean (UnionSpec.dedup parts))).
  split; [|split; [|split]].
  - rewrite resolveTypeText_union by assumption. unfold resolveUnion.
    rewrite (Forall2_mapM _ _ _ Hall). cbn [bind].
    now rewrite sort_absenceLast, collapseBoolean_spec, unique_dedup.
  - intros m Hm. apply (proj1 (In_absenceLast _ _)) in Hm.
    unfold UnionSpec.substituteBoolean in Hm.
    destruct (List.existsb (String.eqb "true") (UnionSpec.dedup parts)) eqn:Htrue;
      cbn [andb] in Hm; [|left; exact (proj1 (In_dedup _ _) Hm)].
    destruct (List.existsb (String.eqb "false") (UnionSpec.dedup parts)) eqn:Hfalse;
      [|left; exact (proj1 (In_dedup _ _) Hm)].
    apply existsb_eqb_In in Htrue. apply (proj1 (In_dedup _ _)) in Htrue.
    apply existsb_eqb_In in Hfalse. apply (proj1 (In_dedup _ _)) in Hfalse.
    apply in_app_iff in Hm. destruct Hm as [Hm|[<-|[]]].
    + left. apply filter_In in Hm. exact (proj1 (In_dedup _ _) (proj1 Hm)).
    + right. auto.
  - intros Hbool. apply NoDup_absenceLast. unfold UnionSpec.substituteBoolean.
    destruct (List.existsb (String.eqb "true") (UnionSpec.dedup parts)) eqn:Htrue;
      [|apply NoDup_dedup].
    destruct (List.existsb (String.eqb "false") (UnionSpec.dedup parts)) eqn:Hfalse;
      [|apply NoDup_dedup].
    cbn [andb]. apply existsb_eqb_In in Htrue. apply (proj1 (In_dedup _ _)) in Htrue.
    apply existsb_eqb_In in Hfalse. apply (proj1 (In_dedup _ _)) in Hfalse.
    apply NoDup_app; [apply NoDup_filter, NoDup_dedup | repeat constructor; auto |].
    intros p Hp [<-|[]]. apply filter_In in Hp. destruct Hp as [Hp _].
    apply (proj1 (In_dedup _ _)) in Hp. auto.
  - intros Hboolean Htrue Hfalse.
    assert (Hsub : UnionSpec.substituteBoolean (UnionSpec.dedup parts)
                   = (filter (fun p => negb (UnionSpec.isLiteral p))
                        (UnionSpec.dedup parts) ++ ["boolean"])%list).
    { unfold UnionSpec.substituteBoolean.
      rewrite (proj2 (existsb_eqb_In "true" _) (proj2 (In_dedup _ _) Htrue)).
      now rewrite (proj2 (existsb_eqb_In "false" _) (proj2 (In_dedup _ _) Hfalse)). }
    assert (Hnodup : NoDup (filter (fun p => negb (UnionSpec.isLiteral p))
                              (UnionSpec.dedup parts)))
      by apply NoDup_filter, NoDup_dedup.
    split.
    + rewrite count_occ_absenceLast, Hsub, count_occ_app.
      rewrite (proj1 (NoDup_count_occ' string_dec _) Hnodup "boolean"); [reflexivity|].
      apply filter_In. split; [exact (proj2 (In_dedup _ _) Hboolean) | reflexivity].
    + intros m Hm. rewrite count_occ_absenceLast, Hsub, count_occ_app.
      pose proof (proj1 (NoDup_count_occ string_dec _) Hnodup m) as Hle.
      cbn [count_occ]. destruct (string_dec "boolean" m); [congruence | lia].
Qed.

Lemma union_members_distinct_witness :
  exists members,
    resolveTypeText Examples.booleanTwice 0 0 = Ret (String.concat " | " members)
    /\ (forall m, In m members ->
                  In m ["boolean"; "true"; "false"]
                  \/ (m = "boolean"
                      /\ In "true" ["boolean"; "true"; "false"]
                      /\ In "false" ["boolean"; "true"; "false"]))
    /\ (~ (In "boolean" ["boolean"; "true"; "false"]
           /\ In "true" ["boolean"; "true"; "false"]
           /\ In "false" ["boolean"; "true"; "false"]) ->
        NoDup members)
    /\ (In "boolean" ["boolean"; "true"; "false"] ->
        In "true" ["boolean"; "true"; "false"] ->
        In "false" ["boolean"; "true"; "false"] ->
        count_occ string_dec members "boolean" = 2
        /\ forall m, m <> "boolean" -> count_occ string_dec members m <= 1).
Proof.
  assert (Hdepth : 0 <= MAX_RESOLVE_DEPTH) by (unfold MAX_RESOLVE_DEPTH; lia).
  apply (union_members_distinct Examples.booleanTwice 0 0 ["boolean"; "true"; "false"]
           Hdepth eq_refl eq_refl eq_refl).
  repeat constructor.
Defined.

(** The union of [boolean], [true] and [false] renders [boolean] twice. *)
Example resolveTypeText_boolean_twice :
  resolveTypeText Examples.booleanTwice 0 0 = Ret "boolean | boolean".
Proof. reflexivity. Qed.

Lemma uniqueFrom_repeated (x : string) (after : list string) :
  forall before seen,
    In x before \/ Js.includes seen x = true ->
    Js.uniqueFrom seen (before ++ x :: after) = Js.uniqueFrom seen (before ++ after).
Proof.
  induction before as [|y before IH]; intros seen Hx; cbn [app Js.uniqueFrom].
  - destruct Hx as [[]|Hx]. now rewrite Hx.
  - destruct (Js.includes seen y) eqn:Hy.
    + apply IH. destruct Hx as [[->|Hx]|Hx]; auto.
    + f_equal. apply IH. rewrite includes_app.
      destruct Hx as [[->|Hx]|Hx]; auto.
      * right. rewrite String.eqb_refl. apply orb_true_r.
      * right. now rewrite Hx.
Qed.

Lemma Forall2_app_split {A B : Type} (R : A -> B -> Prop) (l1 l2 : list A)
  (bs : list B) :
  Forall2 R (l1 ++ l2) bs ->
  exists bs1 bs2, bs = (bs1 ++ bs2)%list /\ Forall2 R l1 bs1 /\ Forall2 R l2 bs2.
Proof.
  revert bs. induction l1 as [|a l1 IH]; intros bs H.
  - exists [], bs. repeat split; [constructor | exact H].
  - inversion H as [|? b ? bs' Hab Hrest]; subst.
    destruct (IH bs' Hrest) as [bs1 [bs2 [-> [H1 H2]]]].
    exists (b :: bs1), bs2. repeat split; [now constructor | exact H2].
Qed.

Lemma Forall2_In_l {A B : Type} (R : A -> B -> Prop) (l : list A) (bs : list B)
  (a : A) :
  Forall2 R l bs -> In a l -> exists b, In b bs /\ R a b.
Proof.
  induction 1 as [|x b l bs Hxb _ IH]; intros Ha; [contradiction|].
  destruct Ha as [->|Ha].
  - exists b. split; [now left | exact Hxb].
  - destruct (IH Ha) as [b' [Hb' Hr]]. exists b'. split; [now right | exact Hr].
Qed.

(** X12.  A member that normalizes to the text of an earlier member
    changes nothing: the union with it and the union without it render
    the same. *)
Theorem repeated_member_changes_nothing (graph : TypeGraph) (type type' : TsType)
  (depth : nat) (before after : list TsType) (earlier member : TsType) :
  depth <= MAX_RESOLVE_DEPTH ->
  isArray (graph type) = false -> isTuple (graph type) = false ->
  isUnion (graph type) = true ->
  isArray (graph type') = false -> isTuple (graph type') = false ->
  isUnion (graph type') = true ->
  getUnionTypes (graph type) = (before ++ member :: after)%list ->
  getUnionTypes (graph type') = (before ++ after)%list ->
  In earlier before ->
  resolveTypeText graph earlier (depth + 1) = resolveTypeText graph member (depth + 1) ->
  resolveTypeText graph type depth = resolveTypeText graph type' depth.
Proof.
  intros Hd Ha Ht Hu Ha' Ht' Hu' Hmembers Hmembers' Hin Hsame.
  rewrite !resolveTypeText_union by assumption. unfold resolveUnion.
  rewrite Hmembers, Hmembers'.
  destruct (recur_Forall2 graph depth (before ++ member :: after))
    as [parts [Hrun Hall]].
  apply Forall2_app_split in Hall.
  destruct Hall as [pb [rest [-> [Hb Hrest]]]].
  inversion Hrest as [|? pm ? pa Hm Hafter]; subst.
  assert (Hrun' : mapM (fun t => resolveTypeText graph t (depth + 1)) (before ++ after)
                  = Ret (pb ++ pa)%list).
  { apply Forall2_mapM. now apply Forall2_app. }
  rewrite Hrun, Hrun'. cbn [bind].
  destruct (Forall2_In_l _ _ _ _ Hb Hin) as [pe [Hpe He]].
  assert (pe = pm) by congruence. subst pe.
  unfold Js.unique. now rewrite uniqueFrom_repeated by (left; exact Hpe).
Qed.

Lemma repeated_member_changes_nothing_witness :
  resolveTypeText Examples.repeatedMember 0 0
  = resolveTypeText Examples.repeatedMember 1 0.
Proof.
  apply (repeated_member_changes_nothing Examples.repeatedMember 0 1 0 [2; 3; 4] [] 4 4);
    try reflexivity.
  - unfold MAX_RESOLVE_DEPTH. lia.
  - in_list.
Defined.

(** ** Paths built segment by segment *)

Lemma split_not_nil (s : string) : Js.split "/" s <> [].
Proof.
  destruct s as [|c s]; [discriminate|].
  cbn [Js.split]. destruct (Ascii.eqb c "/"); [discriminate|].
  destruct (Js.split "/" s); discriminate.
Qed.

Lemma split_prefix (segment rest : string) :
  slashFree segment = true ->
  Js.split "/" (segment ++ rest)
  = match Js.split "/" rest with
    | [] => [segment]
    | head :: others => (segment ++ head) :: others
    end.
Proof.
  unfold slashFree. induction segment as [|c segment IH]; intros H.
  - cbn [append]. pose proof (split_not_nil rest).
    destruct (Js.split "/" rest); [contradiction | reflexivity].
  - cbn [Js.forallb] in H. apply andb_prop in H. destruct H as [Hc Hs].
    unfold notChar in Hc. apply negb_true_iff in Hc.
    cbn [append Js.split]. rewrite Hc, (IH Hs).
    now destruct (Js.split "/" rest).
Qed.

Lemma split_pathOf (segments : list string) :
  Forall (fun segment => slashFree segment = true) segments ->
  Js.split "/" (pathOf segments) = "" :: segments.
Proof.
  induction 1 as [|segment rest Hs _ IH]; [reflexivity|].
  cbn [pathOf]. change ("/" ++ segment ++ pathOf rest)
    with (String "/" (segment ++ pathOf rest)).
  cbn [Js.split]. rewrite Ascii.eqb_refl, (split_prefix _ _ Hs), IH.
  now rewrite append_empty.
Qed.

(** X13.  On a path that puts slash-free segments behind a slash each,
    the extractor gives exactly the colon-prefixed segments with a
    non-empty name, in their order, each mapped to [string]; other
    segments add nothing. *)
Theorem parseParamsFromPath_of_segments (segments : list string) :
  Forall (fun segment => slashFree segment = true) segments ->
  parseParamsFromPath (pathOf segments)
  = PathSpec.paramsLiteral (flat_map paramNameOf segments).
Proof.
  intros H. unfold parseParamsFromPath. rewrite matchAll_segments.
  unfold PathSpec.slashColonNames, PathSpec.segments.
  rewrite (split_pathOf _ H). reflexivity.
Qed.

Lemma parseParamsFromPath_of_segments_witness :
  parseParamsFromPath (pathOf ["orgs"; ":orgId"; ":"; "users"; ":id"])
  = "{orgId: string, id: string}".
Proof.
  rewrite (parseParamsFromPath_of_segments ["orgs"; ":orgId"; ":"; "users"; ":id"]).
  - reflexivity.
  - repeat constructor.
Defined.

Lemma fold_accessors (segments : list string) :
  forall chain,
    fold_left
      (fun chain segment =>
         if Js.startsWith segment ":" then
           chain ++ "[params." ++ Js.slice1 segment ++ "]"
         else if VALID_IDENT_test segment then chain ++ "." ++ segment
         else chain ++ "[" ++ DQ ++ segment ++ DQ ++ "]")
      segments chain
    = chain ++ String.concat "" (map accessor segments).
Proof.
  induction segments as [|segment rest IH]; intros chain.
  - simpl. now rewrite append_empty.
  - cbn [fold_left map]. rewrite IH.
    assert (Hstep : (if Js.startsWith segment ":" then
                       chain ++ "[params." ++ Js.slice1 segment ++ "]"
                     else if VALID_IDENT_test segment then chain ++ "." ++ segment
                     else chain ++ "[" ++ DQ ++ segment ++ DQ ++ "]")
                    = chain ++ accessor segment).
    { unfold accessor. destruct (Js.startsWith segment ":"); [reflexivity|].
      now destruct (VALID_IDENT_test segment). }
    rewrite Hstep, append_assoc. f_equal.
    destruct rest; [|reflexivity]. simpl. now rewrite append_empty.
Qed.

(** X14.  On a path that puts slash-free segments behind a slash each,
    the client expression is [client] followed by one accessor for each
    non-empty segment, in path order: an index by [params.name] for a
    colon-prefixed segment, a member access for an identifier, a quoted
    index for anything else.  Empty segments, from doubled or trailing
    slashes, leave no trace. *)
Theorem buildClientPath_of_segments (segments : list string) :
  Forall (fun segment => slashFree segment = true) segments ->
  buildClientPath (pathOf segments)
  = "client" ++ String.concat "" (map accessor (filter nonEmpty segments)).
Proof.
  intros H. unfold buildClientPath. rewrite (split_pathOf _ H).
  cbn [filter String.eqb negb]. apply fold_accessors.
Qed.

Lemma buildClientPath_of_segments_witness :
  buildClientPath (pathOf ["users"; ""; ":id"; "my-posts"; ""])
  = "client.users[params.id][" ++ DQ ++ "my-posts" ++ DQ ++ "]".
Proof.
  rewrite (buildClientPath_of_segments ["users"; ""; ":id"; "my-posts"; ""]).
  - reflexivity.
  - repeat constructor.
Defined.

Lemma pathOf_snoc (segments : list string) (segment : string) :
  pathOf (segments ++ [segment]) = pathOf segments ++ "/" ++ segment.
Proof.
  induction segments as [|s rest IH]; cbn [app pathOf].
  - now rewrite append_empty.
  - rewrite IH. change ("/" ++ s ++ pathOf rest ++ "/" ++ segment)
      with (String "/" (s ++ pathOf rest ++ "/" ++ segment)).
    change (("/" ++ s ++ pathOf rest) ++ "/" ++ segment)
      with (String "/" ((s ++ pathOf rest) ++ "/" ++ segment)).
    now rewrite append_assoc.
Qed.

Lemma nextPath_below (path name : string) :
  path <> "" -> name <> "~Routes" -> nextPath path name = path ++ "/" ++ name.
Proof.
  intros Hp Hn. unfold nextPath.
  apply String.eqb_neq in Hp, Hn. rewrite Hn, Hp. now rewrite andb_false_r.
Qed.

Lemma fold_nextPath (segments : list string) :
  Forall (fun segment => segment <> "~Routes") segments ->
  forall before,
    before <> [] ->
    fold_left nextPath segments (pathOf before) = pathOf (before ++ segments).
Proof.
  induction 1 as [|segment rest Hs _ IH]; intros before Hb.
  - cbn [fold_left]. now rewrite app_nil_r.
  - cbn [fold_left]. rewrite nextPath_below; [| |exact Hs].
    + rewrite <- pathOf_snoc, IH by (now destruct before).
      now rewrite <- app_assoc.
    + destruct before as [|b before]; [contradiction | discriminate].
Qed.

(** X15.  Below a property that it walks into, the walker goes on under
    the path extended by a slash and the property name, the empty path
    for [~Routes], and no slash in front of a colon-prefixed name at the
    empty path.  So the path under which it reaches a node, going down
    from the root through segments other than [~Routes], puts every
    segment behind a slash, except that a colon-prefixed first segment
    has no slash in front of it. *)
Theorem walked_path (first : string) (rest : list string) :
  (forall graph sdkImport sdkClientName sdkClientOptions self path prop,
      descends (getName prop) = true ->
      walkProperty graph sdkImport sdkClientName sdkClientOptions self path prop
      = (docs <- self (getTypeAtLocation prop) (nextPath path (getName prop)) ;;
         Ret [docs]))
  /\ (Forall (fun segment => segment <> "~Routes") (first :: rest) ->
      fold_left nextPath (first :: rest) ""
      = if Js.startsWith first ":" then first ++ pathOf rest
        else pathOf (first :: rest)).
Proof.
  split; [intros; now apply walk_descends|].
  intros H. inversion H as [|? ? Hfirst Hrest]; subst.
  cbn [fold_left]. unfold nextPath at 2.
  apply String.eqb_neq in Hfirst. rewrite Hfirst. cbn [String.eqb andb].
  destruct (Js.startsWith first ":") eqn:Hcolon; cbn [andb append].
  - assert (Hne : first <> "").
    { intros ->. discriminate Hcolon. }
    clear H Hfirst Hcolon. revert first Hne.
    induction Hrest as [|segment rest Hs _ IH]; intros first Hne.
    + cbn [fold_left pathOf]. now rewrite append_empty.
    + cbn [fold_left pathOf]. rewrite nextPath_below by assumption.
      rewrite IH.
      * now rewrite !append_assoc.
      * destruct first; [contradiction | discriminate].
  - replace (String "/" first) with (pathOf [first])
      by (cbn [pathOf]; now rewrite append_empty).
    now rewrite fold_nextPath by (assumption || discriminate).
Qed.

Lemma walked_path_witness :
  fold_left nextPath [":tenant"; "users"; ":id"] "" = ":tenant/users/:id".
Proof.
  rewrite (proj2 (walked_path ":tenant" ["users"; ":id"])).
  - reflexivity.
  - repeat constructor; discriminate.
Defined.

(** ** What the pretty-printer keeps *)

Lemma strip_app (a b : string) :
  stripWhiteSpace (a ++ b) = stripWhiteSpace a ++ stripWhiteSpace b.
Proof.
  induction a as [|c a IH]; [reflexivity|].
  cbn [append stripWhiteSpace]. destruct (Js.isWhiteSpace c); [exact IH|].
  cbn [append]. now rewrite IH.
Qed.

Lemma strip_white (s : string) :
  Js.forallb Js.isWhiteSpace s = true -> stripWhiteSpace s = "".
Proof.
  induction s as [|c s IH]; [reflexivity|].
  cbn [Js.forallb stripWhiteSpace]. intros H. apply andb_prop in H.
  destruct H as [-> Hs]. now apply IH.
Qed.

Lemma strip_pad (n : nat) : stripWhiteSpace (Js.repeat_nat "  " n) = "".
Proof. induction n as [|n IH]; [reflexivity | exact IH]. Qed.

Lemma strip_trimStart (s : string) :
  stripWhiteSpace (Js.trimStart s) = stripWhiteSpace s.
Proof.
  induction s as [|c s IH]; [reflexivity|].
  cbn [Js.trimStart stripWhiteSpace]. destruct (Js.isWhiteSpace c) eqn:Hc; [exact IH|].
  cbn [stripWhiteSpace]. now rewrite Hc.
Qed.

Lemma strip_trimEnd (s : string) :
  stripWhiteSpace (Js.trimEnd s) = stripWhiteSpace s.
Proof.
  induction s as [|c s IH]; [reflexivity|].
  cbn [Js.trimEnd stripWhiteSpace]. rewrite <- IH.
  destruct (Js.trimEnd s) as [|d t].
  - destruct (Js.isWhiteSpace c) eqn:Hc; [reflexivity|].
    unfold Js.str. cbn [stripWhiteSpace]. now rewrite Hc.
  - cbn [stripWhiteSpace]. reflexivity.
Qed.

Lemma prettyStep_strip (st st' : PrettyState) (c : ascii) :
  prettyStep st c = Ret st' ->
  stripWhiteSpace (Js.join (chunks st') "")
  = stripWhiteSpace (Js.join (chunks st) "") ++ stripWhiteSpace (Js.str c).
Proof.
  unfold prettyStep, Js.repeat, push.
  repeat match goal with
         | |- context [if ?b then _ else _] => destruct b eqn:?
         end; cbn [bind]; intros H; try discriminate H; injection H as <-;
    cbn [chunks]; rewrite ?join_app, ?strip_app.
  all: try reflexivity.
  all: try (unfold Js.join; cbn [String.concat append];
            rewrite ?strip_app, ?strip_pad, ?append_empty;
            change (stripWhiteSpace nl) with ""; cbn [append];
            now rewrite ?append_empty).
  (* a space that is not pushed *)
  match goal with
  | H : negb (Ascii.eqb c " ") || _ = false |- _ =>
      apply orb_false_elim in H; destruct H as [H _];
      apply negb_false_iff, Ascii.eqb_eq in H; subst c
  end.
  cbn. now rewrite append_empty.
Qed.

Lemma prettyLoop_strip (s : string) :
  forall st st',
    prettyLoop st s = Ret st' ->
    stripWhiteSpace (Js.join (chunks st') "")
    = stripWhiteSpace (Js.join (chunks st) "") ++ stripWhiteSpace s.
Proof.
  induction s as [|c s IH]; intros st st' H.
  - injection H as <-. now rewrite append_empty.
  - cbn [prettyLoop] in H.
    destruct (prettyStep st c) as [st1| |] eqn:Hstep; cbn [bind] in H;
      try discriminate H.
    rewrite (IH _ _ H), (prettyStep_strip _ _ _ Hstep), append_assoc.
    f_equal. change (String c s) with (Js.str c ++ s). now rewrite strip_app.
Qed.

Lemma span_spec (p : ascii -> bool) (s : string) :
  s = fst (Js.span p s) ++ snd (Js.span p s)
  /\ Js.forallb p (fst (Js.span p s)) = true.
Proof.
  induction s as [|c s [IH1 IH2]]; [split; reflexivity|].
  cbn [Js.span]. destruct (p c) eqn:Hc; [|split; reflexivity].
  destruct (Js.span p s) as [a b]. cbn [fst snd append Js.forallb] in *.
  split; [now rewrite IH1 at 1 | now rewrite Hc, IH2].
Qed.

Lemma afterLast_forallb (p : ascii -> bool) (x : ascii) (s t : string) :
  Js.forallb p s = true -> afterLast x s = Some t -> Js.forallb p t = true.
Proof.
  revert t. induction s as [|c s IH]; intros t Hs H; [discriminate H|].
  cbn [Js.forallb] in Hs. apply andb_prop in Hs. destruct Hs as [_ Hs].
  cbn [afterLast] in H. destruct (afterLast x s) as [u|].
  - injection H as <-. now apply IH.
  - destruct (Ascii.eqb c x); [|discriminate H]. now injection H as <-.
Qed.

Lemma dropChars_app (a b : string) : dropChars (String.length a) (a ++ b) = b.
Proof. induction a as [|c a IH]; [now destruct b | exact IH]. Qed.

Lemma dropChars_behind (c n : ascii) (ws : string) (d : ascii) (tail : string) :
  dropChars (3 + String.length ws) (String c (String n (ws ++ String d tail))) = tail.
Proof.
  change (3 + String.length ws) with (S (S (S (String.length ws)))).
  cbn [dropChars]. induction ws as [|w ws IH]; [now destruct tail | exact IH].
Qed.

(** A match of [BLANK_LINE_RE] is replaced by itself less white space. *)
Lemma BLANK_LINE_RE_strip (s : string) (len : nat) (groups : list string) :
  BLANK_LINE_RE s = Some (len, groups) ->
  1 <= len
  /\ stripWhiteSpace s
     = stripWhiteSpace (group 1 groups ++ nl ++ group 2 groups)
       ++ stripWhiteSpace (dropChars len s).
Proof.
  unfold BLANK_LINE_RE. destruct s as [|c [|n rest]]; try discriminate.
  destruct ((Ascii.eqb c ";" || Ascii.eqb c ",") && Ascii.eqb n newline) eqn:Hhead;
    [|discriminate].
  apply andb_prop in Hhead. destruct Hhead as [_ Hn].
  apply Ascii.eqb_eq in Hn. subst n.
  destruct (span_spec Js.isWhiteSpace rest) as [Hrest Hws].
  destruct (Js.span Js.isWhiteSpace rest) as [ws tail]. cbn [fst snd] in *.
  destruct (afterLast newline ws) as [pad|] eqn:Hpad; [|discriminate].
  destruct tail as [|d tail]; [discriminate|].
  destruct (isCloser d); [|discriminate].
  intros H. injection H as <- <-. split; [lia|].
  pose proof (afterLast_forallb _ _ _ _ Hws Hpad) as Hpadws.
  cbn [group nth Nat.sub]. subst rest.
  change (S (S (S (String.length ws)))) with (3 + String.length ws).
  rewrite (dropChars_behind c newline ws d tail).
  change (String c (String newline (ws ++ String d tail)))
    with (Js.str c ++ nl ++ ws ++ Js.str d ++ tail).
  rewrite !strip_app, (strip_white ws Hws), (strip_white pad Hpadws).
  change (stripWhiteSpace nl) with "". cbn [append].
  now rewrite append_assoc.
Qed.

Lemma replaceFrom_strip (s : string) :
  forall skip,
    stripWhiteSpace
      (Re.replaceFrom BLANK_LINE_RE (fun g => group 1 g ++ nl ++ group 2 g) skip s)
    = stripWhiteSpace (dropChars skip s).
Proof.
  induction s as [|c s IH]; intros skip; [now destruct skip|].
  cbn [Re.replaceFrom]. destruct skip as [|skip]; [|apply IH].
  destruct (BLANK_LINE_RE (String c s)) as [[len groups]|] eqn:Hmatch.
  - destruct (BLANK_LINE_RE_strip _ _ _ Hmatch) as [Hlen Hstrip].
    rewrite strip_app, IH. cbn [dropChars]. rewrite Hstrip. f_equal.
    destruct len as [|len]; [lia|]. cbn [dropChars Nat.sub].
    now rewrite ?Nat.sub_0_r.
  - cbn [stripWhiteSpace dropChars]. rewrite (IH 0).
    now destruct s.
Qed.

Lemma collapseBlankLines_strip (s : string) :
  stripWhiteSpace (collapseBlankLines s) = stripWhiteSpace s.
Proof.
  unfold collapseBlankLines, Re.replaceAll. rewrite replaceFrom_strip.
  now destruct s.
Qed.

(** X16.  The pretty-printer changes white space only: what it returns
    is the input once the white space is taken out of both, and has no
    white space at either end. *)
Theorem prettyPrintType_keeps_text (typeStr printed : string) :
  prettyPrintType typeStr = Ret printed ->
  stripWhiteSpace printed = stripWhiteSpace typeStr /\ Js.trim printed = printed.
Proof.
  unfold prettyPrintType. intros H.
  destruct (prettyLoop prettyInit typeStr) as [st| |] eqn:Hloop; cbn [bind] in H;
    try discriminate H.
  injection H as <-. split; [|apply trim_idempotent].
  unfold Js.trim.
  rewrite strip_trimEnd, strip_trimStart, collapseBlankLines_strip.
  now rewrite (prettyLoop_strip _ _ _ Hloop).
Qed.

Lemma prettyPrintType_keeps_text_witness :
  stripWhiteSpace ("{" ++ nl ++ "   id: number;" ++ nl ++ "   name: string " ++ nl ++ "}")
  = stripWhiteSpace "{ id: number; name: string }".
Proof.
  apply (prettyPrintType_keeps_text "{ id: number; name: string }"). reflexivity.
Defined.

(** ** When the pretty-printer throws *)

Lemma prettyLoop_outcome (s : string) :
  forall st opened,
    indent st = Z.of_nat opened ->
    if unmatchedCloser opened (inString st) (escaped st) s
    then prettyLoop st s = Throw RangeError
    else exists st', prettyLoop st s = Ret st'.
Proof.
  induction s as [|c s IH]; intros st opened Hindent; [now exists st|].
  cbn [unmatchedCloser prettyLoop]. unfold prettyStep, Js.repeat, push.
  destruct (escaped st) eqn:Hesc; [cbn [bind]; now apply (IH (mkPretty _ _ _ _))|].
  destruct (Ascii.eqb c "\"); [cbn [bind]; now apply (IH (mkPretty _ _ _ _))|].
  destruct (Ascii.eqb c dquote || Ascii.eqb c "'");
    [cbn [bind]; now apply (IH (mkPretty _ _ _ _))|].
  destruct (inString st) eqn:Hin;
    [cbn [bind]; now apply (IH (mkPretty _ _ _ _))|].
  destruct (Ascii.eqb c "{" || Ascii.eqb c "[").
  { assert (Hpos : (indent st + 1 <? 0)%Z = false) by (apply Z.ltb_ge; lia).
    rewrite Hpos. cbn [bind].
    apply (IH (mkPretty _ _ _ _) (S opened)). cbn [indent]. lia. }
  destruct (Ascii.eqb c "}" || Ascii.eqb c "]").
  { destruct opened as [|fewer].
    - assert (Hneg : (indent st - 1 <? 0)%Z = true) by (apply Z.ltb_lt; lia).
      now rewrite Hneg.
    - assert (Hpos : (indent st - 1 <? 0)%Z = false) by (apply Z.ltb_ge; lia).
      rewrite Hpos. cbn [bind].
      apply (IH (mkPretty _ _ _ _) fewer). cbn [indent]. lia. }
  assert (Hpos : (indent st <? 0)%Z = false) by (apply Z.ltb_ge; lia).
  rewrite Hpos.
  destruct (Ascii.eqb c ";" || Ascii.eqb c ",");
    [cbn [bind]; now apply (IH (mkPretty _ _ _ _))|].
  destruct (negb (Ascii.eqb c " ") || negb (String.eqb (last (chunks st) "") " "));
    cbn [bind].
  - now apply (IH (mkPretty _ _ _ _)).
  - specialize (IH st opened Hindent). rewrite Hin, Hesc in IH. exact IH.
Qed.

Lemma prettyPrintType_outcome (typeStr : string) :
  if unbalanced typeStr
  then prettyPrintType typeStr = Throw RangeError
  else exists printed, prettyPrintType typeStr = Ret printed.
Proof.
  unfold unbalanced, prettyPrintType.
  pose proof (prettyLoop_outcome typeStr prettyInit 0 eq_refl) as H.
  cbn [inString escaped prettyInit] in H.
  destruct (unmatchedCloser 0 false false typeStr).
  - now rewrite H.
  - destruct H as [st ->]. cbn [bind]. eexists. reflexivity.
Qed.

(** X17.  The pretty-printer throws a [RangeError] exactly on text in
    which, read from the left, outside quotes and not behind a
    backslash, a closing brace or bracket comes without an opening one
    left to close; on all other text it returns. *)
Theorem prettyPrintType_throws_on_unmatched_closer (typeStr : string) :
  (unbalanced typeStr = true <-> prettyPrintType typeStr = Throw RangeError)
  /\ (unbalanced typeStr = false <-> exists printed, prettyPrintType typeStr = Ret printed).
Proof.
  pose proof (prettyPrintType_outcome typeStr) as H.
  destruct (unbalanced typeStr).
  - rewrite H. split; split; try reflexivity; try discriminate.
    intros [printed Hp]. discriminate Hp.
  - destruct H as [printed H]. rewrite H.
    split; split; try reflexivity; try discriminate. intros _. now exists printed.
Qed.

Lemma prettyPrintType_throws_on_unmatched_closer_witness :
  prettyPrintType (DQ ++ "it's }" ++ DQ) = Throw RangeError
  /\ exists printed, prettyPrintType "{ a: [string] }" = Ret printed.
Proof.
  split.
  - apply (proj1 (prettyPrintType_throws_on_unmatched_closer (DQ ++ "it's }" ++ DQ))).
    reflexivity.
  - apply (proj2 (prettyPrintType_throws_on_unmatched_closer "{ a: [string] }")).
    reflexivity.
Defined.





(** ** The example value of the usage snippet *)

Lemma lit_headOnly (x : ascii) (p : string) : headOnly (Re.lit (String x p)) x.
Proof.
  intros c s H. unfold Re.lit, Js.startsWith. cbn [Js.stripPrefix].
  now rewrite Ascii.eqb_sym, H.
Qed.

Lemma TRAILING_COMMA_RE_headOnly : headOnly TRAILING_COMMA_RE ",".
Proof.
  intros c s H. unfold TRAILING_COMMA_RE. cbn [Js.stripPrefix].
  now rewrite Ascii.eqb_sym, H.
Qed.

Lemma replaceFrom_pass (m : Re.matcher) (repl : list string -> string)
  (x : ascii) (a b : string) :
  headOnly m x -> Js.forallb (notChar x) a = true ->
  Re.replaceFrom m repl 0 (a ++ b) = a ++ Re.replaceFrom m repl 0 b.
Proof.
  intros Hm. induction a as [|c a IH]; intros Ha; [reflexivity|].
  cbn [Js.forallb] in Ha. apply andb_prop in Ha. destruct Ha as [Hc Ha].
  change (String c a ++ b) with (String c (a ++ b)). cbn [Re.replaceFrom].
  rewrite Hm by (unfold notChar in Hc; now apply negb_true_iff in Hc).
  now rewrite IH.
Qed.

Lemma replaceFrom_skip (m : Re.matcher) (repl : list string -> string)
  (p b : string) :
  Re.replaceFrom m repl (String.length p) (p ++ b) = Re.replaceFrom m repl 0 b.
Proof. induction p as [|c p IH]; [reflexivity|]. cbn. exact IH. Qed.

Lemma replaceFrom_lit (c : ascii) (p : string) (repl : list string -> string)
  (rest : string) :
  Re.replaceFrom (Re.lit (String c p)) repl 0 (String c p ++ rest)
  = repl [] ++ Re.replaceFrom (Re.lit (String c p)) repl 0 rest.
Proof.
  change (String c p ++ rest) with (String c (p ++ rest)). cbn [Re.replaceFrom].
  unfold Re.lit at 1, Js.startsWith.
  change (String c (p ++ rest)) with (String c p ++ rest).
  rewrite stripPrefix_app. cbn [String.length Nat.sub].
  now rewrite Nat.sub_0_r, replaceFrom_skip.
Qed.

Lemma forallb_app (p : ascii -> bool) (a b : string) :
  Js.forallb p (a ++ b) = Js.forallb p a && Js.forallb p b.
Proof.
  induction a as [|c a IH]; [reflexivity|]. cbn. now rewrite IH, andb_assoc.
Qed.

Lemma forallb_impl (p q : ascii -> bool) (s : string) :
  (forall c, p c = true -> q c = true) ->
  Js.forallb p s = true -> Js.forallb q s = true.
Proof.
  intros Hpq. induction s as [|c s IH]; [reflexivity|]. cbn. intros H.
  apply andb_prop in H. destruct H as [Hc Hs]. now rewrite (Hpq _ Hc), IH.
Qed.

Lemma plainParamChar_notChar (c : ascii) :
  plainParamChar c = true ->
  notChar ";" c = true /\ notChar "," c = true
  /\ notChar ":" c = true /\ notChar "}" c = true.
Proof.
  unfold plainParamChar. intros H.
  apply andb_prop in H. destruct H as [H H4].
  apply andb_prop in H. destruct H as [H H3].
  apply andb_prop in H. destruct H as [H1 H2]. now repeat split.
Qed.

(** Behind leading white space, a text without closing brace that a colon
    follows does not start with a closing brace. *)
Lemma span_no_brace (w tail : string) :
  Js.forallb (notChar "}") w = true ->
  Js.startsWith (snd (Js.span Js.isWhiteSpace (w ++ String ":" tail))) "}" = false.
Proof.
  induction w as [|c w IH]; intros Hw; [reflexivity|].
  cbn [Js.forallb] in Hw. apply andb_prop in Hw. destruct Hw as [Hc Hw].
  change (String c w ++ String ":" tail) with (String c (w ++ String ":" tail)).
  cbn [Js.span]. destruct (Js.isWhiteSpace c).
  - specialize (IH Hw). destruct (Js.span Js.isWhiteSpace (w ++ String ":" tail)).
    exact IH.
  - cbn [snd]. unfold Js.startsWith. cbn [Js.stripPrefix].
    unfold notChar in Hc. apply negb_true_iff in Hc.
    now rewrite Ascii.eqb_sym, Hc.
Qed.

Lemma TRAILING_COMMA_RE_field (w tail : string) :
  Js.forallb (notChar "}") w = true ->
  TRAILING_COMMA_RE (String "," (w ++ String ":" tail)) = None.
Proof.
  intros Hw. unfold TRAILING_COMMA_RE. cbn [Js.stripPrefix].
  rewrite Ascii.eqb_refl. pose proof (span_no_brace w tail Hw) as H.
  destruct (Js.span Js.isWhiteSpace (w ++ String ":" tail)) as [ws rest].
  cbn [snd] in H. now rewrite H.
Qed.

Section ExampleValue.

Let typed (name : string) : string := name ++ ": string".
Let valued (name : string) : string :=
  name ++ ": " ++ DQ ++ "example-value" ++ DQ.
Let plain (name : string) : Prop := Js.forallb plainParamChar name = true.

Lemma typed_colon (name : string) (names : list string) :
  exists tail,
    String.concat ", " (map typed (name :: names)) ++ "}"
    = name ++ String ":" tail.
Proof.
  destruct names as [|name' names]; eexists.
  - cbn [map String.concat]. unfold typed. rewrite append_assoc. reflexivity.
  - change (String.concat ", " (map typed (name :: name' :: names)))
      with (typed name ++ ", " ++ String.concat ", " (map typed (name' :: names))).
    unfold typed at 1. rewrite !append_assoc. reflexivity.
Qed.

Lemma semicolons_none (names : list string) :
  Forall plain names ->
  Re.replaceAll (Re.lit ";") (fun _ => ",") (PathSpec.paramsLiteral names)
  = PathSpec.paramsLiteral names.
Proof.
  intros H. unfold Re.replaceAll.
  rewrite <- (append_empty (PathSpec.paramsLiteral names)) at 1.
  rewrite (replaceFrom_pass _ _ ";" _ "" (lit_headOnly ";" "")).
  - now rewrite append_empty.
  - destruct names as [|name names]; [reflexivity|].
    unfold PathSpec.paramsLiteral.
    rewrite !forallb_app, andb_true_r. cbn [Js.forallb andb notChar Ascii.eqb].
    change (Js.forallb (notChar ";")
              (String.concat ", " (map typed (name :: names))) = true).
    revert name H. induction names as [|name' names IH]; intros name H.
    + inversion_clear H as [|? ? Hn _]. cbn [map String.concat]. unfold typed.
      rewrite forallb_app, andb_true_r.
      apply (forallb_impl plainParamChar); [|exact Hn].
      intros c Hc. now apply plainParamChar_notChar in Hc.
    + inversion_clear H as [|? ? Hn Hrest].
      change (String.concat ", " (map typed (name :: name' :: names)))
        with (typed name ++ ", " ++ String.concat ", " (map typed (name' :: names))).
      unfold typed at 1. rewrite !forallb_app, (IH _ Hrest), !andb_true_r.
      apply (forallb_impl plainParamChar); [|exact Hn].
      intros c Hc. now apply plainParamChar_notChar in Hc.
Qed.

Lemma trailing_commas_none (names : list string) (name : string) :
  Forall plain (name :: names) ->
  Re.replaceFrom TRAILING_COMMA_RE (group 1) 0
    (String.concat ", " (map typed (name :: names)) ++ "}")
  = String.concat ", " (map typed (name :: names)) ++ "}".
Proof.
  revert name. induction names as [|name' names IH]; intros name H;
    inversion_clear H as [|? ? Hn Hrest].
  - cbn [map String.concat].
    rewrite (replaceFrom_pass _ _ "," _ _ TRAILING_COMMA_RE_headOnly); [reflexivity|].
    unfold typed. rewrite forallb_app, andb_true_r.
    apply (forallb_impl plainParamChar); [|exact Hn].
    intros c Hc. now apply plainParamChar_notChar in Hc.
  - change (String.concat ", " (map typed (name :: name' :: names)))
      with (typed name ++ ", " ++ String.concat ", " (map typed (name' :: names))).
    rewrite !append_assoc.
    rewrite (replaceFrom_pass _ _ "," _ _ TRAILING_COMMA_RE_headOnly).
    2:{ unfold typed. rewrite forallb_app, andb_true_r.
        apply (forallb_impl plainParamChar); [|exact Hn].
        intros c Hc. now apply plainParamChar_notChar in Hc. }
    f_equal.
    destruct (typed_colon name' names) as [tail Htail].
    change (", " ++ String.concat ", " (map typed (name' :: names)) ++ "}")
      with (String "," (String " "
              (String.concat ", " (map typed (name' :: names)) ++ "}"))).
    cbn [Re.replaceFrom].
    replace (TRAILING_COMMA_RE
               (String "," (String " "
                  (String.concat ", " (map typed (name' :: names)) ++ "}"))))
      with (@None (nat * list string)).
    2:{ symmetry. rewrite Htail.
        apply (TRAILING_COMMA_RE_field (String " " name') tail).
        cbn [Js.forallb]. apply andb_true_intro. split; [reflexivity|].
        inversion_clear Hrest as [|? ? Hn' _].
        apply (forallb_impl plainParamChar); [|exact Hn'].
        intros c Hc. now apply plainParamChar_notChar in Hc. }
    rewrite (TRAILING_COMMA_RE_headOnly " "%char) by reflexivity.
    now rewrite (IH _ Hrest).
Qed.

Lemma strings_valued (names : list string) (name : string) :
  Forall plain (name :: names) ->
  Re.replaceFrom (Re.lit ": string") (fun _ => ": " ++ DQ ++ "example-value" ++ DQ) 0
    (String.concat ", " (map typed (name :: names)) ++ "}")
  = String.concat ", " (map valued (name :: names)) ++ "}".
Proof.
  revert name. induction names as [|name' names IH]; intros name H;
    inversion_clear H as [|? ? Hn Hrest].
  - cbn [map String.concat]. unfold typed, valued. rewrite !append_assoc.
    rewrite (replaceFrom_pass _ _ ":" _ _ (lit_headOnly ":" " string")).
    2:{ apply (forallb_impl plainParamChar); [|exact Hn].
        intros c Hc. now apply plainParamChar_notChar in Hc. }
    now f_equal.
  - change (String.concat ", " (map typed (name :: name' :: names)))
      with (typed name ++ ", " ++ String.concat ", " (map typed (name' :: names))).
    change (String.concat ", " (map valued (name :: name' :: names)))
      with (valued name ++ ", " ++ String.concat ", " (map valued (name' :: names))).
    unfold typed at 1, valued at 1. rewrite !append_assoc.
    rewrite (replaceFrom_pass _ _ ":" _ _ (lit_headOnly ":" " string")).
    2:{ apply (forallb_impl plainParamChar); [|exact Hn].
        intros c Hc. now apply plainParamChar_notChar in Hc. }
    f_equal. rewrite (replaceFrom_lit ":" " string").
    rewrite (replaceFrom_pass _ _ ":" ", " _ (lit_headOnly ":" " string"))
      by reflexivity.
    rewrite (IH _ Hrest). now rewrite !append_assoc.
Qed.

Lemma exampleParams_literal (names : list string) :
  Forall plain names ->
  exampleParams (PathSpec.paramsLiteral names) = exampleLiteral names.
Proof.
  intros H. unfold exampleParams. rewrite (semicolons_none _ H).
  destruct names as [|name names]; [reflexivity|].
  unfold PathSpec.paramsLiteral, exampleLiteral, Re.replaceAll.
  rewrite (replaceFrom_pass _ _ "," "{" _ TRAILING_COMMA_RE_headOnly) by reflexivity.
  pose proof (trailing_commas_none _ _ H) as Hcommas.
  pose proof (strings_valued _ _ H) as Hstrings.
  unfold typed in Hcommas, Hstrings. unfold valued in Hstrings.
  rewrite Hcommas.
  rewrite (replaceFrom_pass _ _ ":" "{" _ (lit_headOnly ":" " string")) by reflexivity.
  now rewrite Hstrings.
Qed.

End ExampleValue.

(** X19.  For a path that puts slash-free segments behind a slash each,
    whose parameter names hold none of [;], [,], [:] and the closing
    brace, the example object of the usage snippet gives every parameter
    of the path, in path order, the value [DQ example-value DQ]: the
    substitutions of the snippet touch nothing but the [string] types
    that the extractor has written. *)
Theorem example_params_of_path (segments : list string) :
  Forall (fun segment => slashFree segment = true) segments ->
  Forall (fun name => Js.forallb plainParamChar name = true)
    (flat_map paramNameOf segments) ->
  exampleParams (parseParamsFromPath (pathOf segments))
  = exampleLiteral (flat_map paramNameOf segments).
Proof.
  intros Hs Hn. unfold parseParamsFromPath. rewrite matchAll_segments.
  unfold PathSpec.slashColonNames, PathSpec.segments.
  rewrite (split_pathOf _ Hs).
  exact (exampleParams_literal _ Hn).
Qed.

Lemma example_params_of_path_witness :
  exampleParams (parseParamsFromPath (pathOf ["orgs"; ":orgId"; "users"; ":id"]))
  = "{orgId: " ++ DQ ++ "example-value" ++ DQ
    ++ ", id: " ++ DQ ++ "example-value" ++ DQ ++ "}".
Proof.
  rewrite (example_params_of_path ["orgs"; ":orgId"; "users"; ":id"]).
  - reflexivity.
  - repeat constructor.
  - repeat constructor.
Defined.
